(** * RISE build scripts: a shallow embedding and its verification

    The repository holds two command scripts, [classic/script.py] and
    [rise-reveal/script.py].  Both are sequential file-system orchestration:
    they copy directory trees, rewrite text files and spawn external tools.

    The development has four layers:
    - [Text]: the Python string operations the scripts use
      ([str.splitlines], [str.replace], [re.sub] with an anchored literal,
      the newline handling of text-mode files);
    - [FS]: a file system as a tree of directories and regular files, with the
      [pathlib]/[shutil] operations the scripts call, and a small state and
      exception monad for the scripts' effects;
    - [RiseReveal] and [Classic]: the two scripts, function by function;
    - the theorems: on the text transformations ([Lines], [Anchored],
      [Replace], [Rules]), on the tree and the monad ([Tree], [Step],
      [Names], [Run], [Trees]), on the commands ([Gate], [Ops], [Copies],
      [Clean], [Again], [Endings], [Compile], [Removal], [Failures],
      [Rebuild]), on the command line ([Dispatch]), and on concrete trees
      ([Examples]).

    Conventions.  A file holds bytes; a Python [str] is modelled as the list of
    its characters, restricted to the code points below 256, and the text codec
    is taken to be a single-byte one under which a file's bytes and the
    characters of its text coincide (Latin-1).  Every concrete input used below
    is plain ASCII, on which all ASCII-compatible codecs agree. *)

From Stdlib Require Import Ascii String.
From stdpp Require Import gmap strings list fin_maps.

#[local] Open Scope string_scope.
#[local] Open Scope list_scope.
#[local] Open Scope nat_scope.

(** ** Text *)

Module Text.

Abbreviation text := (list ascii).

(** String literals as texts. *)
Definition txt (s : string) : text := list_ascii_of_string s.

Definition LF : ascii := "010"%char.
Definition CR : ascii := "013"%char.

Definition is_lf (c : ascii) : bool := Ascii.eqb c LF.
Definition is_cr (c : ascii) : bool := Ascii.eqb c CR.

(** The line boundaries of [str.splitlines] below code point 256:
    LF, VT, FF, CR, FS, GS, RS and NEL. *)
Definition linebreak (c : ascii) : bool :=
  match nat_of_ascii c with
  | 10 | 11 | 12 | 13 | 28 | 29 | 30 | 133 => true
  | _ => false
  end.

(** Reading a file opened in text mode with the default [newline=None]
    (what [Path.read_text] does): every CR LF and every lone CR arrives
    as LF. *)
Fixpoint universal_newlines (s : text) : text :=
  match s with
  | [] => []
  | c :: s' =>
      if is_cr c then
        LF :: match s' with
              | c' :: s'' =>
                  if is_lf c' then universal_newlines s''
                  else universal_newlines s'
              | [] => []
              end
      else c :: universal_newlines s'
  end.

(** [str.splitlines(keepends=True)]: CR LF is one boundary. *)
Fixpoint splitlines (s : text) : list text :=
  match s with
  | [] => []
  | c :: s' =>
      if is_cr c then
        match s' with
        | c' :: s'' =>
            if is_lf c' then [c; c'] :: splitlines s''
            else [c] :: splitlines s'
        | [] => [[c]]
        end
      else if linebreak c then [c] :: splitlines s'
      else match splitlines s' with
           | [] => [[c]]
           | l :: ls => (c :: l) :: ls
           end
  end.

(** [sub in s] for strings. *)
Fixpoint starts_with (pat s : text) : bool :=
  match pat, s with
  | [], _ => true
  | a :: pat', c :: s' => Ascii.eqb a c && starts_with pat' s'
  | _ :: _, [] => false
  end.

Fixpoint contains (sub s : text) : bool :=
  starts_with sub s ||
  match s with
  | [] => false
  | _ :: s' => contains sub s'
  end.

(** [s.replace(old, new)]: the occurrences of [old] are found from left to
    right and do not overlap.  [skip] counts the characters of the current
    occurrence that are still to be passed over. *)
Fixpoint replace_from (old new : text) (skip : nat) (s : text) : text :=
  match s with
  | [] => []
  | c :: s' =>
      match skip with
      | S k => replace_from old new k s'
      | O =>
          if starts_with old s
          then new ++ replace_from old new (length old - 1) s'
          else c :: replace_from old new 0 s'
      end
  end.

(** With an empty [old], Python puts [new] before every character and at
    the end. *)
Definition replace (old new s : text) : text :=
  match old with
  | [] => new ++ flat_map (λ c, c :: new) s
  | _ :: _ => replace_from old new 0 s
  end.

(** [re.sub('^' + pat, repl, s, flags=re.MULTILINE)] for a literal,
    non-empty [pat] and a [repl] without escapes.  [bol] tells whether the
    current position is at the beginning of a line: the start of the text
    or just after an LF. *)
Fixpoint re_sub_from (pat repl : text) (skip : nat) (bol : bool) (s : text)
  : text :=
  match s with
  | [] => []
  | c :: s' =>
      match skip with
      | S k => re_sub_from pat repl k (is_lf c) s'
      | O =>
          if bol && starts_with pat s
          then repl ++ re_sub_from pat repl (length pat - 1) (is_lf c) s'
          else c :: re_sub_from pat repl 0 (is_lf c) s'
      end
  end.

Definition re_sub_multiline (pat repl s : text) : text :=
  re_sub_from pat repl 0 true s.

(** [sep.join(parts)] *)
Fixpoint join (sep : text) (parts : list text) : text :=
  match parts with
  | [] => []
  | [l] => l
  | l :: ls => l ++ sep ++ join sep ls
  end.

(** [s.split('\n')] *)
Fixpoint split_lf (s : text) : list text :=
  match s with
  | [] => [[]]
  | c :: s' =>
      if is_lf c then [] :: split_lf s'
      else match split_lf s' with
           | l :: ls => (c :: l) :: ls
           | [] => [[c]]
           end
  end.

End Text.

(** ** The file system and the effects of a script *)

Module FS.
Import Text.

Abbreviation path := (list string).
Abbreviation bytes := (list ascii).

(** A node is a regular file or a directory; a directory maps names to
    nodes.  The whole file system is the node of its origin. *)
#[warnings="-register-all"]
Inductive node :=
| File (data : bytes)
| Dir (entries : gmap string node).

Inductive errno := ENOENT | EEXIST | ENOTDIR | EISDIR.

(** The exceptions the scripts can end with.  [OSError] covers
    [FileNotFoundError], [FileExistsError], [NotADirectoryError] and
    [IsADirectoryError], told apart by their [errno]. *)
Inductive exn :=
| EnvironmentError (msg : string)
| OSError (e : errno) (p : path)
| ValueError (msg : string)
| CalledProcessError (cmd : list string)
| UnboundLocalError (var : string)
| KeyError (key : string).

(** *** Paths *)

Fixpoint components (s : text) : list text :=
  match s with
  | [] => [[]]
  | c :: s' =>
      if Ascii.eqb c "/" then [] :: components s'
      else match components s' with
           | l :: ls => (c :: l) :: ls
           | [] => [[c]]
           end
  end.

Definition parts (s : string) : list string :=
  filter (λ x, x ≠ "") (map string_of_list_ascii (components (txt s))).

(** Leading [..] components climb from [p]; the scripts have no other. *)
Fixpoint resolve (p : path) (cs : list string) : path :=
  match cs with
  | c :: cs' => if String.eqb c ".." then resolve (removelast p) cs' else p ++ cs
  | [] => p
  end.

(** [p / 'a/b/c'] *)
Definition joinpath (p : path) (s : string) : path := resolve p (parts s).

Definition basename (p : path) : string := List.last p "".

(** [str(p)] *)
Definition path_str (p : path) : string := String.concat "/" p.

(** [p.relative_to(base)] *)
Definition relative_to (p base : path) : option path :=
  if decide (take (length base) p = base) then Some (drop (length base) p)
  else None.

Fixpoint rfind_dot (s : text) : option nat :=
  match s with
  | [] => None
  | c :: s' =>
      match rfind_dot s' with
      | Some i => Some (S i)
      | None => if Ascii.eqb c "." then Some 0 else None
      end
  end.

(** The split of a file name into stem and suffix ([PurePath.suffix]): the
    suffix starts at the last dot, unless that dot is the first or the last
    character. *)
Definition split_suffix (name : text) : text * text :=
  match rfind_dot name with
  | Some i =>
      if ((0 <? i) && (i <? length name - 1))%nat
      then (take i name, drop i name)
      else (name, [])
  | None => (name, [])
  end.

Definition suffix (p : path) : string :=
  string_of_list_ascii (snd (split_suffix (txt (basename p)))).

(** [p.with_suffix(sfx)]; an empty name is a [ValueError]. *)
Definition with_suffix (p : path) (sfx : string) : option path :=
  match basename p with
  | "" => None
  | name =>
      Some (removelast p ++
            [string_of_list_ascii (fst (split_suffix (txt name)) ++ txt sfx)])
  end.

(** [fnmatch] for patterns made of literal characters and [*]. *)
Fixpoint fnmatch_text (pat name : text) : bool :=
  match pat with
  | [] => match name with [] => true | _ :: _ => false end
  | c :: pat' =>
      if Ascii.eqb c "*" then
        (fix star (name : text) : bool :=
           fnmatch_text pat' name ||
           match name with
           | [] => false
           | _ :: name' => star name'
           end) name
      else match name with
           | c' :: name' => Ascii.eqb c c' && fnmatch_text pat' name'
           | [] => false
           end
  end.

Definition fnmatch (pat name : string) : bool :=
  fnmatch_text (txt pat) (txt name).

(** *** Looking up and changing nodes *)

Fixpoint node_at (p : path) (n : node) : option node :=
  match p with
  | [] => Some n
  | x :: p' =>
      match n with
      | Dir m => match m !! x with Some c => node_at p' c | None => None end
      | File _ => None
      end
  end.

Definition is_dir (n : node) (p : path) : bool :=
  match node_at p n with Some (Dir _) => true | _ => false end.

Definition is_file (n : node) (p : path) : bool :=
  match node_at p n with Some (File _) => true | _ => false end.

(** [update_at p f n] replaces what is at [p] (a node or nothing) by what
    [f] makes of it.  All proper ancestors of [p] must be directories. *)
Fixpoint update_at (p : path) (f : option node → errno + option node)
    (n : node) {struct p} : errno + node :=
  match p with
  | [] =>
      match f (Some n) with
      | inr (Some n') => inr n'
      | inr None => inl EISDIR
      | inl e => inl e
      end
  | x :: p' =>
      match n with
      | File _ => inl ENOTDIR
      | Dir m =>
          match p' with
          | [] =>
              match f (m !! x) with
              | inr r => inr (Dir (partial_alter (λ _, r) x m))
              | inl e => inl e
              end
          | _ :: _ =>
              match m !! x with
              | Some c =>
                  match update_at p' f c with
                  | inr c' => inr (Dir (<[x:=c']> m))
                  | inl e => inl e
                  end
              | None => inl ENOENT
              end
          end
      end
  end.

(** [os.makedirs(p, exist_ok=True)], also [Path.mkdir(parents=True,
    exist_ok=True)]. *)
Fixpoint makedirs (p : path) (n : node) {struct p} : errno + node :=
  match n with
  | File _ => inl (match p with [] => EEXIST | _ :: _ => ENOTDIR end)
  | Dir m =>
      match p with
      | [] => inr n
      | x :: p' =>
          match makedirs p' (default (Dir ∅) (m !! x)) with
          | inr c => inr (Dir (<[x:=c]> m))
          | inl e => inl e
          end
      end
  end.

Definition fs_result : Type := (errno * path) + node.

Definition at_path (p : path) (r : errno + node) : fs_result :=
  match r with inr n => inr n | inl e => inl (e, p) end.

(** [open(p, 'wb')], the writes and the close. *)
Definition write_bytes (p : path) (d : bytes) (n : node) : fs_result :=
  at_path p
    (update_at p (λ o, match o with
                       | Some (Dir _) => inl EISDIR
                       | _ => inr (Some (File d))
                       end) n).

Definition read_bytes (p : path) (n : node) : (errno * path) + bytes :=
  match node_at p n with
  | Some (File d) => inr d
  | Some (Dir _) => inl (EISDIR, p)
  | None => inl (ENOENT, p)
  end.

(** [p.unlink()] *)
Definition unlink (p : path) (n : node) : fs_result :=
  at_path p
    (update_at p (λ o, match o with
                       | Some (File _) => inr None
                       | Some (Dir _) => inl EISDIR
                       | None => inl ENOENT
                       end) n).

(** [shutil.rmtree(p)] *)
Definition rmtree (p : path) (n : node) : fs_result :=
  at_path p
    (update_at p (λ o, match o with
                       | Some (Dir _) => inr None
                       | Some (File _) => inl ENOTDIR
                       | None => inl ENOENT
                       end) n).

(** [shutil.copy(src, dst)]: into [dst] when it is a directory. *)
Definition copy_file (src dst : path) (n : node) : fs_result :=
  match node_at src n with
  | Some (File d) =>
      write_bytes (if is_dir n dst then dst ++ [basename src] else dst) d n
  | Some (Dir _) => inl (EISDIR, src)
  | None => inl (ENOENT, src)
  end.

(** [shutil.copytree(src, dst)]: [dst] must not exist; its missing parents
    are made; the whole tree under [src] is copied. *)
Definition copytree (src dst : path) (n : node) : fs_result :=
  match node_at src n with
  | Some (Dir m) =>
      match makedirs (removelast dst) n with
      | inr n1 =>
          at_path dst
            (update_at dst (λ o, match o with
                                 | None => inr (Some (Dir m))
                                 | Some _ => inl EEXIST
                                 end) n1)
      | inl e => inl (e, dst)
      end
  | Some (File _) => inl (ENOTDIR, src)
  | None => inl (ENOENT, src)
  end.

(** [d.glob(pat)] for a pattern without a slash: the matching entries of
    the directory [d], none when [d] is not a directory.  The order is the
    directory's own. *)
Definition glob (d : path) (pat : string) (n : node) : list path :=
  match node_at d n with
  | Some (Dir m) =>
      map (λ x, d ++ [x]) (filter (λ x, fnmatch pat x = true) (map fst (map_to_list m)))
  | _ => []
  end.

(** *** The world and the monad of a script *)

(** What a run can observe and change: the files, what has been printed,
    and the command lines of the processes spawned so far. *)
Record world := World {
  files : node;
  stdout : list string;
  spawned : list (list string)
}.

(** What a run depends on and cannot change: the directory of the script,
    the answer of [platform.system()], and what the external programs do to
    the files ([None]: the program is missing or exits with an error). *)
Record host := Host {
  root : path;
  platform_system : string;
  exec : list string → node → option node
}.

Definition M (A : Type) : Type := world → (exn + A) * world.

Definition ret {A} (a : A) : M A := λ w, (inr a, w).

Definition bind {A B} (c : M A) (k : A → M B) : M B :=
  λ w, match c w with
       | (inr a, w') => k a w'
       | (inl e, w') => (inl e, w')
       end.

Definition raise {A} (e : exn) : M A := λ w, (inl e, w).

Declare Scope script_scope.
Delimit Scope script_scope with script.
Bind Scope script_scope with M.
Notation "x <- c1 ;; c2" := (bind c1 (λ x, c2))
  (at level 20, c1 at level 99, c2 at level 200) : script_scope.
Notation "c1 ;; c2" := (bind c1 (λ _, c2))
  (at level 100, c2 at level 200, right associativity) : script_scope.
#[local] Open Scope script_scope.

Definition test (f : node → bool) : M bool := λ w, (inr (f (files w)), w).

Definition query {A} (f : node → A) : M A := λ w, (inr (f (files w)), w).

Definition set_files (n : node) (w : world) : world :=
  World n (stdout w) (spawned w).

(** A file-system call: the new tree, or an [OSError]. *)
Definition fs_call (f : node → fs_result) : M unit :=
  λ w, match f (files w) with
       | inr n => (inr (), set_files n w)
       | inl (e, p) => (inl (OSError e p), w)
       end.

Definition from_option {A} (e : exn) (o : option A) : M A :=
  match o with Some a => ret a | None => raise e end.

Definition print (s : string) : M unit :=
  λ w, (inr (), World (files w) (stdout w ++ [s]) (spawned w)).

(** [p.read_text()]: the bytes, decoded, newlines translated. *)
Definition read_text (p : path) : M text :=
  λ w, match read_bytes p (files w) with
       | inr d => (inr (universal_newlines d), w)
       | inl (e, q) => (inl (OSError e q), w)
       end.

(** [with p.open('w', newline='') as file: file.write(t)]: the characters
    are written as they are. *)
Definition write_text_raw (p : path) (t : text) : M unit :=
  fs_call (write_bytes p t).

(** [subprocess.check_output(args)] *)
Definition check_output (h : host) (args : list string) : M unit :=
  λ w, let w' := World (files w) (stdout w) (spawned w ++ [args]) in
       match exec h args (files w) with
       | Some n => (inr (), set_files n w')
       | None => (inl (CalledProcessError args), w')
       end.

(** [for x in xs: body(x)] *)
Fixpoint for_each {A} (xs : list A) (body : A → M unit) : M unit :=
  match xs with
  | [] => ret ()
  | x :: xs' => body x ;; for_each xs' body
  end.

(** *** The command line *)

(** What a name is bound to in the namespace of a script: a function that
    is called without arguments, or something else (an imported module, a
    path, a string, a function that needs an argument), whose call without
    arguments is a [TypeError]. *)
Inductive global :=
| Function (f : M unit)
| NotCallable.

(** How a script ends when an exception leaves it: with the exception of
    one of its functions or of the lookup, or with the [TypeError] of
    calling what [key] names. *)
Inductive fault :=
| Raised (e : exn)
| TypeError (key : string).

(** [table[key]()]: a missing key is a [KeyError]. *)
Definition call_global (table : list (string * global)) (key : string)
  : world → (fault + unit) * world :=
  λ w, match List.find (λ e, String.eqb (fst e) key) table with
       | Some (_, Function f) =>
           match f w with
           | (inr _, w') => (inr (), w')
           | (inl e, w') => (inl (Raised e), w')
           end
       | Some (_, NotCallable) => (inl (TypeError key), w)
       | None => (inl (Raised (KeyError key)), w)
       end.

(** [for arg in argv: call(arg)] at the top of a script: the first
    exception ends the run. *)
Fixpoint for_args (argv : list string)
    (call : string → world → (fault + unit) * world) (w : world)
  : (fault + unit) * world :=
  match argv with
  | [] => (inr (), w)
  | arg :: rest =>
      match call arg w with
      | (inr _, w') => for_args rest call w'
      | (inl e, w') => (inl e, w')
      end
  end.

End FS.

(** ** [rise-reveal/script.py] *)

Module RiseReveal.
Import Text FS.
#[local] Open Scope script_scope.
#[local] Infix "</>" := joinpath (at level 40, left associativity).

(** The double quote of the error message. *)
Definition dq : string := String (ascii_of_nat 34) "".

(** The loop of [patch_reveal_css], [i] being the number of the first line
    of [lines]: what it writes to the file, one [write] after the other. *)
Fixpoint write_commented (i : nat) (lines : list text) : text :=
  match lines with
  | [] => []
  | line :: rest =>
      (if Nat.eqb i 11 then txt "/*" else []) ++ line ++ write_commented (S i) rest
  end.

Definition comment_out (t : text) : text :=
  write_commented 1 (splitlines t).

(** The three replacements of [patch_notes] on [notes.js]. *)
Definition loosen (t : text) : text :=
  let t := replace (txt "src$=") (txt "src*=") t in
  let t := replace (txt "keyCode: 83") (txt "keyCode: 84") t in
  let t := replace (txt "key: 'S'") (txt "key: 'T'") t in
  t.

Definition injected_css : text :=
  txt "#speaker-controls>.speaker-controls-notes .inner_cell>.ctb_hideshow, " ++ [LF] ++
  txt "#speaker-controls>.speaker-controls-notes .inner_cell>.input_area { " ++ [LF] ++
  txt "    display: none; " ++ [LF] ++
  txt "}" ++ [LF] ++
  [LF].

(** The loop of [patch_notes] on [notes.html]. *)
Fixpoint write_injected (lines : list text) : text :=
  match lines with
  | [] => []
  | line :: rest =>
      (if contains (txt "Layout selector") line then injected_css else [])
      ++ line ++ write_injected rest
  end.

Definition inject (t : text) : text := write_injected (splitlines t).

Definition replacement_text : text :=
  join [LF] [
    txt "body.notebook_app.rise-enabled {";
    txt "    /* PATCHED by patch-reveal-themes.sh */";
    txt "    background-attachment: fixed !important;"
  ].

Definition patch_theme (t : text) : text :=
  re_sub_multiline (txt "body {") replacement_text t.

Section Script.
Variable h : host.

(** The names that the interpreter itself binds in the namespace of a
    script. *)
Variable interpreter_names : list string.

Definition require_npm_install (function_name : string) (function : M unit)
  : M unit :=
  let name :=
    string_of_list_ascii (replace (txt "_") (txt "-") (txt function_name)) in
  present <- test (λ n, is_dir n (root h </> "node_modules")) ;;
  if negb present then
    raise (EnvironmentError
             ("You must run " +:+ dq +:+ "npm install" +:+ dq +:+
              " before running " +:+ dq +:+ "npm run " +:+ name +:+ dq))
  else function.

Definition copy : M unit :=
  require_npm_install "copy" (
    present <- test (λ n, is_dir n (root h </> "export")) ;;
    (if present then fs_call (rmtree (root h </> "export")) else ret ()) ;;
    fs_call (λ n, at_path (root h </> "export")
                    (makedirs (root h </> "export") n)) ;;
    fs_call (copytree (root h </> "node_modules/reveal.js/")
                      (root h </> "export/reveal.js/")) ;;
    fs_call (copytree (root h </> "node_modules/reveal.js-plugins/chalkboard/")
                      (root h </> "export/reveal.js-chalkboard/"))).

Definition patch_reveal_css : M unit :=
  require_npm_install "patch_reveal_css" (
    let target_css := root h </> "export/reveal.js/css/reveal.css" in
    rel <- from_option (ValueError "relative_to")
             (relative_to target_css (root h)) ;;
    print ("patching " +:+ path_str rel +:+ " for RISE") ;;
    let upstream_css := root h </> "export/reveal.js/css/reveal.css.upstream" in
    saved <- test (λ n, is_file n upstream_css) ;;
    (if negb saved then fs_call (copy_file target_css upstream_css)
     else ret ()) ;;
    text <- read_text upstream_css ;;
    write_text_raw target_css (write_commented 1 (splitlines text))).

Definition patch_notes : M unit :=
  require_npm_install "patch_notes" (
    let target_js := root h </> "export/reveal.js/plugin/notes/notes.js" in
    rel <- from_option (ValueError "relative_to")
             (relative_to target_js (root h)) ;;
    print ("patching " +:+ path_str rel +:+ " for RISE") ;;
    let upstream_js :=
      root h </> "export/reveal.js/plugin/notes/notes.js.patched" in
    saved <- test (λ n, is_file n upstream_js) ;;
    (if negb saved then fs_call (copy_file target_js upstream_js)
     else ret ()) ;;
    text <- read_text upstream_js ;;
    let text := replace (txt "src$=") (txt "src*=") text in
    let text := replace (txt "keyCode: 83") (txt "keyCode: 84") text in
    let text := replace (txt "key: 'S'") (txt "key: 'T'") text in
    write_text_raw target_js text ;;
    let target_html := root h </> "export/reveal.js/plugin/notes/notes.html" in
    rel <- from_option (ValueError "relative_to")
             (relative_to target_html (root h)) ;;
    print ("patching " +:+ path_str rel +:+ " for RISE") ;;
    let upstream_html :=
      root h </> "export/reveal.js/plugin/notes/notes.html.patched" in
    saved <- test (λ n, is_file n upstream_html) ;;
    (if negb saved then fs_call (copy_file target_html upstream_html)
     else ret ()) ;;
    text <- read_text upstream_html ;;
    write_text_raw target_html (write_injected (splitlines text))).

Definition patch_reveal_themes : M unit :=
  require_npm_install "patch_reveal_themes" (
    targets <- query (glob (root h </> "export/reveal.js/css/theme/") "*.css") ;;
    for_each targets (λ target_css,
      rel <- from_option (ValueError "relative_to")
               (relative_to target_css (root h)) ;;
      print ("patching theme " +:+ path_str rel +:+ " for RISE") ;;
      upstream_css <- from_option (ValueError "with_suffix")
                        (with_suffix target_css
                           (suffix target_css +:+ ".patched")) ;;
      saved <- test (λ n, is_file n upstream_css) ;;
      (if negb saved then fs_call (copy_file target_css upstream_css)
       else ret ()) ;;
      text <- read_text upstream_css ;;
      write_text_raw target_css
        (re_sub_multiline (txt "body {") replacement_text text))).

Definition patch_chalkboard : M unit :=
  require_npm_install "patch_chalkboard" (
    let target_js := root h </> "export/reveal.js-chalkboard/chalkboard.js" in
    rel <- from_option (ValueError "relative_to")
             (relative_to target_js (root h)) ;;
    print ("patching file " +:+ path_str rel +:+ " for RISE") ;;
    let upstream_js :=
      root h </> "export/reveal.js-chalkboard/chalkboard.js.patched" in
    saved <- test (λ n, is_file n upstream_js) ;;
    (if negb saved then fs_call (copy_file target_js upstream_js)
     else ret ()) ;;
    let patch_file := root h </> "chalkboard.js.patch" in
    check_output h [
      "git"; "apply"; "--unsafe-paths";
      "--directory=export/reveal.js-chalkboard/";
      path_str patch_file
    ]).

Definition patch : M unit :=
  require_npm_install "patch" (
    patch_reveal_css ;;
    patch_notes ;;
    patch_reveal_themes ;;
    patch_chalkboard).

Definition build : M unit :=
  require_npm_install "build" (copy ;; patch).

Definition clean : M unit :=
  present <- test (λ n, is_dir n (root h </> "node_modules")) ;;
  (if present then fs_call (rmtree (root h </> "node_modules")) else ret ()) ;;
  present <- test (λ n, is_dir n (root h </> "export")) ;;
  (if present then fs_call (rmtree (root h </> "export")) else ret ()).

(** [globals()] when the script looks a command up: the loop variable
    [arg], what the module has bound, and the names that the interpreter
    binds in every script ([__name__], [__file__] and the like, none of
    them a function).  A later binding of a name replaces an earlier one,
    so the later ones come first. *)
Definition globals : list (string * global) :=
  [ ("arg", NotCallable);
    ("clean", Function clean);
    ("patch", Function patch);
    ("build", Function build);
    ("patch_chalkboard", Function patch_chalkboard);
    ("patch_reveal_themes", Function patch_reveal_themes);
    ("patch_notes", Function patch_notes);
    ("patch_reveal_css", Function patch_reveal_css);
    ("copy", Function copy);
    ("require_npm_install", NotCallable);
    ("root", NotCallable);
    ("sys", NotCallable);
    ("subprocess", NotCallable);
    ("shutil", NotCallable);
    ("re", NotCallable);
    ("pathlib", NotCallable);
    ("functools", NotCallable) ]
  ++ map (λ name, (name, NotCallable)) interpreter_names.

(** [for arg in sys.argv[1:]: globals()[arg.replace('-', '_')]()] *)
Definition main (argv : list string) : world → (fault + unit) * world :=
  for_args argv (λ arg,
    call_global globals
      (string_of_list_ascii (replace (txt "-") (txt "_") (txt arg)))).

End Script.
End RiseReveal.

(** ** [classic/script.py] *)

Module Classic.
Import Text FS.
#[local] Open Scope script_scope.
#[local] Infix "</>" := joinpath (at level 40, left associativity).

Definition dq : string := String (ascii_of_nat 34) "".

(** Reading a local variable: an [UnboundLocalError] when nothing has been
    assigned to it yet. *)
Definition read_local {A} (var : string) (v : option A) : M A :=
  from_option (UnboundLocalError var) v.

Section Script.
Variable h : host.

(** The names that the interpreter itself binds in the namespace of a
    script. *)
Variable interpreter_names : list string.

Definition require_npm_install (function_name : string) (function : M unit)
  : M unit :=
  let name :=
    string_of_list_ascii (replace (txt "_") (txt "-") (txt function_name)) in
  present <- test (λ n, is_dir n (root h </> "node_modules")) ;;
  if negb present then
    raise (EnvironmentError
             ("You must run " +:+ dq +:+ "npm install" +:+ dq +:+
              " before running " +:+ dq +:+ "npm run " +:+ name +:+ dq))
  else function.

Definition clean : M unit :=
  present <- test (λ n, is_dir n (root h </> "node_modules")) ;;
  (if present then fs_call (rmtree (root h </> "node_modules")) else ret ()) ;;
  present <- test (λ n, is_file n (root h </> "rise/static/main.css")) ;;
  (if present then fs_call (unlink (root h </> "rise/static/main.css"))
   else ret ()) ;;
  paths <- query (glob (root h </> "rise/static/") "reveal.js*") ;;
  for_each paths (λ path, fs_call (rmtree path)).

Definition less : M unit :=
  require_npm_install "less" (
    let lessc := root h </> "node_modules/.bin/lessc" in
    lessc <- (if String.eqb (platform_system h) "Windows"
              then from_option (ValueError "with_suffix")
                     (with_suffix lessc ".cmd")
              else ret lessc) ;;
    check_output h [
      path_str lessc;
      "--autoprefix";
      path_str (root h </> "src/less/main.less");
      path_str (root h </> "rise/static/main.css")
    ]).

(** [watch_less] has two local names, [watch] and [lessc]; [lessc] is
    local because the function assigns to it, and nothing is assigned to
    it before the Windows branch reads it. *)
Definition watch_less : M unit :=
  require_npm_install "watch_less" (
    let watch : option path := Some (root h </> "node_modules/.bin/watch") in
    let lessc : option path := None in
    lessc <- (if String.eqb (platform_system h) "Windows"
              then (v <- read_local "lessc" lessc ;;
                    v' <- from_option (ValueError "with_suffix")
                            (with_suffix v ".cmd") ;;
                    ret (Some v'))
              else ret lessc) ;;
    watch <- read_local "watch" watch ;;
    check_output h [
      path_str watch;
      "npm run less";
      path_str (root h </> "src/less")
    ]).

Definition install_rise_reveal : M unit :=
  require_npm_install "install_rise_reveal" (
    srcs <- query (glob (root h </> "../rise-reveal/export/") "reveal.js*") ;;
    for_each srcs (λ src,
      fs_call (copytree src (root h </> "rise/static/" ++ [basename src])))).

Definition globals : list (string * global) :=
  [ ("arg", NotCallable);
    ("install_rise_reveal", Function install_rise_reveal);
    ("watch_less", Function watch_less);
    ("less", Function less);
    ("clean", Function clean);
    ("require_npm_install", NotCallable);
    ("root", NotCallable);
    ("sys", NotCallable);
    ("subprocess", NotCallable);
    ("shutil", NotCallable);
    ("platform", NotCallable);
    ("pathlib", NotCallable);
    ("functools", NotCallable) ]
  ++ map (λ name, (name, NotCallable)) interpreter_names.

Definition main (argv : list string) : world → (fault + unit) * world :=
  for_args argv (λ arg,
    call_global globals
      (string_of_list_ascii (replace (txt "-") (txt "_") (txt arg)))).

End Script.
End Classic.

(** * Theorems *)

(** ** Lines *)

Module Lines.
Import Text RiseReveal.

(** What the loop of [patch_reveal_css] writes, line by line. *)
Fixpoint commented (i : nat) (lines : list text) : list text :=
  match lines with
  | [] => []
  | line :: rest =>
      ((if Nat.eqb i 11 then txt "/*" else []) ++ line) :: commented (S i) rest
  end.

Lemma is_cr_linebreak c : is_cr c = true → linebreak c = true.
Proof.
  unfold is_cr. intros H%Ascii.eqb_eq. by subst.
Qed.

Lemma not_linebreak_not_cr c : linebreak c = false → is_cr c = false.
Proof.
  intros H. destruct (is_cr c) eqn:E; [|done].
  apply is_cr_linebreak in E. congruence.
Qed.

Lemma splitlines_step_plain c s :
  linebreak c = false →
  splitlines (c :: s) =
    match splitlines s with [] => [[c]] | l :: ls => (c :: l) :: ls end.
Proof.
  intros H. cbn [splitlines]. by rewrite (not_linebreak_not_cr c H), H.
Qed.

Lemma splitlines_step_break c s :
  is_cr c = false → linebreak c = true →
  splitlines (c :: s) = [c] :: splitlines s.
Proof. intros H1 H2. cbn [splitlines]. by rewrite H1, H2. Qed.

Lemma splitlines_step_crlf c c' s :
  is_cr c = true → is_lf c' = true →
  splitlines (c :: c' :: s) = [c; c'] :: splitlines s.
Proof. intros H1 H2. cbn [splitlines]. by rewrite H1, H2. Qed.

Lemma splitlines_step_cr c c' s :
  is_cr c = true → is_lf c' = false →
  splitlines (c :: c' :: s) = [c] :: splitlines (c' :: s).
Proof. intros H1 H2. cbn [splitlines]. by rewrite H1, H2. Qed.

Lemma splitlines_step_cr_end c :
  is_cr c = true → splitlines [c] = [[c]].
Proof. intros H1. cbn [splitlines]. by rewrite H1. Qed.

(** A case analysis that follows the equations of [splitlines]. *)
Lemma splitlines_cases c s :
  (is_cr c = true ∧ s = [] ∧ splitlines (c :: s) = [[c]]) ∨
  (is_cr c = true ∧ ∃ c' s', s = c' :: s' ∧ is_lf c' = true ∧
     splitlines (c :: s) = [c; c'] :: splitlines s') ∨
  (is_cr c = true ∧ ∃ c' s', s = c' :: s' ∧ is_lf c' = false ∧
     splitlines (c :: s) = [c] :: splitlines s) ∨
  (is_cr c = false ∧ linebreak c = true ∧
     splitlines (c :: s) = [c] :: splitlines s) ∨
  (linebreak c = false ∧
     splitlines (c :: s) =
       match splitlines s with [] => [[c]] | l :: ls => (c :: l) :: ls end).
Proof.
  destruct (is_cr c) eqn:Hcr.
  - destruct s as [|c' s'].
    + left. eauto using splitlines_step_cr_end.
    + destruct (is_lf c') eqn:Hlf.
      * right; left. split; [done|]. exists c', s'.
        eauto using splitlines_step_crlf.
      * right; right; left. split; [done|]. exists c', s'.
        eauto using splitlines_step_cr.
  - destruct (linebreak c) eqn:Hbr.
    + right; right; right; left. eauto using splitlines_step_break.
    + right; right; right; right. eauto using splitlines_step_plain.
Qed.

(** The lines of a text, put together, are the text. *)
Lemma splitlines_concat_le n : ∀ t, length t ≤ n → concat (splitlines t) = t.
Proof.
  induction n as [|n IH]; intros [|c s] Hn; simpl in Hn; try done; try lia.
  destruct (splitlines_cases c s)
    as [(_ & -> & ->)|[(_ & c' & s' & -> & _ & ->)|[(_ & c' & s' & -> & _ & ->)
       |[(_ & _ & ->)|(_ & ->)]]]]; cbn [concat app].
  - done.
  - simpl in Hn. rewrite IH by lia. done.
  - rewrite IH by lia. done.
  - rewrite IH by lia. done.
  - specialize (IH s ltac:(lia)).
    destruct (splitlines s) as [|l ls]; simpl in *; by subst.
Qed.

Lemma splitlines_concat t : concat (splitlines t) = t.
Proof. by apply (splitlines_concat_le (length t)). Qed.

Lemma splitlines_head c s : ∃ l ls, splitlines (c :: s) = (c :: l) :: ls.
Proof.
  destruct (splitlines_cases c s)
    as [(_ & -> & ->)|[(_ & c' & s' & -> & _ & ->)|[(_ & c' & s' & -> & _ & ->)
       |[(_ & _ & ->)|(_ & ->)]]]]; eauto.
  destruct (splitlines s); eauto.
Qed.

(** Characters that end no line, put before a text, join its first line. *)
Lemma splitlines_prefix pre t :
  Forall (λ c, linebreak c = false) pre →
  splitlines (pre ++ t) =
    match splitlines t with
    | [] => match pre with [] => [] | _ :: _ => [pre] end
    | l :: ls => (pre ++ l) :: ls
    end.
Proof.
  induction 1 as [|c pre Hc Hpre IH]; simpl app.
  - by destruct (splitlines t).
  - rewrite splitlines_step_plain, IH by done.
    destruct (splitlines t); [by destruct pre|done].
Qed.

Lemma commented_after i lines : 11 < i → commented i lines = lines.
Proof.
  revert i. induction lines as [|l ls IH]; intros i Hi; simpl; [done|].
  rewrite IH by lia. destruct (Nat.eqb_spec i 11); [lia|done].
Qed.

Lemma write_commented_concat i lines :
  write_commented i lines = concat (commented i lines).
Proof.
  revert i. induction lines as [|l ls IH]; intros i; simpl; [done|].
  by rewrite IH, (assoc_L (++)).
Qed.

Lemma commented_head i c s :
  ∃ w W, concat (commented i (splitlines (c :: s))) = w :: W ∧
         (w = c ∨ w = "/"%char).
Proof.
  destruct (splitlines_head c s) as (l & ls & ->). simpl.
  destruct (Nat.eqb i 11); simpl; eauto.
Qed.

Lemma comment_token_plain : Forall (λ c, linebreak c = false) (txt "/*").
Proof. repeat constructor. Qed.

(** Splitting what the loop wrote gives back the lines it wrote. *)
Lemma splitlines_commented_le n : ∀ t i,
  length t ≤ n →
  splitlines (concat (commented i (splitlines t))) = commented i (splitlines t).
Proof.
  induction n as [|n IH]; intros [|c s] i Hn; simpl in Hn; try done; try lia.
  destruct (Nat.eqb_spec i 11) as [->|Hi].
  { pose proof (splitlines_concat (c :: s)) as Hcat.
    destruct (splitlines_head c s) as (l' & ls' & Hs). rewrite Hs in *.
    cbn [commented Nat.eqb concat] in *. rewrite commented_after by lia.
    rewrite <- (assoc_L (++)), Hcat.
    rewrite splitlines_prefix by apply comment_token_plain.
    by rewrite Hs. }
  assert (Hpre : ∀ ls l, commented i (l :: ls) = l :: commented (S i) ls).
  { intros ls l. simpl. destruct (Nat.eqb_spec i 11); [lia|done]. }
  destruct (splitlines_cases c s)
    as [(Hcr & -> & ->)|[(Hcr & c' & s' & -> & Hlf & ->)
       |[(Hcr & c' & s' & -> & Hlf & ->)|[(Hcr & Hbr & ->)|(Hbr & ->)]]]].
  - rewrite Hpre. simpl. by rewrite Hcr.
  - rewrite Hpre. cbn [concat app].
    rewrite splitlines_step_crlf by done. simpl in Hn.
    by rewrite IH by lia.
  - rewrite Hpre. cbn [concat app].
    destruct (commented_head (S i) c' s') as (w & W & HW & Hw).
    rewrite HW. rewrite splitlines_step_cr; [|done|].
    + rewrite <- HW. by rewrite IH by (simpl in *; lia).
    + destruct Hw as [->| ->]; done.
  - rewrite Hpre. cbn [concat app].
    rewrite splitlines_step_break by done. by rewrite IH by lia.
  - specialize (IH s i ltac:(lia)).
    destruct (splitlines s) as [|l ls].
    + rewrite Hpre. simpl. by rewrite (not_linebreak_not_cr c Hbr), Hbr.
    + rewrite !Hpre in *. cbn [concat app] in *.
      rewrite splitlines_step_plain by done. by rewrite IH.
Qed.

Lemma splitlines_comment_out t :
  splitlines (comment_out t) = commented 1 (splitlines t).
Proof.
  unfold comment_out. rewrite write_commented_concat.
  by apply (splitlines_commented_le (length t)).
Qed.

Lemma commented_length i lines : length (commented i lines) = length lines.
Proof.
  revert i. induction lines as [|l ls IH]; intros i; simpl; [done|].
  by rewrite IH.
Qed.

Lemma commented_lookup i lines k :
  commented i lines !! k =
    (λ l, (if Nat.eqb (i + k) 11 then txt "/*" else []) ++ l) <$> lines !! k.
Proof.
  revert i k. induction lines as [|l ls IH]; intros i [|k]; simpl; try done.
  - by rewrite Nat.add_0_r.
  - rewrite IH. by replace (S i + k) with (i + S k) by lia.
Qed.

(** C6.  The comment-out transformation of [patch_reveal_css] keeps the
    number of lines; when the text has an eleventh line, the eleventh line
    of the output is the token [/*] followed by that line; every other
    line of the output is the corresponding line of the input.  Lines are
    the lines of [str.splitlines], with their line ends, as in the code. *)
Theorem comment_out_line_11 (t : text) :
  length (splitlines (comment_out t)) = length (splitlines t) ∧
  (∀ l, splitlines t !! 10 = Some l →
        splitlines (comment_out t) !! 10 = Some (txt "/*" ++ l)) ∧
  (∀ k, k ≠ 10 → splitlines (comment_out t) !! k = splitlines t !! k).
Proof.
  rewrite splitlines_comment_out. split; [apply commented_length|]. split.
  - intros l Hl. by rewrite commented_lookup, Hl.
  - intros k Hk. rewrite commented_lookup.
    destruct (Nat.eqb_spec (1 + k) 11); [lia|].
    by destruct (splitlines t !! k).
Qed.

(** The same fact on the bytes: nothing but the token is added. *)
Lemma comment_out_bytes (t : text) :
  comment_out t =
    concat (take 10 (splitlines t)) ++
    match drop 10 (splitlines t) with
    | [] => []
    | l :: ls => txt "/*" ++ l ++ concat ls
    end.
Proof.
  unfold comment_out. generalize (splitlines t). intros lines.
  assert (H : ∀ k i ls, i + k = 11 →
    write_commented i ls = concat (take k ls) ++
      match drop k ls with [] => [] | l :: ls' => txt "/*" ++ l ++ concat ls' end).
  { induction k as [|k IH]; intros i ls Hi.
    - rewrite Nat.add_0_r in Hi. subst i. destruct ls as [|l ls]; [done|].
      cbn [write_commented Nat.eqb take drop concat app].
      rewrite write_commented_concat, commented_after by lia. done.
    - destruct ls as [|l ls]; [done|].
      cbn [write_commented take drop concat].
      destruct (Nat.eqb_spec i 11); [lia|].
      rewrite (IH (S i)) by lia. by rewrite <- (assoc_L (++)). }
  by apply H.
Qed.

End Lines.

(** ** The anchored replacement of [patch_reveal_themes] *)

Module Anchored.
Import Text RiseReveal.

(** A line whose beginning is [pat] gets [repl] in its place. *)
Definition patch_line (pat repl l : text) : text :=
  if starts_with pat l then repl ++ drop (length pat) l else l.

Definition count_lf (t : text) : nat := length (filter (λ c, is_lf c = true) t).

Lemma starts_with_app pat r : starts_with pat (pat ++ r) = true.
Proof.
  induction pat as [|a pat IH]; simpl; [done|].
  by rewrite Ascii.eqb_refl, IH.
Qed.

Lemma starts_with_inv pat s :
  starts_with pat s = true → s = pat ++ drop (length pat) s.
Proof.
  revert s. induction pat as [|a pat IH]; intros [|c s]; simpl; try done.
  intros [Hc Hs]%andb_true_iff. apply Ascii.eqb_eq in Hc as ->.
  f_equal. by apply IH.
Qed.

Lemma starts_with_weaken pat s r :
  starts_with pat s = true → starts_with pat (s ++ r) = true.
Proof.
  intros H. rewrite (starts_with_inv _ _ H), <- (assoc_L (++)).
  apply starts_with_app.
Qed.

Lemma split_lf_cons t : ∃ l ls, split_lf t = l :: ls.
Proof.
  destruct t as [|c s]; simpl; [eauto|].
  destruct (is_lf c); [eauto|]. destruct (split_lf s); eauto.
Qed.

Lemma split_lf_prefix pre t l ls :
  Forall (λ c, is_lf c = false) pre →
  split_lf t = l :: ls → split_lf (pre ++ t) = (pre ++ l) :: ls.
Proof.
  intros Hpre Ht. induction Hpre as [|c pre Hc Hpre IH]; simpl; [done|].
  by rewrite Hc, IH.
Qed.

Lemma join_two sep l l' ls :
  join sep (l :: l' :: ls) = l ++ sep ++ join sep (l' :: ls).
Proof. done. Qed.

Lemma join_cons_app sep a l ls :
  join sep ((a ++ l) :: ls) = a ++ join sep (l :: ls).
Proof. destruct ls; simpl; [done|]. by rewrite <- (assoc_L (++)). Qed.

Lemma join_cons_char sep c l ls :
  join sep ((c :: l) :: ls) = c :: join sep (l :: ls).
Proof. by destruct ls. Qed.

Lemma join_split_lf t : join [LF] (split_lf t) = t.
Proof.
  induction t as [|c s IH]; simpl; [done|].
  destruct (is_lf c) eqn:Hc.
  - destruct (split_lf_cons s) as (l & ls & Hs). rewrite Hs in *.
    rewrite join_two, IH. apply Ascii.eqb_eq in Hc. by subst.
  - destruct (split_lf_cons s) as (l & ls & Hs). rewrite Hs in *.
    by rewrite join_cons_char, IH.
Qed.

Lemma split_lf_first t l ls : split_lf t = l :: ls → ∃ r, t = l ++ r.
Proof.
  intros H. pose proof (join_split_lf t) as Hj. rewrite H in Hj.
  destruct ls; simpl in Hj; subst t; [exists []; by rewrite app_nil_r|eauto].
Qed.

(** Passing over the rest of a match leaves the scan inside a line. *)
Lemma re_sub_skip pat repl u s :
  Forall (λ c, is_lf c = false) u →
  re_sub_from pat repl (length u) false (u ++ s) = re_sub_from pat repl 0 false s.
Proof.
  induction 1 as [|c u Hc Hu IH]; simpl; [by destruct s|].
  by rewrite Hc.
Qed.

Lemma re_sub_match_gen pat repl r :
  pat ≠ [] → Forall (λ c, is_lf c = false) pat →
  re_sub_from pat repl 0 true (pat ++ r) = repl ++ re_sub_from pat repl 0 false r.
Proof.
  intros Hne Hpat. pose proof (starts_with_app pat r) as Hm.
  destruct pat as [|a pat']; [done|]. simpl app in *.
  cbn [re_sub_from andb length]. rewrite Hm.
  replace (S (length pat') - 1) with (length pat') by lia.
  inversion Hpat as [|? ? Ha Hrest]; subst.
  by rewrite Ha, re_sub_skip.
Qed.

Section Pattern.
Variables pat repl : text.
Hypothesis pat_nonempty : pat ≠ [].
Hypothesis pat_one_line : Forall (λ c, is_lf c = false) pat.

Lemma re_sub_match r :
  re_sub_from pat repl 0 true (pat ++ r) = repl ++ re_sub_from pat repl 0 false r.
Proof. by apply re_sub_match_gen. Qed.

Lemma patch_line_nil : patch_line pat repl [] = [].
Proof. unfold patch_line. by destruct pat. Qed.

(** The scan, stated on the lines of the text. *)
Definition on_lines (bol : bool) (t : text) : text :=
  match split_lf t with
  | l :: ls =>
      join [LF] ((if bol then patch_line pat repl l else l)
                 :: map (patch_line pat repl) ls)
  | [] => []
  end.

Lemma re_sub_on_lines_le n : ∀ t bol,
  length t ≤ n → re_sub_from pat repl 0 bol t = on_lines bol t.
Proof.
  induction n as [|n IH]; intros [|c s] bol Hn; simpl in Hn; try lia.
  - unfold on_lines. simpl. rewrite patch_line_nil. by destruct bol.
  - unfold on_lines. simpl. rewrite patch_line_nil. by destruct bol.
  - destruct (bol && starts_with pat (c :: s)) eqn:Hm.
    + apply andb_true_iff in Hm as [-> Hm].
      pose proof (starts_with_inv _ _ Hm) as Hs.
      remember (drop (length pat) (c :: s)) as r eqn:Hr in Hs. clear Hr.
      assert (length r < length (c :: s)) as Hlen.
      { rewrite Hs, length_app. destruct pat; [done|simpl; lia]. }
      rewrite Hs, re_sub_match, IH by (simpl in Hlen; lia).
      unfold on_lines. destruct (split_lf_cons r) as (l & ls & Hr).
      rewrite (split_lf_prefix pat r l ls), Hr by done.
      unfold patch_line at 2. rewrite starts_with_app, drop_app_length.
      by rewrite join_cons_app.
    + cbn [re_sub_from]. rewrite Hm, IH by lia.
      unfold on_lines. cbn [split_lf].
      destruct (split_lf_cons s) as (l & ls & Hs). rewrite Hs.
      destruct (is_lf c) eqn:Hc.
      * rewrite patch_line_nil. apply Ascii.eqb_eq in Hc as ->.
        by destruct bol.
      * assert ((if bol then patch_line pat repl (c :: l) else c :: l) = c :: l)
          as ->.
        { destruct bol; [|done]. unfold patch_line.
          destruct (starts_with pat (c :: l)) eqn:Hl; [|done].
          destruct (split_lf_first _ _ _ Hs) as (r & ->).
          apply (starts_with_weaken _ _ r) in Hl. simpl in Hm, Hl.
          congruence. }
        by rewrite join_cons_char.
Qed.

Lemma re_sub_multiline_lines t :
  re_sub_multiline pat repl t =
    join [LF] (map (patch_line pat repl) (split_lf t)).
Proof.
  unfold re_sub_multiline.
  rewrite (re_sub_on_lines_le (length t)) by done. unfold on_lines.
  by destruct (split_lf_cons t) as (l & ls & ->).
Qed.
End Pattern.

(** *** Counting lines *)

Lemma count_lf_app a b : count_lf (a ++ b) = count_lf a + count_lf b.
Proof. unfold count_lf. by rewrite filter_app, length_app. Qed.

Lemma split_lf_length t : length (split_lf t) = S (count_lf t).
Proof.
  induction t as [|c s IH]; [done|]. cbn [split_lf].
  unfold count_lf in *. rewrite filter_cons.
  destruct (is_lf c) eqn:Hc.
  - rewrite decide_True by done. simpl. by rewrite IH.
  - rewrite decide_False by congruence.
    destruct (split_lf_cons s) as (l & ls & Hs). by rewrite Hs in *.
Qed.

Lemma count_lf_none t : Forall (λ c, is_lf c = false) t → count_lf t = 0.
Proof.
  unfold count_lf. induction 1 as [|c s Hc Hs IH]; [done|].
  rewrite filter_cons, decide_False by congruence. done.
Qed.

Lemma split_lf_lines t : Forall (Forall (λ c, is_lf c = false)) (split_lf t).
Proof.
  induction t as [|c s IH]; simpl; [by repeat constructor|].
  destruct (is_lf c) eqn:Hc; [by constructor|].
  destruct (split_lf s) as [|l ls]; [by repeat constructor|].
  inversion IH; subst. by repeat constructor.
Qed.

Lemma count_lf_join l ls :
  count_lf (join [LF] (l :: ls)) = sum_list (count_lf <$> (l :: ls)) + length ls.
Proof.
  revert l. induction ls as [|l' ls IH]; intros l.
  - simpl. lia.
  - rewrite join_two, !count_lf_app, IH. change (count_lf [LF]) with 1.
    rewrite !fmap_cons. cbn [sum_list length]. unfold id. lia.
Qed.

Lemma count_lf_patch_line pat repl l :
  Forall (λ c, is_lf c = false) l →
  count_lf (patch_line pat repl l) =
    if starts_with pat l then count_lf repl else 0.
Proof.
  intros Hl. unfold patch_line. destruct (starts_with pat l).
  - rewrite count_lf_app, (count_lf_none (drop _ _)); [lia|].
    by apply Forall_drop.
  - by apply count_lf_none.
Qed.

Lemma sum_count_patched pat repl ls :
  Forall (Forall (λ c, is_lf c = false)) ls →
  sum_list (count_lf <$> (patch_line pat repl <$> ls)) =
    length (filter (λ l, starts_with pat l = true) ls) * count_lf repl.
Proof.
  induction 1 as [|l ls Hl Hls IH]; [done|].
  rewrite !fmap_cons, filter_cons. cbn [sum_list_with]. unfold id at 1.
  rewrite IH, count_lf_patch_line by done.
  destruct (starts_with pat l).
  - rewrite decide_True by done. simpl. lia.
  - rewrite decide_False by done. lia.
Qed.

Lemma sum_count_lines ls :
  Forall (Forall (λ c, is_lf c = false)) ls → sum_list (count_lf <$> ls) = 0.
Proof.
  induction 1 as [|l ls Hl Hls IH]; [done|].
  rewrite fmap_cons. cbn [sum_list_with]. unfold id at 1.
  by rewrite IH, count_lf_none by done.
Qed.

(** C8.  [patch_reveal_themes] rewrites a theme line by line (the lines
    being those that LF separates, as for [^] in multiline mode): a line
    that begins with [body {] gets the replacement block in place of these
    six characters, every other line is kept, and so is every LF.  The
    number of lines grows by the number of such lines times the number of
    lines of the block minus one. *)
Theorem patch_theme_lines (t : text) :
  patch_theme t =
    join [LF]
      (map (λ l, if starts_with (txt "body {") l
                 then replacement_text ++ drop 6 l else l)
           (split_lf t)) ∧
  length (split_lf (patch_theme t)) =
    length (split_lf t) +
    length (filter (λ l, starts_with (txt "body {") l = true) (split_lf t))
    * (length (split_lf replacement_text) - 1).
Proof.
  assert (Hone : Forall (λ c, is_lf c = false) (txt "body {"))
    by (repeat constructor).
  assert (Hpatch : patch_theme t =
    join [LF] (map (patch_line (txt "body {") replacement_text) (split_lf t))).
  { unfold patch_theme. by rewrite re_sub_multiline_lines. }
  split; [done|].
  rewrite Hpatch, !split_lf_length.
  pose proof (split_lf_lines t) as Hlines.
  destruct (split_lf_cons t) as (l & ls & Hs).
  pose proof (join_split_lf t) as Hj. rewrite Hs in *.
  rewrite <- Hj. change (map ?f ?l) with (f <$> l).
  rewrite fmap_cons, !count_lf_join, <- fmap_cons.
  rewrite sum_count_patched, sum_count_lines by done.
  rewrite length_fmap. change (count_lf replacement_text) with 2. lia.
Qed.

End Anchored.

(** ** The replacements of [patch_notes] *)

Module Replace.
Import Text RiseReveal Anchored.

(** [pat] occurs in [s] at position [i]. *)
Definition occurs_at (pat s : text) (i : nat) : Prop :=
  starts_with pat (drop i s) = true.

(** The characters of [xs] at the positions where [ys] has another one. *)
Definition differing (xs ys : text) : text :=
  fst <$> filter (λ p, p.1 ≠ p.2) (zip xs ys).

Definition no_char_of (cs t : text) : bool :=
  forallb (λ c, negb (existsb (Ascii.eqb c) t)) cs.

Lemma starts_with_lookup pat s :
  starts_with pat s = true ↔ ∀ k, k < length pat → s !! k = pat !! k.
Proof.
  revert s. induction pat as [|a pat IH]; intros s; simpl.
  - split; [intros _ k Hk; lia|done].
  - destruct s as [|c s].
    + split; [done|]. intros H. specialize (H 0 ltac:(lia)). done.
    + rewrite andb_true_iff, Ascii.eqb_eq, IH. split.
      * intros [-> H] [|k] Hk; simpl; [done|]. apply H. lia.
      * intros H. split.
        -- specialize (H 0 ltac:(lia)). simpl in H. congruence.
        -- intros k Hk. apply (H (S k)). lia.
Qed.

Lemma occurs_at_lookup pat s i :
  occurs_at pat s i ↔ ∀ k, k < length pat → s !! (i + k) = pat !! k.
Proof.
  unfold occurs_at. rewrite starts_with_lookup.
  by setoid_rewrite lookup_drop.
Qed.

Lemma differing_spec xs ys k c :
  xs !! k = Some c → ys !! k ≠ Some c → length xs = length ys →
  c ∈ differing xs ys.
Proof.
  revert ys k. induction xs as [|x xs IH]; intros [|y ys] [|k]; simpl;
    try done; intros Hx Hy Hlen; unfold differing in *; simpl.
  - simplify_eq. rewrite filter_cons, decide_True by (simpl; congruence).
    simpl. apply list_elem_of_here.
  - rewrite filter_cons. specialize (IH ys k Hx Hy ltac:(lia)).
    case_decide; simpl; [by apply list_elem_of_further|done].
Qed.

Lemma no_char_of_spec cs t c :
  no_char_of cs t = true → c ∈ cs → c ∉ t.
Proof.
  unfold no_char_of. rewrite forallb_forall. intros H Hc Ht.
  apply list_elem_of_In in Hc, Ht. specialize (H c Hc).
  apply negb_true_iff in H.
  assert (existsb (Ascii.eqb c) t = true); [|congruence].
  apply existsb_exists. exists c. by rewrite Ascii.eqb_refl.
Qed.

(** Passing over the rest of an occurrence. *)
Lemma replace_skip old new u s :
  replace_from old new (length u) (u ++ s) = replace_from old new 0 s.
Proof. induction u as [|c u IH]; simpl; [by destruct s|done]. Qed.

Lemma replace_match old new r :
  old ≠ [] → replace old new (old ++ r) = new ++ replace old new r.
Proof.
  intros Hne. pose proof (starts_with_app old r) as Hm.
  destruct old as [|a old']; [done|]. simpl app in *.
  cbn [replace replace_from length]. rewrite Hm.
  replace (S (length old') - 1) with (length old') by lia.
  by rewrite replace_skip.
Qed.

Lemma replace_nomatch old new c s :
  old ≠ [] → starts_with old (c :: s) = false →
  replace old new (c :: s) = c :: replace old new s.
Proof.
  intros Hne Hm. destruct old as [|a old']; [done|].
  cbn [replace replace_from]. by rewrite Hm.
Qed.

Lemma replace_nil old new : old ≠ [] → replace old new [] = [].
Proof. by destruct old. Qed.

(** The three cases of a scan, for proofs by induction on the length. *)
Lemma replace_cases old new s :
  old ≠ [] →
  (s = [] ∧ replace old new s = []) ∨
  (∃ r, s = old ++ r ∧ length r < length s ∧
        replace old new s = new ++ replace old new r) ∨
  (∃ c s', s = c :: s' ∧ starts_with old s = false ∧
           replace old new s = c :: replace old new s').
Proof.
  intros Hne. destruct s as [|c s']; [left; eauto using replace_nil|].
  destruct (starts_with old (c :: s')) eqn:Hm.
  - right; left. pose proof (starts_with_inv _ _ Hm) as Hs.
    remember (drop (length old) (c :: s')) as r eqn:Hr in Hs. clear Hr.
    exists r. split; [done|]. rewrite Hs. split.
    + rewrite length_app. destruct old; [done|simpl; lia].
    + by apply replace_match.
  - right; right. exists c, s'. eauto using replace_nomatch.
Qed.

(** *** A token and its replacement that begin with the same character,
    which occurs nowhere else in either, and have the same length *)

Section SameLength.
Variables (a : ascii) (old' new' : text).
Hypothesis old_first : Forall (λ c, c ≠ a) old'.
Hypothesis new_first : Forall (λ c, c ≠ a) new'.
Hypothesis same_length : length old' = length new'.

Let old : text := a :: old'.
Let new : text := a :: new'.

Local Lemma old_nonempty : old ≠ [].
Proof. done. Qed.

Local Lemma lengths : length new = length old.
Proof. unfold old, new. simpl. by rewrite same_length. Qed.

Local Lemma not_first {l : text} {k} :
  Forall (λ c, c ≠ a) l → l !! k ≠ Some a.
Proof.
  intros Hl Hk. rewrite Forall_forall in Hl.
  by apply (Hl a); [eapply list_elem_of_lookup_2|].
Qed.

(** An occurrence cannot begin inside another one. *)
Local Lemma no_overlap (tok' : text) r X i :
  Forall (λ c, c ≠ a) tok' → 0 < i → i < length (a :: tok') →
  ¬ starts_with old (drop i ((a :: tok') ++ r)) = true ∧
  ¬ starts_with (a :: X) (drop i ((a :: tok') ++ r)) = true.
Proof.
  intros Htok Hi Hlt.
  assert (drop i ((a :: tok') ++ r) !! 0 ≠ Some a) as Hne.
  { rewrite lookup_drop, Nat.add_0_r, lookup_app_l by done.
    destruct i as [|i]; [lia|]. simpl. by apply not_first. }
  split; intros H; destruct (drop i ((a :: tok') ++ r)) as [|c d];
    simpl in *; try done;
    apply andb_true_iff in H as [->%Ascii.eqb_eq _]; done.
Qed.

Lemma replace_length s : length (replace old new s) = length s.
Proof.
  remember (length s) as n eqn:Hn. revert s Hn.
  induction n as [n IH] using lt_wf_ind. intros s ->.
  destruct (replace_cases old new s old_nonempty)
    as [[-> ->]|[(r & -> & Hlt & ->)|(c & s' & -> & _ & ->)]]; [done| |].
  - by rewrite !length_app, (IH _ Hlt r eq_refl), lengths.
  - simpl. f_equal. by apply (IH (length s')); [simpl; lia|].
Qed.

(** Position by position: a character of the output is the character of
    the input, or it lies in an occurrence of the token in the input and
    is the character of the replacement there. *)
Lemma replace_pointwise s j :
  replace old new s !! j = s !! j ∨
  ∃ i, i ≤ j < i + length old ∧ occurs_at old s i ∧
       replace old new s !! j = new !! (j - i) ∧ s !! j = old !! (j - i).
Proof.
  remember (length s) as n eqn:Hn. revert s j Hn.
  induction n as [n IH] using lt_wf_ind. intros s j ->.
  destruct (replace_cases old new s old_nonempty)
    as [[-> ->]|[(r & -> & Hlt & ->)|(c & s' & -> & _ & ->)]]; [by left| |].
  - destruct (decide (j < length old)) as [Hj|Hj].
    + right. exists 0. rewrite Nat.sub_0_r. split; [lia|]. split.
      { apply starts_with_app. }
      rewrite !lookup_app_l by (by rewrite ?lengths). done.
    + rewrite !lookup_app_r by (rewrite ?lengths; lia).
      rewrite lengths.
      destruct (IH _ Hlt r (j - length old) eq_refl)
        as [Heq|(i & Hi & Hocc & H1 & H2)]; [by left|].
      right. exists (i + length old). split; [lia|]. split.
      { unfold occurs_at in *. rewrite drop_app_ge by lia.
        by replace (i + length old - length old) with i by lia. }
      replace (j - (i + length old)) with (j - length old - i) by lia.
      done.
  - destruct j as [|j]; [by left|]. simpl.
    destruct (IH (length s') ltac:(simpl; lia) s' j eq_refl)
      as [Heq|(i & Hi & Hocc & H1 & H2)]; [by left|].
    right. exists (S i). split; [simpl in *; lia|]. by split.
Qed.

(** Every occurrence of the token is replaced. *)
Lemma replace_all s i :
  occurs_at old s i → occurs_at new (replace old new s) i.
Proof.
  remember (length s) as n eqn:Hn. revert s i Hn.
  induction n as [n IH] using lt_wf_ind. intros s i -> Hocc.
  destruct (replace_cases old new s old_nonempty)
    as [[-> ->]|[(r & -> & Hlt & ->)|(c & s' & -> & Hno & ->)]].
  - unfold occurs_at in Hocc. by rewrite drop_nil in Hocc.
  - destruct (decide (i = 0)) as [->|Hi0]; [apply starts_with_app|].
    destruct (decide (i < length old)) as [Hi|Hi].
    + unfold occurs_at in Hocc.
      by destruct (no_overlap old' r [] i old_first ltac:(lia) Hi).
    + unfold occurs_at in *.
      rewrite drop_app_ge in Hocc |- * by (rewrite ?lengths; lia).
      rewrite lengths. by apply (IH _ Hlt).
  - destruct i as [|i]; [unfold occurs_at in Hocc; simpl in *; congruence|].
    apply (IH (length s') ltac:(simpl; lia) s' i eq_refl Hocc).
Qed.

(** Where the output has not yet met the first character of the token,
    it is the input. *)
Lemma replace_take s k :
  Forall (λ c, c ≠ a) (take k (replace old new s)) →
  take k (replace old new s) = take k s.
Proof.
  remember (length s) as n eqn:Hn. revert s k Hn.
  induction n as [n IH] using lt_wf_ind. intros s k ->.
  destruct (replace_cases old new s old_nonempty)
    as [[-> ->]|[(r & -> & Hlt & ->)|(c & s' & -> & Hno & ->)]]; [done| |].
  - destruct k as [|k]; [done|]. simpl. by inversion 1.
  - destruct k as [|k]; [done|]. simpl. inversion 1; subst.
    f_equal. by apply (IH (length s')); [simpl; lia| |].
Qed.

(** No occurrence of the token is left. *)
Lemma replace_none_left s i :
  old' ≠ new' → ¬ occurs_at old (replace old new s) i.
Proof.
  intros Hdiff. remember (length s) as n eqn:Hn. revert s i Hn.
  induction n as [n IH] using lt_wf_ind. intros s i -> Hocc.
  destruct (replace_cases old new s old_nonempty)
    as [[-> Hr]|[(r & -> & Hlt & Hr)|(c & s' & -> & Hno & Hr)]];
    rewrite Hr in Hocc.
  - unfold occurs_at in Hocc. by rewrite drop_nil in Hocc.
  - destruct (decide (i = 0)) as [->|Hi0].
    { apply starts_with_inv in Hocc. simpl in Hocc. injection Hocc as Hocc.
      apply app_inj_1 in Hocc as [Heq _]; [|done]. congruence. }
    destruct (decide (i < length new)) as [Hi|Hi].
    + by destruct (no_overlap new' (replace old new r) old' i new_first
                     ltac:(lia) Hi).
    + unfold occurs_at in Hocc. rewrite drop_app_ge in Hocc by lia.
      by apply (IH _ Hlt r (i - length new) eq_refl).
  - destruct i as [|i]; [|by apply (IH (length s') ltac:(simpl; lia) s' i)].
    unfold occurs_at in Hocc. simpl in Hocc.
    change (replace_from old new 0 s') with (replace old new s') in Hocc.
    apply andb_true_iff in Hocc as [Hc%Ascii.eqb_eq Hocc]. subst c.
    pose proof (starts_with_inv _ _ Hocc) as Hr'.
    assert (take (length old') (replace old new s') = old') as Ht.
    { rewrite Hr'. by rewrite take_app_length. }
    rewrite replace_take in Ht by (by rewrite Ht).
    assert (starts_with old' s' = true) as Hs'.
    { rewrite <- (take_drop (length old') s'), Ht. apply starts_with_app. }
    simpl in Hno. rewrite Ascii.eqb_refl, Hs' in Hno. done.
Qed.

(** The replacement makes no new occurrence of a text [t] that has none of
    the characters it brings in. *)
Lemma replace_creates_none t s i :
  no_char_of (differing new old) t = true →
  occurs_at t (replace old new s) i → occurs_at t s i.
Proof.
  intros Hfresh. rewrite !occurs_at_lookup. intros Hocc k Hk.
  specialize (Hocc k Hk).
  destruct (replace_pointwise s (i + k)) as [Heq|(i' & Hi' & _ & H1 & H2)];
    [congruence|].
  destruct (lookup_lt_is_Some_2 t k Hk) as [c Hc].
  destruct (decide (old !! (i + k - i') = Some c)) as [Ho|Ho]; [congruence|].
  exfalso. eapply (no_char_of_spec _ _ c Hfresh).
  - eapply differing_spec; [|done|apply lengths]. congruence.
  - by eapply list_elem_of_lookup_2.
Qed.

(** It spoils no occurrence of a text [t] that has none of the characters
    it takes out. *)
Lemma replace_spoils_none t s i :
  no_char_of (differing old new) t = true →
  occurs_at t s i → occurs_at t (replace old new s) i.
Proof.
  intros Hfresh. rewrite !occurs_at_lookup. intros Hocc k Hk.
  specialize (Hocc k Hk).
  destruct (replace_pointwise s (i + k)) as [Heq|(i' & Hi' & _ & H1 & H2)];
    [congruence|].
  destruct (lookup_lt_is_Some_2 t k Hk) as [c Hc].
  destruct (decide (new !! (i + k - i') = Some c)) as [Ho|Ho]; [congruence|].
  exfalso. eapply (no_char_of_spec _ _ c Hfresh).
  - eapply differing_spec; [|done|symmetry; apply lengths]. congruence.
  - by eapply list_elem_of_lookup_2.
Qed.

End SameLength.

(** *** The three tokens of [notes.js] *)

(** What the lemmas above ask of a token and its replacement. *)
Definition token_pair (old new : text) : Prop :=
  ∃ a old' new',
    old = a :: old' ∧ new = a :: new' ∧
    Forall (λ c, c ≠ a) old' ∧ Forall (λ c, c ≠ a) new' ∧
    length old' = length new' ∧ old' ≠ new'.

Ltac token_pair :=
  eexists _, _, _; split; [reflexivity|]; split; [reflexivity|];
  split; [by repeat constructor|]; split; [by repeat constructor|];
  split; [reflexivity|discriminate].

Lemma src_pair : token_pair (txt "src$=") (txt "src*=").
Proof. token_pair. Qed.

Lemma key_code_pair : token_pair (txt "keyCode: 83") (txt "keyCode: 84").
Proof. token_pair. Qed.

Lemma key_pair : token_pair (txt "key: 'S'") (txt "key: 'T'").
Proof. token_pair. Qed.

Section Pair.
Variables old new : text.
Hypothesis pair : token_pair old new.

Lemma pair_length s : length (replace old new s) = length s.
Proof.
  destruct pair as (a & old' & new' & -> & -> & ? & ? & ? & ?).
  by apply replace_length.
Qed.

Lemma pair_pointwise s j :
  replace old new s !! j = s !! j ∨
  ∃ i, i ≤ j < i + length old ∧ occurs_at old s i.
Proof.
  destruct pair as (a & old' & new' & -> & -> & ? & ? & ? & ?).
  destruct (replace_pointwise a old' new' ltac:(done) s j)
    as [?|(i & ? & ? & _)]; eauto.
Qed.

Lemma pair_all s i : occurs_at old s i → occurs_at new (replace old new s) i.
Proof.
  destruct pair as (a & old' & new' & -> & -> & ? & ? & ? & ?).
  by apply replace_all.
Qed.

Lemma pair_none_left s i : ¬ occurs_at old (replace old new s) i.
Proof.
  destruct pair as (a & old' & new' & -> & -> & ? & ? & ? & ?).
  by apply replace_none_left.
Qed.

Lemma pair_creates_none t s i :
  no_char_of (differing new old) t = true →
  occurs_at t (replace old new s) i → occurs_at t s i.
Proof.
  destruct pair as (a & old' & new' & -> & -> & ? & ? & ? & ?).
  by apply replace_creates_none.
Qed.

Lemma pair_spoils_none t s i :
  no_char_of (differing old new) t = true →
  occurs_at t s i → occurs_at t (replace old new s) i.
Proof.
  destruct pair as (a & old' & new' & -> & -> & ? & ? & ? & ?).
  by apply replace_spoils_none.
Qed.
End Pair.

(** C7.  The rewriting of [notes.js] by [patch_notes].  Every occurrence of
    [src$=] in the input is an occurrence of [src*=] in the output, at the
    same place, and likewise for [keyCode: 83] and [keyCode: 84] and for
    [key: 'S'] and [key: 'T'].  The output has no occurrence of any of the
    three tokens.  The output is as long as the input and differs from it
    only within occurrences of the tokens in the input. *)
Theorem loosen_replaces_every_token (t : text) :
  (∀ i, occurs_at (txt "src$=") t i → occurs_at (txt "src*=") (loosen t) i) ∧
  (∀ i, occurs_at (txt "keyCode: 83") t i →
        occurs_at (txt "keyCode: 84") (loosen t) i) ∧
  (∀ i, occurs_at (txt "key: 'S'") t i →
        occurs_at (txt "key: 'T'") (loosen t) i) ∧
  (∀ i, ¬ occurs_at (txt "src$=") (loosen t) i) ∧
  (∀ i, ¬ occurs_at (txt "keyCode: 83") (loosen t) i) ∧
  (∀ i, ¬ occurs_at (txt "key: 'S'") (loosen t) i) ∧
  length (loosen t) = length t ∧
  (∀ j, loosen t !! j ≠ t !! j →
        ∃ tok i, tok ∈ [txt "src$="; txt "keyCode: 83"; txt "key: 'S'"] ∧
                 occurs_at tok t i ∧ i ≤ j < i + length tok).
Proof.
  unfold loosen.
  set (t1 := replace (txt "src$=") (txt "src*=") t).
  set (t2 := replace (txt "keyCode: 83") (txt "keyCode: 84") t1).
  repeat split.
  - intros i Hi.
    apply (pair_spoils_none _ _ key_pair); [done|].
    apply (pair_spoils_none _ _ key_code_pair); [done|].
    by apply (pair_all _ _ src_pair).
  - intros i Hi.
    apply (pair_spoils_none _ _ key_pair); [done|].
    apply (pair_all _ _ key_code_pair).
    by apply (pair_spoils_none _ _ src_pair).
  - intros i Hi.
    apply (pair_all _ _ key_pair).
    apply (pair_spoils_none _ _ key_code_pair); [done|].
    by apply (pair_spoils_none _ _ src_pair).
  - intros i Hi.
    pose proof (pair_creates_none _ _ key_pair (txt "src$=") _ _ eq_refl Hi)
      as Hi2.
    pose proof (pair_creates_none _ _ key_code_pair (txt "src$=") _ _ eq_refl Hi2)
      as Hi1.
    exact (pair_none_left _ _ src_pair _ _ Hi1).
  - intros i Hi.
    pose proof (pair_creates_none _ _ key_pair (txt "keyCode: 83") _ _ eq_refl Hi)
      as Hi2.
    exact (pair_none_left _ _ key_code_pair _ _ Hi2).
  - intros i Hi. exact (pair_none_left _ _ key_pair _ _ Hi).
  - unfold t2, t1.
    by rewrite (pair_length _ _ key_pair), (pair_length _ _ key_code_pair),
      (pair_length _ _ src_pair).
  - intros j Hj.
    destruct (pair_pointwise _ _ key_pair t2 j) as [H3|(i & Hi & Hocc)].
    + destruct (pair_pointwise _ _ key_code_pair t1 j) as [H2|(i & Hi & Hocc)].
      * destruct (pair_pointwise _ _ src_pair t j) as [H1|(i & Hi & Hocc)].
        -- unfold t2, t1 in *. congruence.
        -- exists (txt "src$="), i. split; [by repeat constructor|done].
      * exists (txt "keyCode: 83"), i. split; [by repeat constructor|]. split; [|done].
        exact (pair_creates_none _ _ src_pair (txt "keyCode: 83") _ _ eq_refl Hocc).
    + exists (txt "key: 'S'"), i. split; [by repeat constructor|]. split; [|done].
      pose proof (pair_creates_none _ _ key_code_pair (txt "key: 'S'") _ _
                    eq_refl Hocc) as H1.
      exact (pair_creates_none _ _ src_pair (txt "key: 'S'") _ _ eq_refl H1).
Qed.

End Replace.

(** ** The file tree *)

Module Tree.
Import Text FS.

(** Two paths part ways: from some component on they differ, so neither
    lies on the way to the other. *)
Fixpoint diverge (p q : path) : bool :=
  match p, q with
  | x :: p', y :: q' => if String.eqb x y then diverge p' q' else true
  | _, _ => false
  end.

Lemma diverge_app c p q : diverge (c ++ p) (c ++ q) = diverge p q.
Proof. induction c as [|x c IH]; simpl; [done|]. by rewrite String.eqb_refl. Qed.

Lemma diverge_sym p q : diverge p q = diverge q p.
Proof.
  revert q. induction p as [|x p IH]; intros [|y q]; simpl; try done.
  rewrite (String.eqb_sym y x). by rewrite IH.
Qed.

Lemma diverge_names d x y : x ≠ y → diverge (d ++ [x]) (d ++ [y]) = true.
Proof.
  intros H. rewrite diverge_app. simpl.
  by destruct (String.eqb_spec x y).
Qed.

Lemma diverge_below p q r : diverge p q = true → diverge p (q ++ r) = true.
Proof.
  revert q. induction p as [|x p IH]; intros [|y q]; simpl; try done.
  destruct (String.eqb x y); [apply IH|done].
Qed.

Lemma node_at_app p q n :
  node_at (p ++ q) n =
    match node_at p n with Some c => node_at q c | None => None end.
Proof.
  revert n. induction p as [|x p IH]; intros n; simpl; [done|].
  destruct n as [|m]; [done|]. destruct (m !! x); [apply IH|done].
Qed.

Lemma node_at_entry x m : node_at [x] (Dir m) = m !! x.
Proof. simpl. by destruct (m !! x). Qed.

(** What an update leaves at its path. *)
Lemma update_at_lookup p f n n' :
  update_at p f n = inr n' →
  ∃ r, f (node_at p n) = inr r ∧ node_at p n' = r.
Proof.
  revert n n'. induction p as [|x p IH]; intros n n' H.
  - simpl in *. destruct (f (Some n)) as [e|[r|]]; simplify_eq. eauto.
  - cbn [update_at] in H. destruct n as [d|m]; [done|].
    destruct p as [|y p].
    + rewrite node_at_entry. destruct (f (m !! x)) as [e|r]; simplify_eq.
      exists r. split; [done|].
      by rewrite node_at_entry, lookup_partial_alter_eq.
    + destruct (m !! x) as [c|] eqn:Hx; [|done].
      destruct (update_at (y :: p) f c) as [e|c'] eqn:Hc; simplify_eq.
      destruct (IH _ _ Hc) as (r & Hr & Hn). exists r.
      cbn [node_at]. by rewrite Hx, lookup_insert_eq.
Qed.

(** Paths that part ways with the updated one see no change. *)
Lemma update_at_frame p f n n' q :
  update_at p f n = inr n' → diverge p q = true → node_at q n' = node_at q n.
Proof.
  revert n n' q. induction p as [|x p IH]; intros n n' [|y q] H Hd;
    simpl in Hd; try done.
  cbn [update_at] in H. destruct n as [d|m]; [done|].
  destruct (String.eqb_spec x y) as [<-|Hxy].
  - destruct p as [|z p]; [done|].
    destruct (m !! x) as [c|] eqn:Hx; [|done].
    destruct (update_at (z :: p) f c) as [e|c'] eqn:Hc; simplify_eq.
    cbn [node_at]. rewrite Hx, lookup_insert_eq. by apply (IH c).
  - destruct p as [|z p].
    + destruct (f (m !! x)) as [e|r]; simplify_eq.
      cbn [node_at]. by rewrite lookup_partial_alter_ne.
    + destruct (m !! x) as [c|] eqn:Hx; [|done].
      destruct (update_at (z :: p) f c) as [e|c'] eqn:Hc; simplify_eq.
      cbn [node_at]. by rewrite lookup_insert_ne.
Qed.

(** The directory that holds the updated entry. *)
Lemma update_at_parent d x f n n' :
  update_at (d ++ [x]) f n = inr n' →
  ∃ m r, node_at d n = Some (Dir m) ∧ f (m !! x) = inr r ∧
         node_at d n' = Some (Dir (partial_alter (λ _, r) x m)).
Proof.
  revert n n'. induction d as [|y d IH]; intros n n' H.
  - simpl in H. destruct n as [|m]; [done|].
    destruct (f (m !! x)) as [e|r] eqn:Hf; simplify_eq. by exists m, r.
  - simpl app in H. cbn [update_at] in H. destruct n as [|m]; [done|].
    destruct (d ++ [x]) as [|z p] eqn:Hp; [by destruct d|]. rewrite <- Hp in *.
    destruct (m !! y) as [c|] eqn:Hy; [|done].
    destruct (update_at (d ++ [x]) f c) as [e|c'] eqn:Hc; simplify_eq.
    destruct (IH _ _ Hc) as (m' & r & H1 & H2 & H3). exists m', r.
    cbn [node_at]. by rewrite Hy, lookup_insert_eq.
Qed.

(** An update succeeds where its parent directory exists. *)
Lemma update_at_succeeds d x f n m r :
  node_at d n = Some (Dir m) → f (m !! x) = inr r →
  ∃ n', update_at (d ++ [x]) f n = inr n'.
Proof.
  revert n. induction d as [|y d IH]; intros n Hn Hf.
  - simpl in *. simplify_eq. rewrite Hf. eauto.
  - simpl app. cbn [update_at]. simpl in Hn. destruct n as [|m0]; [done|].
    destruct (m0 !! y) as [c|] eqn:Hy; [|done].
    destruct (IH c Hn Hf) as (c' & Hc).
    destruct (d ++ [x]) as [|z p] eqn:Hp; [by destruct d|]. rewrite <- Hp in *.
    rewrite Hc. eauto.
Qed.

(** An update that puts back what was there changes nothing. *)
Lemma update_at_same p f n n' :
  update_at p f n = inr n' → f (node_at p n) = inr (node_at p n) → n' = n.
Proof.
  revert n n'. induction p as [|x p IH]; intros n n' H Hf.
  - simpl in *. rewrite Hf in H. by simplify_eq.
  - cbn [update_at] in H. destruct n as [d|m]; [done|].
    destruct p as [|y p].
    + rewrite node_at_entry in Hf. rewrite Hf in H. simplify_eq.
      by rewrite partial_alter_self.
    + cbn [node_at] in Hf. destruct (m !! x) as [c|] eqn:Hx; [|done].
      destruct (update_at (y :: p) f c) as [e|c'] eqn:Hc; simplify_eq.
      rewrite (IH _ _ Hc Hf). by rewrite insert_id.
Qed.

(** [makedirs] *)

Lemma makedirs_present p n m :
  node_at p n = Some (Dir m) → makedirs p n = inr n.
Proof.
  revert n. induction p as [|x p IH]; intros n H.
  - simpl in *. by simplify_eq.
  - simpl in H. destruct n as [|m0]; [done|]. cbn [makedirs].
    destruct (m0 !! x) as [c|] eqn:Hx; [|done]. simpl.
    rewrite (IH _ H). by rewrite insert_id.
Qed.

End Tree.

(** ** The dependency gate and the commands behind it *)

Module Gate.
Import Text FS.

(** The message of the gate for a command. *)
Definition install_message (command : string) : string :=
  "You must run " +:+ RiseReveal.dq +:+ "npm install" +:+ RiseReveal.dq +:+
  " before running " +:+ RiseReveal.dq +:+ "npm run " +:+ command +:+
  RiseReveal.dq.

(** A function name with its underscores turned into hyphens. *)
Definition hyphenate (function_name : string) : string :=
  string_of_list_ascii (replace (txt "_") (txt "-") (txt function_name)).

Definition node_modules (h : host) : path := root h ++ ["node_modules"].

(** The gated commands of the two scripts, under the names of the command
    line. *)
Definition gated (h : host) : list (string * M unit) := [
  ("copy", RiseReveal.copy h);
  ("patch-reveal-css", RiseReveal.patch_reveal_css h);
  ("patch-notes", RiseReveal.patch_notes h);
  ("patch-reveal-themes", RiseReveal.patch_reveal_themes h);
  ("patch-chalkboard", RiseReveal.patch_chalkboard h);
  ("build", RiseReveal.build h);
  ("patch", RiseReveal.patch h);
  ("less", Classic.less h);
  ("watch-less", Classic.watch_less h);
  ("install-rise-reveal", Classic.install_rise_reveal h)
].

Lemma rise_reveal_gate h name (f : M unit) w :
  RiseReveal.require_npm_install h name f w =
    if is_dir (files w) (node_modules h) then f w
    else (inl (EnvironmentError (install_message (hyphenate name))), w).
Proof.
  unfold RiseReveal.require_npm_install, bind, test, node_modules.
  change (joinpath (root h) "node_modules") with (root h ++ ["node_modules"]).
  by destruct (is_dir (files w) (root h ++ ["node_modules"])).
Qed.

Lemma classic_gate h name (f : M unit) w :
  Classic.require_npm_install h name f w =
    if is_dir (files w) (node_modules h) then f w
    else (inl (EnvironmentError (install_message (hyphenate name))), w).
Proof.
  unfold Classic.require_npm_install, bind, test, node_modules.
  change (joinpath (root h) "node_modules") with (root h ++ ["node_modules"]).
  by destruct (is_dir (files w) (root h ++ ["node_modules"])).
Qed.

(** C5.  The gate of both scripts looks for the directory [node_modules] in
    the files as they are at the call.  Without it the call ends with the
    error whose message names [npm install] and the command, the function
    name with hyphens for underscores, and the world is as before: nothing
    is written, printed or spawned.  With it the call is the call of the
    wrapped function.  Every gated command of the two scripts fails in this
    way, under its command-line name, when the directory is missing. *)
Theorem dependency_gate (h : host) (name : string) (f : M unit) (w : world) :
  RiseReveal.require_npm_install h name f w =
    (if is_dir (files w) (node_modules h) then f w
     else (inl (EnvironmentError (install_message (hyphenate name))), w)) ∧
  Classic.require_npm_install h name f w =
    (if is_dir (files w) (node_modules h) then f w
     else (inl (EnvironmentError (install_message (hyphenate name))), w)) ∧
  Forall (λ entry,
            is_dir (files w) (node_modules h) = false →
            entry.2 w = (inl (EnvironmentError (install_message entry.1)), w))
         (gated h).
Proof.
  split; [apply rise_reveal_gate|]. split; [apply classic_gate|].
  unfold gated.
  repeat (apply Forall_cons; split;
          [intros Hd; cbn [fst snd];
           first [ unfold RiseReveal.copy, RiseReveal.patch_reveal_css,
                     RiseReveal.patch_notes, RiseReveal.patch_reveal_themes,
                     RiseReveal.patch_chalkboard, RiseReveal.build,
                     RiseReveal.patch;
                   rewrite rise_reveal_gate, Hd; reflexivity
                 | unfold Classic.less, Classic.watch_less,
                     Classic.install_rise_reveal;
                   rewrite classic_gate, Hd; reflexivity ]|]).
  apply Forall_nil_2.
Qed.

(** C10.  [watch_less] of the classic script, with [node_modules] present.
    On Windows it ends with the error of an unbound local variable, the
    name [lessc], and the world is as before: no process has been spawned.
    Elsewhere it spawns the watcher under the path
    [node_modules/.bin/watch], without a suffix. *)
Theorem watch_less_unbound_local (h : host) (w : world) :
  is_dir (files w) (node_modules h) = true →
  (platform_system h = "Windows" →
     Classic.watch_less h w = (inl (UnboundLocalError "lessc"), w)) ∧
  (platform_system h ≠ "Windows" →
     let command := [
       path_str (root h ++ ["node_modules"; ".bin"; "watch"]);
       "npm run less";
       path_str (root h ++ ["src"; "less"])
     ] in
     Classic.watch_less h w = check_output h command w ∧
     spawned (Classic.watch_less h w).2 = spawned w ++ [command]).
Proof.
  intros Hd. unfold Classic.watch_less. rewrite classic_gate, Hd. split.
  - intros ->. reflexivity.
  - intros Hsys. apply String.eqb_neq in Hsys.
    unfold bind at 1. rewrite Hsys. split; [reflexivity|].
    unfold bind, ret, Classic.read_local, from_option, check_output. simpl.
    by destruct (exec h _ (files w)).
Qed.

End Gate.

(** ** One patch step *)

Module Step.
Import Text FS Tree.
#[local] Open Scope script_scope.

#[local] Arguments write_bytes : simpl never.
#[local] Arguments copy_file : simpl never.
#[local] Arguments read_bytes : simpl never.
#[local] Arguments is_file : simpl never.
#[local] Arguments is_dir : simpl never.
#[local] Arguments node_at : simpl never.

(** The steps that every patch function repeats for a target [t] and its
    backup [b]: save the target once, read the backup, write the target. *)
Definition patch_step (msg : string) (t b : path) (T : text → text) : M unit :=
  print msg ;;
  saved <- test (λ n, is_file n b) ;;
  (if negb saved then fs_call (copy_file t b) else ret ()) ;;
  text <- read_text b ;;
  write_text_raw t (T text).

Lemma write_bytes_ok p d n n' :
  write_bytes p d n = inr n' →
  node_at p n' = Some (File d) ∧
  ∀ q, diverge p q = true → node_at q n' = node_at q n.
Proof.
  unfold write_bytes, at_path. intros H.
  destruct (update_at p _ n) as [e|n1] eqn:Hu; simplify_eq. split.
  - destruct (update_at_lookup _ _ _ _ Hu) as (r & Hr & ->).
    by destruct (node_at p n) as [[]|]; simplify_eq.
  - intros q Hq. by eapply update_at_frame.
Qed.

Lemma write_bytes_same p d n :
  node_at p n = Some (File d) → write_bytes p d n = inr n.
Proof.
  intros Hp. unfold write_bytes, at_path.
  destruct p as [|x p' _] using rev_ind.
  - change (Some n = Some (File d)) in Hp. by simplify_eq.
  - rewrite node_at_app in Hp.
    destruct (node_at p' n) as [[|m]|] eqn:Hd; try done.
    rewrite node_at_entry in Hp.
    edestruct (update_at_succeeds p' x
      (λ o, match o with Some (Dir _) => inl EISDIR | _ => inr (Some (File d)) end)
      n m) as (n' & Hn'); [done|by rewrite Hp|].
    rewrite Hn'. f_equal. eapply update_at_same; [done|].
    rewrite node_at_app, Hd, node_at_entry, Hp. done.
Qed.

Lemma copy_file_ok t b n n' :
  copy_file t b n = inr n' →
  ∃ c, node_at t n = Some (File c) ∧
       (∀ q, diverge b q = true → node_at q n' = node_at q n) ∧
       (is_dir n b = false → node_at b n' = Some (File c)) ∧
       (is_dir n b = true → is_dir n' b = true).
Proof.
  unfold copy_file. intros H.
  destruct (node_at t n) as [[c|]|] eqn:Ht; try done. exists c.
  split; [done|]. destruct (is_dir n b) eqn:Hb.
  - destruct (write_bytes_ok _ _ _ _ H) as [H1 H2]. split; [|split; [done|]].
    + intros q Hq. apply H2. rewrite diverge_sym. apply diverge_below.
      by rewrite diverge_sym.
    + intros _. unfold write_bytes, at_path in H.
      destruct (update_at (b ++ [basename t]) _ n) as [e|n1] eqn:Hu;
        simplify_eq.
      destruct (update_at_parent _ _ _ _ _ Hu) as (m & r & _ & _ & Hm).
      unfold is_dir. by rewrite Hm.
  - destruct (write_bytes_ok _ _ _ _ H) as [H1 H2]. by repeat split.
Qed.

Ltac run_step :=
  unfold patch_step, write_text_raw, bind, print, test, read_text, fs_call,
    ret; simpl.

Section OneStep.
Variables (msg : string) (t b : path) (T : text → text).
Hypothesis apart : diverge t b = true.

(** Whatever the outcome, the step touches nothing that parts ways with
    both the target and the backup. *)
Lemma patch_step_frame w q :
  diverge t q = true → diverge b q = true →
  node_at q (files (patch_step msg t b T w).2) = node_at q (files w).
Proof.
  intros Ht Hb. run_step.
  destruct (is_file (files w) b) eqn:Hs; simpl.
  - destruct (read_bytes b (files w)) as [[e p]|d]; simpl; [done|].
    destruct (write_bytes t _ (files w)) as [[e p]|n'] eqn:Hw; simpl; [done|].
    by apply (write_bytes_ok _ _ _ _ Hw).
  - destruct (copy_file t b (files w)) as [[e p]|n1] eqn:Hc; simpl; [done|].
    destruct (copy_file_ok _ _ _ _ Hc) as (c & _ & Hf & _).
    destruct (read_bytes b n1) as [[e p]|d]; simpl; [by apply Hf|].
    destruct (write_bytes t _ n1) as [[e p]|n'] eqn:Hw; simpl; [by apply Hf|].
    destruct (write_bytes_ok _ _ _ _ Hw) as [_ Hf']. rewrite Hf' by done.
    by apply Hf.
Qed.

(** A backup that exists is neither overwritten nor removed. *)
Lemma patch_step_keeps_backup w c :
  node_at b (files w) = Some (File c) →
  node_at b (files (patch_step msg t b T w).2) = Some (File c).
Proof.
  intros Hb. run_step.
  unfold is_file, read_bytes. repeat (progress (rewrite ?Hb; simpl)).
  destruct (write_bytes t _ (files w)) as [[e p]|n'] eqn:Hw; simpl; [done|].
  destruct (write_bytes_ok _ _ _ _ Hw) as [_ Hf]. by rewrite Hf.
Qed.

(** A backup that does not exist yet is made from the target as it is;
    until then the target is not written. *)
Lemma patch_step_first w :
  node_at b (files w) = None →
  let n' := files (patch_step msg t b T w).2 in
  (node_at b n' = None ∧ node_at t n' = node_at t (files w)) ∨
  (∃ c, node_at t (files w) = Some (File c) ∧ node_at b n' = Some (File c)).
Proof.
  intros Hb. run_step.
  unfold is_file. repeat (progress (rewrite ?Hb; simpl)).
  destruct (copy_file t b (files w)) as [[e p]|n1] eqn:Hc; simpl; [by left|].
  destruct (copy_file_ok _ _ _ _ Hc) as (c & Ht & Hf & Hn & _).
  assert (node_at b n1 = Some (File c)) as Hb1
    by (apply Hn; unfold is_dir; by rewrite Hb).
  right. exists c. split; [done|].
  unfold read_bytes. rewrite Hb1. simpl.
  destruct (write_bytes t _ n1) as [[e p]|n'] eqn:Hw; simpl; [done|].
  destruct (write_bytes_ok _ _ _ _ Hw) as [_ Hf']. by rewrite Hf'.
Qed.

(** After a successful step the backup is a file, what it holds is what
    the backup or else the target held before, and the target is the
    transformation of the backup as text mode reads it. *)
Lemma patch_step_ok w w' :
  patch_step msg t b T w = (inr (), w') →
  ∃ c, node_at b (files w') = Some (File c) ∧
       node_at t (files w') = Some (File (T (universal_newlines c))) ∧
       (node_at b (files w) = Some (File c) ∨
        node_at b (files w) = None ∧ node_at t (files w) = Some (File c)).
Proof.
  run_step.
  destruct (is_file (files w) b) eqn:Hs; simpl.
  - unfold is_file in Hs. unfold read_bytes.
    destruct (node_at b (files w)) as [[c|]|] eqn:Hb; try done. simpl.
    destruct (write_bytes t _ (files w)) as [[e p]|n'] eqn:Hw; simpl; [done|].
    intros [= <-]. simpl. destruct (write_bytes_ok _ _ _ _ Hw) as [Ht Hf].
    exists c. rewrite Hf by done. eauto.
  - destruct (copy_file t b (files w)) as [[e p]|n1] eqn:Hc; simpl; [done|].
    destruct (copy_file_ok _ _ _ _ Hc) as (c & Ht & Hf & Hn & Hd).
    destruct (is_dir (files w) b) eqn:Hdir.
    + specialize (Hd eq_refl). unfold is_dir in Hd. unfold read_bytes.
      by destruct (node_at b n1) as [[|]|].
    + specialize (Hn eq_refl). unfold read_bytes. rewrite Hn. simpl.
      destruct (write_bytes t _ n1) as [[e p]|n'] eqn:Hw; simpl; [done|].
      intros [= <-]. simpl. destruct (write_bytes_ok _ _ _ _ Hw) as [Ht' Hf'].
      exists c. rewrite Hf' by done. split; [done|]. split; [done|].
      right. split; [|done]. unfold is_file, is_dir in *.
      by destruct (node_at b (files w)) as [[|]|].
Qed.

(** Where the backup is a file and the target is its transformation, the
    step succeeds and changes no file. *)
Lemma patch_step_again w c :
  node_at b (files w) = Some (File c) →
  node_at t (files w) = Some (File (T (universal_newlines c))) →
  ∃ w', patch_step msg t b T w = (inr (), w') ∧ files w' = files w.
Proof.
  intros Hb Ht. run_step.
  unfold is_file, read_bytes. repeat (progress (rewrite ?Hb; simpl)).
  rewrite (write_bytes_same _ _ _ Ht). simpl. eauto.
Qed.
End OneStep.

End Step.

(** ** Names *)

Module Names.
Import Text FS.

Lemma txt_app s1 s2 : txt (s1 +:+ s2) = txt s1 ++ txt s2.
Proof.
  unfold txt. induction s1 as [|c s1 IH]; simpl; [done|]. by rewrite IH.
Qed.

Lemma string_of_txt s : string_of_list_ascii (txt s) = s.
Proof. apply string_of_list_ascii_of_string. Qed.

Lemma txt_of_string l : txt (string_of_list_ascii l) = l.
Proof. apply list_ascii_of_string_of_list_ascii. Qed.

Lemma txt_inj s1 s2 : txt s1 = txt s2 → s1 = s2.
Proof. intros H. by rewrite <- (string_of_txt s1), H, string_of_txt. Qed.

(** Stem and suffix make up the name. *)
Lemma split_suffix_app name :
  (split_suffix name).1 ++ (split_suffix name).2 = name.
Proof.
  unfold split_suffix. destruct (rfind_dot name) as [i|]; simpl.
  - destruct (_ && _); simpl; [apply take_drop|apply app_nil_r].
  - apply app_nil_r.
Qed.

Lemma basename_snoc d x : basename (d ++ [x]) = x.
Proof. unfold basename. apply last_last. Qed.

Lemma relative_to_root r q : relative_to (r ++ q) r = Some q.
Proof.
  unfold relative_to. rewrite take_app_length, drop_app_length.
  by rewrite decide_True.
Qed.

(** [p.with_suffix(p.suffix + '.patched')] appends [.patched] to the
    name, whatever its suffix. *)
Lemma with_suffix_patched d x :
  x ≠ "" →
  with_suffix (d ++ [x]) (suffix (d ++ [x]) +:+ ".patched") =
    Some (d ++ [x +:+ ".patched"]).
Proof.
  intros Hx. unfold with_suffix, suffix. rewrite basename_snoc, removelast_last.
  destruct x as [|c x]; [done|]. f_equal. f_equal. f_equal.
  rewrite txt_app, txt_of_string, (assoc_L (++)), split_suffix_app.
  rewrite <- txt_app. apply string_of_txt.
Qed.

Lemma fnmatch_literal lit s :
  Forall (λ c, c ≠ "*"%char) lit → fnmatch_text lit s = true → s = lit.
Proof.
  intros Hlit. revert s. induction Hlit as [|a lit Ha Hlit IH]; intros s H.
  - by destruct s.
  - cbn [fnmatch_text] in H.
    destruct (Ascii.eqb_spec a "*"); [done|].
    destruct s as [|c s]; [done|].
    apply andb_true_iff in H as [->%Ascii.eqb_eq H]. f_equal. by apply IH.
Qed.

Lemma fnmatch_star pat s :
  fnmatch_text ("*"%char :: pat) s = true →
  ∃ pre rest, s = pre ++ rest ∧ fnmatch_text pat rest = true.
Proof.
  cbn [fnmatch_text]. rewrite Ascii.eqb_refl.
  induction s as [|c s IH]; intros H.
  - apply orb_true_iff in H as [H|H]; [|done]. by exists [], [].
  - apply orb_true_iff in H as [H|H]; [by exists [], (c :: s)|].
    destruct (IH H) as (pre & rest & -> & Hr). by exists (c :: pre), rest.
Qed.

Lemma fnmatch_css x :
  fnmatch "*.css" x = true → ∃ pre, txt x = pre ++ txt ".css".
Proof.
  unfold fnmatch. intros H. apply fnmatch_star in H as (pre & rest & Hx & Hr).
  apply fnmatch_literal in Hr; [|by repeat constructor]. subst. eauto.
Qed.

(** A backup of a theme is not itself taken for a theme. *)
Lemma css_not_patched x y : fnmatch "*.css" x = true → x ≠ y +:+ ".patched".
Proof.
  intros (pre & Hx)%fnmatch_css ->. rewrite txt_app in Hx.
  apply (f_equal (λ l, last l)) in Hx.
  change (txt ".patched") with (txt ".patche" ++ ["d"%char]) in Hx.
  change (txt ".css") with (txt ".cs" ++ ["s"%char]) in Hx.
  rewrite !(assoc_L (++)), !last_snoc in Hx. done.
Qed.

Lemma css_nonempty x : fnmatch "*.css" x = true → x ≠ "".
Proof. intros (pre & Hx)%fnmatch_css ->. by destruct pre. Qed.

Lemma patched_inj x y : x +:+ ".patched" = y +:+ ".patched" → x = y.
Proof.
  intros H. apply txt_inj. apply (f_equal txt) in H. rewrite !txt_app in H.
  by apply app_inv_tail in H.
Qed.

End Names.

(** ** Runs *)

Module Run.
Import Text FS Tree.
#[local] Open Scope script_scope.

(** [c] keeps the property [I] of the files, whether it succeeds or
    fails. *)
Definition preserves {A} (I : node → Prop) (c : M A) : Prop :=
  ∀ w, I (files w) → I (files (c w).2).

Lemma bind_ok {A B} (c : M A) (k : A → M B) w r w' :
  bind c k w = (inr r, w') →
  ∃ a w1, c w = (inr a, w1) ∧ k a w1 = (inr r, w').
Proof.
  unfold bind. destruct (c w) as [[e|a] w1]; [done|]. eauto.
Qed.

Lemma preserves_bind {A B} I (c : M A) (k : A → M B) :
  preserves I c → (∀ a, preserves I (k a)) → preserves I (bind c k).
Proof.
  intros Hc Hk w Hw. unfold bind. specialize (Hc w Hw).
  destruct (c w) as [[e|a] w1]; [done|]. by apply Hk.
Qed.

Lemma preserves_ret {A} I (a : A) : preserves I (ret a).
Proof. by intros w. Qed.

Lemma preserves_raise {A} I e : preserves I (@raise A e).
Proof. by intros w. Qed.

Lemma preserves_for_each {A} I (xs : list A) body :
  (∀ x, x ∈ xs → preserves I (body x)) → preserves I (for_each xs body).
Proof.
  induction xs as [|x xs IH]; intros H; simpl; [apply preserves_ret|].
  apply preserves_bind; [apply H; by left|].
  intros _. apply IH. intros y Hy. apply H. by right.
Qed.

Lemma for_each_ext {A} (xs : list A) f g w :
  (∀ x w, x ∈ xs → f x w = g x w) → for_each xs f w = for_each xs g w.
Proof.
  revert w. induction xs as [|x xs IH]; intros w H; simpl; [done|].
  unfold bind. rewrite (H x w) by by left.
  destruct (g x w) as [[e|[]] w1]; [done|].
  apply IH. intros y w2 Hy. apply H. by right.
Qed.

Lemma for_each_map {A B} (f : A → B) (xs : list A) body w :
  for_each (map f xs) body w = for_each xs (λ x, body (f x)) w.
Proof.
  revert w. induction xs as [|x xs IH]; intros w; simpl; [done|].
  unfold bind. destruct (body (f x) w) as [[e|[]] w1]; [done|]. apply IH.
Qed.

(** A successful loop has run its body on every element, in order. *)
Lemma for_each_ok {A} (P : list A → world → Prop) (xs : list A) body w w' :
  for_each xs body w = (inr (), w') →
  P [] w →
  (∀ done x w1 w2, P done w1 → body x w1 = (inr (), w2) → x ∈ xs →
                   P (done ++ [x]) w2) →
  P xs w'.
Proof.
  intros Hrun H0 Hstep.
  assert (∀ done rest w1,
    (∀ x, x ∈ rest → x ∈ xs) → P done w1 →
    for_each rest body w1 = (inr (), w') → P (done ++ rest) w') as Hgen.
  { intros done rest. revert done.
    induction rest as [|x rest IH]; intros done w1 Hin Hd Hr; simpl in Hr.
    - rewrite app_nil_r. unfold ret in Hr. by simplify_eq.
    - apply bind_ok in Hr as ([] & w2 & Hx & Hr).
      rewrite (cons_middle x), (assoc_L (++)).
      apply (IH _ w2); [intros y Hy; apply Hin; by right| |done].
      eapply Hstep; [done..|]. apply Hin. by left. }
  by apply (Hgen [] xs w).
Qed.

Lemma bind_ret_l {A B} (a : A) (k : A → M B) w : bind (ret a) k w = k a w.
Proof. done. Qed.

Lemma bind_assoc {A B C} (c : M A) (k : A → M B) (k' : B → M C) w :
  bind (bind c k) k' w = bind c (λ a, bind (k a) k') w.
Proof. unfold bind. by destruct (c w) as [[e|a] w1]. Qed.

Lemma bind_ext {A B} (c : M A) (k1 k2 : A → M B) w :
  (∀ a w1, k1 a w1 = k2 a w1) → bind c k1 w = bind c k2 w.
Proof. intros H. unfold bind. by destruct (c w) as [[e|a] w1]. Qed.

End Run.

(** ** Removing and copying trees *)

Module Trees.
Import Text FS Tree Names Run Gate.
#[local] Open Scope script_scope.

(** The names in the directory [d] that match [pat]. *)
Definition entries (d : path) (pat : string) (n : node) : list string :=
  match node_at d n with
  | Some (Dir m) => filter (λ x, fnmatch pat x = true) (map fst (map_to_list m))
  | _ => []
  end.

Lemma glob_entries d pat n :
  glob d pat n = map (λ x, d ++ [x]) (entries d pat n).
Proof. unfold glob, entries. by destruct (node_at d n) as [[|m]|]. Qed.

Lemma entries_elem d pat n x :
  x ∈ entries d pat n ↔
  fnmatch pat x = true ∧ is_Some (node_at (d ++ [x]) n).
Proof.
  unfold entries. rewrite node_at_app.
  destruct (node_at d n) as [[c|m]|].
  - split; [by intros ?%elem_of_nil|by intros [_ [? ?]]].
  - rewrite node_at_entry, list_elem_of_filter, list_elem_of_fmap.
    split.
    + intros [Hx ([y v] & -> & Hv)]. split; [done|].
      apply elem_of_map_to_list in Hv. by exists v.
    + intros [Hx [v Hv]]. split; [done|]. exists (x, v). split; [done|].
      by apply elem_of_map_to_list.
  - split; [by intros ?%elem_of_nil|by intros [_ [? ?]]].
Qed.

Lemma node_at_parent d x n v :
  node_at (d ++ [x]) n = Some v → ∃ m, node_at d n = Some (Dir m) ∧ m !! x = Some v.
Proof.
  rewrite node_at_app. destruct (node_at d n) as [[c|m]|]; try done.
  rewrite node_at_entry. eauto.
Qed.

Lemma diverge_not_prefix p q : diverge p q = true → ¬ q `prefix_of` p.
Proof.
  revert q. induction p as [|x p IH]; intros [|y q]; simpl; try done.
  destruct (String.eqb_spec x y) as [->|Hne].
  - intros Hd Hp. apply (IH q Hd). by eapply prefix_cons_inv_2.
  - intros _ Hp. apply prefix_cons_inv_1 in Hp. done.
Qed.

Lemma diverge_above d x q : diverge d q = true → diverge (d ++ [x]) q = true.
Proof. intros H. rewrite diverge_sym. apply diverge_below. by rewrite diverge_sym. Qed.

(** [makedirs] changes nothing but the directories on its way. *)
Lemma makedirs_frame_below p n n' q :
  makedirs p n = inr n' → ¬ q `prefix_of` p → node_at q n' = node_at q n.
Proof.
  revert n n' q. induction p as [|x p IH]; intros n n' q H Hq.
  - destruct n; simpl in H; by simplify_eq.
  - destruct q as [|y q]; [destruct Hq; apply prefix_nil|].
    destruct n as [|m]; [done|]. cbn [makedirs] in H.
    destruct (makedirs p (default (Dir ∅) (m !! x))) as [e|c] eqn:Hc;
      simplify_eq.
    cbn [node_at]. destruct (decide (x = y)) as [<-|Hxy].
    + rewrite lookup_insert_eq.
      assert (¬ q `prefix_of` p) as Hq' by (intros ?; apply Hq; by apply prefix_cons).
      rewrite (IH _ _ _ Hc Hq').
      destruct (m !! x) as [c0|]; simpl; [done|].
      destruct q as [|z q]; [destruct Hq'; apply prefix_nil|].
      cbn [node_at]. by rewrite lookup_empty.
    + by rewrite lookup_insert_ne.
Qed.

Lemma makedirs_dir p n n' :
  makedirs p n = inr n' →
  ∃ m, node_at p n' = Some (Dir m) ∧
       (node_at p n = None → m = ∅) ∧
       (∀ v, node_at p n = Some v → v = Dir m).
Proof.
  revert n n'. induction p as [|x p IH]; intros n n' H.
  - destruct n as [|m]; simpl in H; simplify_eq. exists m.
    split; [done|]. split; [done|]. intros v. simpl. by intros [= <-].
  - destruct n as [|m]; [done|]. cbn [makedirs] in H.
    destruct (makedirs p (default (Dir ∅) (m !! x))) as [e|c] eqn:Hc;
      simplify_eq.
    destruct (IH _ _ Hc) as (m' & H1 & H2 & H3). exists m'.
    cbn [node_at]. rewrite lookup_insert_eq. split; [done|].
    destruct (m !! x) as [c0|]; simpl in *.
    + by split.
    + split; [|done]. intros _. destruct p as [|z p].
      * simpl in Hc, H1. by simplify_eq.
      * apply H2. cbn [node_at]. by rewrite lookup_empty.
Qed.

Lemma rmtree_ok p n n' :
  rmtree p n = inr n' →
  node_at p n' = None ∧ ∀ q, diverge p q = true → node_at q n' = node_at q n.
Proof.
  unfold rmtree, at_path. intros H.
  destruct (update_at p _ n) as [e|n1] eqn:Hu; simplify_eq. split.
  - destruct (update_at_lookup _ _ _ _ Hu) as (r & Hr & ->).
    by destruct (node_at p n) as [[]|]; simplify_eq.
  - intros q Hq. by eapply update_at_frame.
Qed.


(** A successful [copytree]: the source is a directory, the destination
    did not exist and is now the tree of the source, and nothing apart from
    the destination has changed. *)
Lemma copytree_ok src dst n n' :
  copytree src dst n = inr n' →
  ∃ ms, node_at src n = Some (Dir ms) ∧
        node_at dst n = None ∧
        node_at dst n' = Some (Dir ms) ∧
        ∀ q, diverge dst q = true → node_at q n' = node_at q n.
Proof.
  unfold copytree, at_path. intros H.
  destruct (node_at src n) as [[|ms]|] eqn:Hs; try done.
  destruct (makedirs (removelast dst) n) as [e|n1] eqn:Hm; [done|].
  destruct (update_at dst _ n1) as [e|n2] eqn:Hu; simplify_eq.
  exists ms. split; [done|].
  destruct (update_at_lookup _ _ _ _ Hu) as (r & Hr & Hn').
  destruct (node_at dst n1) as [v|] eqn:Hd1; [done|]. simplify_eq.
  assert (dst ≠ []) as Hne by (intros ->; done).
  destruct (exists_last Hne) as (d & x & ->). rewrite removelast_last in Hm.
  split; [|split; [done|]].
  - destruct (node_at (d ++ [x]) n) as [v|] eqn:Hd; [|done].
    apply node_at_parent in Hd as (m & Hd & Hx).
    rewrite (makedirs_present _ _ _ Hd) in Hm. simplify_eq.
    rewrite node_at_app, Hd, node_at_entry in Hd1. congruence.
  - intros q Hq. rewrite (update_at_frame _ _ _ _ _ Hu Hq).
    eapply makedirs_frame_below; [done|].
    intros Hp. apply (diverge_not_prefix _ _ Hq).
    etrans; [done|]. by apply prefix_app_r.
Qed.

(** The same, seen from the directory that receives the copy. *)
Lemma copytree_into src d x n n' m :
  copytree src (d ++ [x]) n = inr n' → node_at d n = Some (Dir m) →
  ∃ ms, node_at src n = Some (Dir ms) ∧ m !! x = None ∧
        node_at d n' = Some (Dir (<[x := Dir ms]> m)).
Proof.
  unfold copytree, at_path. intros H Hd.
  destruct (node_at src n) as [[|ms]|] eqn:Hs; try done.
  rewrite removelast_last, (makedirs_present _ _ _ Hd) in H.
  destruct (update_at (d ++ [x]) _ n) as [e|n2] eqn:Hu; simplify_eq.
  destruct (update_at_parent _ _ _ _ _ Hu) as (m' & r & Hd' & Hr & Hn').
  rewrite Hd in Hd'. injection Hd' as <-. exists ms. split; [done|].
  destruct (m !! x) eqn:Hx; simplify_eq. by split.
Qed.

End Trees.

(** ** The patch functions as sequences of patch steps *)

Module Ops.
Import Text FS Tree Step Names Run Gate Trees.
#[local] Open Scope script_scope.

Section Paths.
Variable h : host.

Definition css : path := root h ++ ["export"; "reveal.js"; "css"; "reveal.css"].
Definition css_backup : path :=
  root h ++ ["export"; "reveal.js"; "css"; "reveal.css.upstream"].
Definition notes_js : path :=
  root h ++ ["export"; "reveal.js"; "plugin"; "notes"; "notes.js"].
Definition notes_js_backup : path :=
  root h ++ ["export"; "reveal.js"; "plugin"; "notes"; "notes.js.patched"].
Definition notes_html : path :=
  root h ++ ["export"; "reveal.js"; "plugin"; "notes"; "notes.html"].
Definition notes_html_backup : path :=
  root h ++ ["export"; "reveal.js"; "plugin"; "notes"; "notes.html.patched"].
Definition theme_dir : path := root h ++ ["export"; "reveal.js"; "css"; "theme"].
Definition theme (x : string) : path := theme_dir ++ [x].
Definition theme_backup (x : string) : path := theme_dir ++ [x +:+ ".patched"].
Definition chalkboard : path :=
  root h ++ ["export"; "reveal.js-chalkboard"; "chalkboard.js"].
Definition chalkboard_backup : path :=
  root h ++ ["export"; "reveal.js-chalkboard"; "chalkboard.js.patched"].

(** The command line of [git apply]. *)
Definition git_apply : list string := [
  "git"; "apply"; "--unsafe-paths";
  "--directory=export/reveal.js-chalkboard/";
  path_str (root h ++ ["chalkboard.js.patch"])
].

Definition css_step : M unit :=
  patch_step "patching export/reveal.js/css/reveal.css for RISE"
    css css_backup RiseReveal.comment_out.

Definition notes_js_step : M unit :=
  patch_step "patching export/reveal.js/plugin/notes/notes.js for RISE"
    notes_js notes_js_backup RiseReveal.loosen.

Definition notes_html_step : M unit :=
  patch_step "patching export/reveal.js/plugin/notes/notes.html for RISE"
    notes_html notes_html_backup RiseReveal.inject.

Definition theme_step (x : string) : M unit :=
  patch_step
    ("patching theme " +:+
     path_str ["export"; "reveal.js"; "css"; "theme"; x] +:+ " for RISE")
    (theme x) (theme_backup x) RiseReveal.patch_theme.

(** The names of the themes: the entries of the theme directory that
    match [*.css]. *)
Definition css_names (n : node) : list string :=
  entries theme_dir "*.css" n.

Definition themes_loop : M unit :=
  names <- query css_names ;; for_each names theme_step.

(** [patch_chalkboard] inside its gate: the backup is made as in a patch
    step, but then [git apply] works on the target as it is. *)
Definition chalkboard_step : M unit :=
  print "patching file export/reveal.js-chalkboard/chalkboard.js for RISE" ;;
  saved <- test (λ n, is_file n chalkboard_backup) ;;
  (if negb saved then fs_call (copy_file chalkboard chalkboard_backup)
   else ret ()) ;;
  check_output h git_apply.

Lemma patch_reveal_css_steps w :
  RiseReveal.patch_reveal_css h w =
    RiseReveal.require_npm_install h "patch_reveal_css" css_step w.
Proof.
  unfold RiseReveal.patch_reveal_css.
  change (joinpath (root h) "export/reveal.js/css/reveal.css") with css.
  cbv zeta. unfold css at 1. rewrite relative_to_root. reflexivity.
Qed.

Lemma patch_notes_steps w :
  RiseReveal.patch_notes h w =
    RiseReveal.require_npm_install h "patch_notes"
      (notes_js_step ;; notes_html_step) w.
Proof.
  unfold RiseReveal.patch_notes.
  change (joinpath (root h) "export/reveal.js/plugin/notes/notes.js")
    with notes_js.
  change (joinpath (root h) "export/reveal.js/plugin/notes/notes.html")
    with notes_html.
  cbv zeta. rewrite !rise_reveal_gate. destruct (is_dir _ _); [|done].
  unfold notes_js at 1. rewrite relative_to_root.
  cbn [from_option]. unfold notes_js_step, patch_step. rewrite bind_ret_l.
  rewrite bind_assoc. apply bind_ext. intros [] w1.
  rewrite bind_assoc. apply bind_ext. intros saved w2.
  rewrite bind_assoc. apply bind_ext. intros [] w3.
  rewrite bind_assoc. apply bind_ext. intros text w4.
  apply bind_ext. intros [] w5.
  unfold notes_html at 1. rewrite relative_to_root. reflexivity.
Qed.

Lemma theme_step_body x w :
  fnmatch "*.css" x = true →
  (rel <- from_option (ValueError "relative_to")
            (relative_to (theme x) (root h)) ;;
   print ("patching theme " +:+ path_str rel +:+ " for RISE") ;;
   upstream_css <- from_option (ValueError "with_suffix")
                     (with_suffix (theme x) (suffix (theme x) +:+ ".patched")) ;;
   saved <- test (λ n, is_file n upstream_css) ;;
   (if negb saved then fs_call (copy_file (theme x) upstream_css)
    else ret ()) ;;
   text <- read_text upstream_css ;;
   write_text_raw (theme x)
     (re_sub_multiline (txt "body {") RiseReveal.replacement_text text)) w
  = theme_step x w.
Proof.
  intros Hx. unfold theme at 1. unfold theme_dir at 1.
  rewrite <- (assoc_L (++)), relative_to_root.
  unfold theme at 1 2. rewrite with_suffix_patched by by apply css_nonempty.
  reflexivity.
Qed.

Lemma glob_themes n :
  glob theme_dir "*.css" n = map theme (css_names n).
Proof. apply glob_entries. Qed.

Lemma css_names_match n x : x ∈ css_names n → fnmatch "*.css" x = true.
Proof. by intros [? _]%entries_elem. Qed.

Lemma patch_reveal_themes_steps w :
  RiseReveal.patch_reveal_themes h w =
    RiseReveal.require_npm_install h "patch_reveal_themes" themes_loop w.
Proof.
  unfold RiseReveal.patch_reveal_themes.
  change (joinpath (root h) "export/reveal.js/css/theme/") with theme_dir.
  rewrite !rise_reveal_gate. destruct (is_dir _ _); [|done].
  unfold themes_loop, bind at 1 3, query. rewrite glob_themes, for_each_map.
  apply for_each_ext. intros x w1 Hx. apply theme_step_body.
  by apply (css_names_match (files w)).
Qed.

Lemma patch_chalkboard_steps w :
  RiseReveal.patch_chalkboard h w =
    RiseReveal.require_npm_install h "patch_chalkboard" chalkboard_step w.
Proof.
  unfold RiseReveal.patch_chalkboard.
  change (joinpath (root h) "export/reveal.js-chalkboard/chalkboard.js")
    with chalkboard.
  cbv zeta. unfold chalkboard at 1. rewrite relative_to_root. reflexivity.
Qed.

(** *** Targets and their backups *)

Inductive backup_pair : path → path → Prop :=
| pair_css : backup_pair css css_backup
| pair_notes_js : backup_pair notes_js notes_js_backup
| pair_notes_html : backup_pair notes_html notes_html_backup
| pair_chalkboard : backup_pair chalkboard chalkboard_backup
| pair_theme x : fnmatch "*.css" x = true → backup_pair (theme x) (theme_backup x).

Ltac apart :=
  unfold css, css_backup, notes_js, notes_js_backup, notes_html,
    notes_html_backup, chalkboard, chalkboard_backup, theme, theme_backup,
    theme_dir;
  rewrite <- ?(assoc_L (++)), diverge_app; reflexivity.

Lemma patched_other x : x ≠ x +:+ ".patched".
Proof.
  intros H. apply (f_equal (λ s, length (txt s))) in H.
  rewrite txt_app, length_app in H. simpl in H. lia.
Qed.

Lemma pair_apart t b : backup_pair t b → diverge t b = true.
Proof.
  destruct 1; try apart. apply diverge_names, patched_other.
Qed.

(** Two pairs are the same pair, or all their paths part ways. *)
Lemma pairs_apart t b t' b' :
  backup_pair t b → backup_pair t' b' →
  (t = t' ∧ b = b') ∨
  (diverge t' t = true ∧ diverge t' b = true ∧
   diverge b' t = true ∧ diverge b' b = true).
Proof.
  destruct 1 as [| | | |x Hx]; destruct 1 as [| | | |x' Hx'];
    try (by left); try (right; repeat split; apart).
  destruct (decide (x = x')) as [->|Hne]; [by left|right].
  unfold theme, theme_backup. repeat split; apply diverge_names; try done.
  - by apply css_not_patched.
  - intros H. symmetry in H. by apply css_not_patched in H.
  - by intros ?%patched_inj.
Qed.

(** What the work on one pair does to the files: it touches the target
    and the backup only, it keeps a backup that exists, and it makes a
    backup that does not exist from the target as it is, before it
    writes the target. *)
Record step_like (t b : path) (c : M unit) : Prop := StepLike {
  step_frame : ∀ w q,
    diverge t q = true → diverge b q = true →
    node_at q (files (c w).2) = node_at q (files w);
  step_keeps : ∀ w d,
    node_at b (files w) = Some (File d) →
    node_at b (files (c w).2) = Some (File d);
  step_first : ∀ w,
    node_at b (files w) = None →
    (node_at b (files (c w).2) = None ∧
     node_at t (files (c w).2) = node_at t (files w)) ∨
    (∃ d, node_at t (files w) = Some (File d) ∧
          node_at b (files (c w).2) = Some (File d))
}.

Lemma patch_step_like msg t b T :
  diverge t b = true → step_like t b (patch_step msg t b T).
Proof.
  intros Hd. split.
  - intros. by apply patch_step_frame.
  - intros. by apply patch_step_keeps_backup.
  - intros. by apply patch_step_first.
Qed.

(** [git apply] changes the target and nothing else. *)
Definition git_scope : Prop :=
  ∀ n n' q, exec h git_apply n = Some n' →
            diverge chalkboard q = true → node_at q n' = node_at q n.

Lemma chalkboard_step_like :
  git_scope → step_like chalkboard chalkboard_backup chalkboard_step.
Proof.
  intros Hgit.
  assert (diverge chalkboard chalkboard_backup = true) as Hd by apart.
  split.
  - intros w q Ht Hb. unfold chalkboard_step, bind, print, test, fs_call,
      check_output, ret. simpl.
    destruct (is_file (files w) chalkboard_backup); simpl.
    + destruct (exec h git_apply (files w)) as [n'|] eqn:He; simpl; [|done].
      by apply (Hgit _ _ _ He).
    + destruct (copy_file _ _ (files w)) as [[e p]|n1] eqn:Hc; simpl; [done|].
      destruct (copy_file_ok _ _ _ _ Hc) as (c & _ & Hf & _).
      destruct (exec h git_apply n1) as [n'|] eqn:He; simpl; [|by apply Hf].
      rewrite (Hgit _ _ _ He) by done. by apply Hf.
  - intros w d Hb. unfold chalkboard_step, bind, print, test, fs_call,
      check_output, ret. simpl. unfold is_file. rewrite Hb. simpl.
    destruct (exec h git_apply (files w)) as [n'|] eqn:He; simpl; [|done].
    by rewrite (Hgit _ _ _ He).
  - intros w Hb. unfold chalkboard_step, bind, print, test, fs_call,
      check_output, ret. simpl. unfold is_file. rewrite Hb. simpl.
    destruct (copy_file _ _ (files w)) as [[e p]|n1] eqn:Hc; simpl;
      [by left|].
    destruct (copy_file_ok _ _ _ _ Hc) as (c & Ht & Hf & Hn & _).
    assert (node_at chalkboard_backup n1 = Some (File c)) as Hb1
      by (apply Hn; unfold is_dir; by rewrite Hb).
    right. exists c. split; [done|].
    destruct (exec h git_apply n1) as [n'|] eqn:He; simpl; [|done].
    by rewrite (Hgit _ _ _ He).
Qed.

(** *** The patch commands *)

Inductive patch_command :=
| PatchRevealCss | PatchNotes | PatchRevealThemes | PatchChalkboard | PatchAll.

Definition run_command (cmd : patch_command) : M unit :=
  match cmd with
  | PatchRevealCss => RiseReveal.patch_reveal_css h
  | PatchNotes => RiseReveal.patch_notes h
  | PatchRevealThemes => RiseReveal.patch_reveal_themes h
  | PatchChalkboard => RiseReveal.patch_chalkboard h
  | PatchAll => RiseReveal.patch h
  end.


(** The command that works on a pair; [patch] works on all. *)
Inductive owner : patch_command → path → path → Prop :=
| owner_css : owner PatchRevealCss css css_backup
| owner_notes_js : owner PatchNotes notes_js notes_js_backup
| owner_notes_html : owner PatchNotes notes_html notes_html_backup
| owner_theme x :
    fnmatch "*.css" x = true →
    owner PatchRevealThemes (theme x) (theme_backup x)
| owner_chalkboard : owner PatchChalkboard chalkboard chalkboard_backup
| owner_all t b : backup_pair t b → owner PatchAll t b.

(** The state of a pair whose backup did not exist in [n0]: either there
    is still no backup and the target is as it was, or the backup is a
    file that holds what the target held in [n0]. *)
Definition pristine (n0 : node) (t b : path) (n : node) : Prop :=
  (node_at b n = None ∧ node_at t n = node_at t n0) ∨
  (∃ d, node_at t n0 = Some (File d) ∧ node_at b n = Some (File d)).

(** A property of the files that the work on any pair keeps. *)
Definition stable (I : node → Prop) : Prop :=
  ∀ t' b' c, backup_pair t' b' → step_like t' b' c → preserves I c.

Lemma preserves_ext {A} I (c c' : M A) :
  (∀ w, c w = c' w) → preserves I c' → preserves I c.
Proof. intros Heq Hc w Hw. rewrite Heq. by apply Hc. Qed.

Lemma preserves_gate I name f :
  preserves I f → preserves I (RiseReveal.require_npm_install h name f).
Proof.
  intros Hf w Hw. rewrite rise_reveal_gate.
  destruct (is_dir _ _); [by apply Hf|done].
Qed.

Lemma css_step_like : step_like css css_backup css_step.
Proof. apply patch_step_like, pair_apart. constructor. Qed.

Lemma notes_js_step_like : step_like notes_js notes_js_backup notes_js_step.
Proof. apply patch_step_like, pair_apart. constructor. Qed.

Lemma notes_html_step_like :
  step_like notes_html notes_html_backup notes_html_step.
Proof. apply patch_step_like, pair_apart. constructor. Qed.

Lemma theme_step_like x :
  fnmatch "*.css" x = true → step_like (theme x) (theme_backup x) (theme_step x).
Proof. intros Hx. apply patch_step_like, pair_apart. by constructor. Qed.

Lemma stable_themes_loop I : stable I → preserves I themes_loop.
Proof.
  intros HI w Hw. unfold themes_loop, bind, query.
  apply (preserves_for_each I (css_names (files w)) theme_step); [|done].
  intros x Hx. apply css_names_match in Hx.
  eapply HI; [by constructor|by apply theme_step_like].
Qed.

Lemma stable_css I : stable I → preserves I (RiseReveal.patch_reveal_css h).
Proof.
  intros HI. eapply preserves_ext; [apply patch_reveal_css_steps|].
  apply preserves_gate. eapply HI; [constructor|apply css_step_like].
Qed.

Lemma stable_notes I : stable I → preserves I (RiseReveal.patch_notes h).
Proof.
  intros HI. eapply preserves_ext; [apply patch_notes_steps|].
  apply preserves_gate, preserves_bind.
  - eapply HI; [constructor|apply notes_js_step_like].
  - intros _. eapply HI; [constructor|apply notes_html_step_like].
Qed.

Lemma stable_themes I : stable I → preserves I (RiseReveal.patch_reveal_themes h).
Proof.
  intros HI. eapply preserves_ext; [apply patch_reveal_themes_steps|].
  by apply preserves_gate, stable_themes_loop.
Qed.

Lemma stable_chalkboard I :
  git_scope → stable I → preserves I (RiseReveal.patch_chalkboard h).
Proof.
  intros Hgit HI. eapply preserves_ext; [apply patch_chalkboard_steps|].
  apply preserves_gate. eapply HI; [constructor|by apply chalkboard_step_like].
Qed.

Lemma stable_command I cmd :
  git_scope → stable I → preserves I (run_command cmd).
Proof.
  intros Hgit HI. destruct cmd; simpl.
  - by apply stable_css.
  - by apply stable_notes.
  - by apply stable_themes.
  - by apply stable_chalkboard.
  - unfold RiseReveal.patch. apply preserves_gate.
    apply preserves_bind; [by apply stable_css|intros _].
    apply preserves_bind; [by apply stable_notes|intros _].
    apply preserves_bind; [by apply stable_themes|intros _].
    by apply stable_chalkboard.
Qed.

Lemma stable_kept t b d :
  backup_pair t b → stable (λ n, node_at b n = Some (File d)).
Proof.
  intros Hp t' b' c Hp' Hc w Hw.
  destruct (pairs_apart _ _ _ _ Hp Hp') as [[<- <-]|(_ & H1 & _ & H2)].
  - by apply (step_keeps _ _ _ Hc).
  - by rewrite (step_frame _ _ _ Hc).
Qed.

Lemma stable_pristine n0 t b :
  backup_pair t b → stable (pristine n0 t b).
Proof.
  intros Hp t' b' c Hp' Hc w Hw. unfold pristine in *.
  destruct (pairs_apart _ _ _ _ Hp Hp') as [[<- <-]|(H1 & H2 & H3 & H4)].
  - destruct Hw as [[Hb Ht]|(d & Ht & Hb)].
    + destruct (step_first _ _ _ Hc w Hb) as [[Hb' Ht']|(d & Ht' & Hb')].
      * left. split; [done|congruence].
      * right. exists d. split; [congruence|done].
    + right. exists d. split; [done|]. by apply (step_keeps _ _ _ Hc).
  - by rewrite !(step_frame _ _ _ Hc).
Qed.

(** *** After a successful run *)

(** The backup is a file and the target is the transformation of what
    text mode reads from it. *)
Definition patched (t b : path) (T : text → text) (n : node) : Prop :=
  ∃ c, node_at b n = Some (File c) ∧
       node_at t n = Some (File (T (universal_newlines c))).

Lemma patched_frame t b T n n' :
  patched t b T n → node_at t n' = node_at t n → node_at b n' = node_at b n →
  patched t b T n'.
Proof. intros (c & Hb & Ht) Ht' Hb'. exists c. by rewrite Ht', Hb'. Qed.

Lemma patch_step_patched msg t b T w w' :
  diverge t b = true → patch_step msg t b T w = (inr (), w') →
  patched t b T (files w').
Proof.
  intros Hd Hrun. destruct (patch_step_ok msg t b T Hd w w' Hrun)
    as (c & Hb & Ht & _). by exists c.
Qed.

Lemma gate_ok name f w w' :
  RiseReveal.require_npm_install h name f w = (inr (), w') →
  is_dir (files w) (node_modules h) = true ∧ f w = (inr (), w').
Proof. rewrite rise_reveal_gate. by destruct (is_dir _ _). Qed.

Lemma css_names_elem n x :
  x ∈ css_names n ↔
  fnmatch "*.css" x = true ∧ is_Some (node_at (theme x) n).
Proof. apply entries_elem. Qed.

Lemma css_ok w w' :
  RiseReveal.patch_reveal_css h w = (inr (), w') →
  patched css css_backup RiseReveal.comment_out (files w').
Proof.
  rewrite patch_reveal_css_steps. intros [_ Hrun]%gate_ok.
  eapply patch_step_patched; [|done]. apply pair_apart. constructor.
Qed.

Lemma notes_ok w w' :
  RiseReveal.patch_notes h w = (inr (), w') →
  patched notes_js notes_js_backup RiseReveal.loosen (files w') ∧
  patched notes_html notes_html_backup RiseReveal.inject (files w').
Proof.
  rewrite patch_notes_steps. intros [_ Hrun]%gate_ok.
  apply bind_ok in Hrun as ([] & w1 & Hjs & Hhtml). split.
  - eapply patched_frame.
    + eapply patch_step_patched; [|exact Hjs]. apply pair_apart. constructor.
    + pose proof (step_frame _ _ _ notes_html_step_like w1 notes_js) as Hf.
      rewrite Hhtml in Hf. apply Hf; apart.
    + pose proof (step_frame _ _ _ notes_html_step_like w1 notes_js_backup)
        as Hf.
      rewrite Hhtml in Hf. apply Hf; apart.
  - eapply patch_step_patched; [|exact Hhtml]. apply pair_apart. constructor.
Qed.

Lemma themes_loop_ok names w w' :
  (∀ x, x ∈ names → fnmatch "*.css" x = true) →
  for_each names theme_step w = (inr (), w') →
  ∀ x, x ∈ names →
    patched (theme x) (theme_backup x) RiseReveal.patch_theme (files w').
Proof.
  intros Hnames Hrun.
  cut (∀ x, x ∈ names →
         fnmatch "*.css" x = true ∧
         patched (theme x) (theme_backup x) RiseReveal.patch_theme (files w')).
  { intros Hall x Hx. by apply Hall. }
  apply (for_each_ok
           (λ done w1, ∀ x, x ∈ done →
              fnmatch "*.css" x = true ∧
              patched (theme x) (theme_backup x) RiseReveal.patch_theme
                (files w1)) names theme_step w w' Hrun).
  - by intros x ?%elem_of_nil.
  - intros done x w1 w2 Hdone Hx Hin y Hy.
    pose proof (Hnames x Hin) as Hmx.
    apply elem_of_app in Hy as [Hy|Hy%list_elem_of_singleton].
    + destruct (Hdone y Hy) as [Hmy Hp]. split; [done|].
      destruct (decide (y = x)) as [->|Hne].
      * eapply patch_step_patched; [|exact Hx].
        apply pair_apart. by constructor.
      * pose proof (step_frame _ _ _ (theme_step_like x Hmx) w1) as Hf.
        rewrite Hx in Hf.
        destruct (pairs_apart (theme y) (theme_backup y) (theme x)
                    (theme_backup x)) as [[Heq _]|(H1 & H2 & H3 & H4)];
          [by constructor|by constructor| |].
        { apply app_inj_tail in Heq as [_ ?]. done. }
        eapply patched_frame; [done|by apply Hf..].
    + subst y. split; [done|]. eapply patch_step_patched; [|exact Hx].
      apply pair_apart. by constructor.
Qed.

Lemma themes_ok w w' :
  RiseReveal.patch_reveal_themes h w = (inr (), w') →
  ∀ x, x ∈ css_names (files w) →
    patched (theme x) (theme_backup x) RiseReveal.patch_theme (files w').
Proof.
  rewrite patch_reveal_themes_steps. intros [_ Hrun]%gate_ok.
  unfold themes_loop, bind, query in Hrun.
  eapply themes_loop_ok; [|done]. intros x. apply css_names_match.
Qed.

Lemma chalkboard_ok w w' :
  git_scope → node_at chalkboard_backup (files w) = None →
  RiseReveal.patch_chalkboard h w = (inr (), w') →
  ∃ d, node_at chalkboard_backup (files w') = Some (File d).
Proof.
  intros Hgit Hb. rewrite patch_chalkboard_steps. intros [_ Hrun]%gate_ok.
  revert Hrun. unfold chalkboard_step, bind, print, test, fs_call,
    check_output, ret. simpl. unfold is_file. rewrite Hb. simpl.
  destruct (copy_file _ _ (files w)) as [[e p]|n1] eqn:Hc; simpl; [done|].
  destruct (copy_file_ok _ _ _ _ Hc) as (c & Ht & Hf & Hn & _).
  assert (node_at chalkboard_backup n1 = Some (File c)) as Hb1
    by (apply Hn; unfold is_dir; by rewrite Hb).
  destruct (exec h git_apply n1) as [n'|] eqn:He; simpl; [|done].
  intros [= <-]. simpl. exists c. rewrite (Hgit _ _ _ He); [done|].
  unfold chalkboard, chalkboard_backup. by rewrite diverge_app.
Qed.

Lemma kept t b cmd w d :
  git_scope → backup_pair t b →
  node_at b (files w) = Some (File d) →
  node_at b (files (run_command cmd w).2) = Some (File d).
Proof.
  intros Hgit Hp. apply (stable_command _ cmd Hgit (stable_kept t b d Hp)).
Qed.

Lemma kept_pristine n0 t b cmd w :
  git_scope → backup_pair t b →
  pristine n0 t b (files w) → pristine n0 t b (files (run_command cmd w).2).
Proof.
  intros Hgit Hp. apply (stable_command _ cmd Hgit (stable_pristine n0 t b Hp)).
Qed.

Lemma owner_pair cmd t b : owner cmd t b → backup_pair t b.
Proof. destruct 1; by try constructor. Qed.

(** A successful run of the command that works on a pair leaves a
    backup, provided the target was there. *)
Lemma backup_made_single cmd t b w w' :
  git_scope → cmd ≠ PatchAll → owner cmd t b →
  node_at b (files w) = None → is_Some (node_at t (files w)) →
  run_command cmd w = (inr (), w') →
  ∃ d, node_at b (files w') = Some (File d).
Proof.
  intros Hgit Hcmd Ho Hb Ht Hrun. destruct Ho; simpl in Hrun.
  - destruct (css_ok _ _ Hrun) as (c & ? & _). eauto.
  - destruct (notes_ok _ _ Hrun) as [(c & ? & _) _]. eauto.
  - destruct (notes_ok _ _ Hrun) as [_ (c & ? & _)]. eauto.
  - destruct (themes_ok _ _ Hrun x) as (c & ? & _); [|by eauto].
    by apply css_names_elem.
  - by eapply chalkboard_ok.
  - done.
Qed.

(** The command of the four that works on a pair. *)
Definition single (t b : path) (cmd : patch_command) : Prop :=
  cmd ≠ PatchAll ∧ owner cmd t b.

Lemma pair_single t b : backup_pair t b → ∃ cmd, single t b cmd.
Proof.
  destruct 1.
  - exists PatchRevealCss. split; [done|constructor].
  - exists PatchNotes. split; [done|constructor].
  - exists PatchNotes. split; [done|constructor].
  - exists PatchChalkboard. split; [done|constructor].
  - exists PatchRevealThemes. split; [done|by constructor].
Qed.

(** One successful step of a sequence: before it the pair is pristine;
    after it the backup exists if it existed before or the step was by
    the command of the pair. *)
Lemma backup_made_step n0 t b cmd own w w' :
  git_scope → single t b own → is_Some (node_at t n0) →
  cmd ≠ PatchAll →
  pristine n0 t b (files w) →
  run_command cmd w = (inr (), w') →
  (is_Some (node_at b (files w)) ∨ cmd = own) →
  pristine n0 t b (files w') ∧ is_Some (node_at b (files w')).
Proof.
  intros Hgit [Hown Ho] Ht0 Hcmd Hpr Hrun Hcase.
  pose proof (owner_pair _ _ _ Ho) as Hp.
  pose proof (kept_pristine n0 t b cmd w Hgit Hp Hpr) as Hpr'.
  rewrite Hrun in Hpr'. simpl in Hpr'. split; [done|].
  destruct Hpr as [[Hb Ht]|(d & Ht & Hb)].
  - destruct Hcase as [[? Hs]| ->]; [congruence|].
    destruct (backup_made_single own t b w w' Hgit Hown Ho Hb) as (d & Hd);
      [by rewrite Ht|done|by rewrite Hd].
  - pose proof (kept t b cmd w d Hgit Hp Hb) as Hk.
    rewrite Hrun in Hk. simpl in Hk. by rewrite Hk.
Qed.

Lemma backup_made cmd t b w w' :
  git_scope → owner cmd t b →
  node_at b (files w) = None → is_Some (node_at t (files w)) →
  run_command cmd w = (inr (), w') →
  ∃ d, node_at b (files w') = Some (File d).
Proof.
  intros Hgit Ho Hb Ht Hrun.
  assert (cmd = PatchAll ∨ cmd ≠ PatchAll) as [->|Hcmd]
    by (destruct cmd; ((by left) || (by right)));
    [|by eapply backup_made_single].
  inversion Ho as [| | | | |t' b' Hp]; subst.
  destruct (pair_single t b Hp) as (own & Hown).
  simpl in Hrun. unfold RiseReveal.patch in Hrun.
  apply gate_ok in Hrun as [_ Hrun].
  apply bind_ok in Hrun as ([] & w1 & H1 & Hrun).
  apply bind_ok in Hrun as ([] & w2 & H2 & Hrun).
  apply bind_ok in Hrun as ([] & w3 & H3 & H4).
  assert (pristine (files w) t b (files w)) as Hpr0 by (by left).
  assert (∀ cmd wa wb, cmd ≠ PatchAll →
            pristine (files w) t b (files wa) →
            run_command cmd wa = (inr (), wb) →
            (is_Some (node_at b (files wa)) ∨ cmd = own) →
            pristine (files w) t b (files wb) ∧
            is_Some (node_at b (files wb))) as Hstep.
  { intros. by eapply backup_made_step. }
  assert (∀ cmd wa wb, pristine (files w) t b (files wa) →
            run_command cmd wa = (inr (), wb) →
            pristine (files w) t b (files wb)) as Hkeep.
  { intros c wa wb Hpr Hr.
    pose proof (kept_pristine (files w) t b c wa Hgit Hp Hpr) as Hk.
    by rewrite Hr in Hk. }
  pose proof (Hkeep PatchRevealCss _ _ Hpr0 H1) as Hpr1.
  pose proof (Hkeep PatchNotes _ _ Hpr1 H2) as Hpr2.
  pose proof (Hkeep PatchRevealThemes _ _ Hpr2 H3) as Hpr3.
  assert (is_Some (node_at b (files w'))) as [node Hnode].
  { destruct Hown as [Hne Hown]. destruct own; try done.
    - destruct (Hstep PatchRevealCss w w1) as [_ Hs1]; [done..|by right|].
      destruct (Hstep PatchNotes w1 w2) as [_ Hs2]; [done..|by left|].
      destruct (Hstep PatchRevealThemes w2 w3) as [_ Hs3]; [done..|by left|].
      by destruct (Hstep PatchChalkboard w3 w') as [_ Hs4]; [done..|by left|].
    - destruct (Hstep PatchNotes w1 w2) as [_ Hs2]; [done..|by right|].
      destruct (Hstep PatchRevealThemes w2 w3) as [_ Hs3]; [done..|by left|].
      by destruct (Hstep PatchChalkboard w3 w') as [_ Hs4]; [done..|by left|].
    - destruct (Hstep PatchRevealThemes w2 w3) as [_ Hs3]; [done..|by right|].
      by destruct (Hstep PatchChalkboard w3 w') as [_ Hs4]; [done..|by left|].
    - by destruct (Hstep PatchChalkboard w3 w') as [_ Hs4]; [done..|by right|]. }
  pose proof (Hkeep PatchChalkboard _ _ Hpr3 H4) as [[Hnone _]|(d & _ & Hd)];
    [congruence|eauto].
Qed.



End Paths.
End Ops.

(** ** The vendor copies *)

Module Copies.
Import Text FS Tree Names Run Gate Trees.
#[local] Open Scope script_scope.


Lemma fs_call_ok f w w' :
  fs_call f w = (inr (), w') → f (files w) = inr (files w').
Proof.
  unfold fs_call. destruct (f (files w)) as [[e p]|n]; [done|].
  by intros [= <-].
Qed.

Lemma test_ok f w b w' : test f w = (inr b, w') → b = f (files w) ∧ w' = w.
Proof. unfold test. by intros [= <- <-]. Qed.

Section RiseReveal.
Variable h : host.

Definition export : path := root h ++ ["export"].
Definition reveal_js : path := root h ++ ["node_modules"; "reveal.js"].
Definition chalkboard_plugin : path :=
  root h ++ ["node_modules"; "reveal.js-plugins"; "chalkboard"].

(** The first two steps of [copy] leave an empty [export]. *)
Lemma export_emptied w w1 w2 present :
  test (λ n, is_dir n export) w = (inr present, w1) →
  ((if present then fs_call (rmtree export) else ret ()) ;;
   fs_call (λ n, at_path export (makedirs export n))) w1 = (inr (), w2) →
  node_at export (files w2) = Some (Dir ∅) ∧
  ∀ q, diverge export q = true → node_at q (files w2) = node_at q (files w).
Proof.
  intros [Hp Hw]%test_ok Hrun. subst w1 present.
  apply bind_ok in Hrun as ([] & w3 & Hrm & Hmk).
  apply fs_call_ok in Hmk. unfold at_path in Hmk.
  destruct (makedirs export (files w3)) as [e|n2] eqn:Hm; simplify_eq.
  destruct (makedirs_dir _ _ _ Hm) as (m & Hm1 & Hm2 & Hm3).
  assert (∀ q, diverge export q = true →
               node_at q (files w2) = node_at q (files w3)) as Hf2.
  { intros q Hq. eapply makedirs_frame_below; [done|].
    by apply diverge_not_prefix. }
  destruct (is_dir (files w) export) eqn:Hd.
  - apply fs_call_ok, rmtree_ok in Hrm as [Hgone Hf1].
    rewrite (Hm2 Hgone) in Hm1. split; [done|].
    intros q Hq. by rewrite Hf2, Hf1.
  - unfold ret in Hrm. simplify_eq. split; [|done].
    unfold is_dir in Hd.
    destruct (node_at export (files w3)) as [v|] eqn:Hv.
    + specialize (Hm3 v eq_refl). subst v. done.
    + by rewrite (Hm2 eq_refl) in Hm1.
Qed.

(** After a successful [copy], [export] holds the two trees, under their
    names, and nothing else; nothing apart from [export] has changed. *)
Lemma copy_mirrors w w' :
  RiseReveal.copy h w = (inr (), w') →
  ∃ m1 m2,
    node_at reveal_js (files w) = Some (Dir m1) ∧
    node_at chalkboard_plugin (files w) = Some (Dir m2) ∧
    node_at export (files w') =
      Some (Dir (<["reveal.js-chalkboard" := Dir m2]> (<["reveal.js" := Dir m1]> ∅))) ∧
    ∀ q, diverge export q = true → node_at q (files w') = node_at q (files w).
Proof.
  unfold RiseReveal.copy. rewrite rise_reveal_gate.
  destruct (is_dir _ _); [|done].
  change (joinpath (root h) "export") with export.
  change (joinpath (root h) "node_modules/reveal.js/") with reveal_js.
  change (joinpath (root h) "export/reveal.js/")
    with (root h ++ ["export"; "reveal.js"]).
  change (joinpath (root h) "node_modules/reveal.js-plugins/chalkboard/")
    with chalkboard_plugin.
  change (joinpath (root h) "export/reveal.js-chalkboard/")
    with (root h ++ ["export"; "reveal.js-chalkboard"]).
  intros Hrun. apply bind_ok in Hrun as (present & w1 & Htest & Hrun).
  rewrite <- bind_assoc in Hrun.
  apply bind_ok in Hrun as ([] & w2 & Hempty & Hrun).
  destruct (export_emptied _ _ _ _ Htest Hempty) as [He Hf].
  apply bind_ok in Hrun as ([] & w3 & Hc1 & Hc2).
  apply fs_call_ok in Hc1, Hc2.
  replace (root h ++ ["export"; "reveal.js"]) with (export ++ ["reveal.js"])
    in Hc1 by (unfold export; by rewrite <- (assoc_L (++))).
  replace (root h ++ ["export"; "reveal.js-chalkboard"])
    with (export ++ ["reveal.js-chalkboard"])
    in Hc2 by (unfold export; by rewrite <- (assoc_L (++))).
  pose proof (copytree_ok _ _ _ _ Hc1) as (m1' & _ & _ & _ & Hf1).
  pose proof (copytree_ok _ _ _ _ Hc2) as (m2' & _ & _ & _ & Hf2).
  destruct (copytree_into _ _ _ _ _ _ Hc1 He) as (m1 & Hs1 & _ & He1).
  destruct (copytree_into _ _ _ _ _ _ Hc2 He1) as (m2 & Hs2 & _ & He2).
  assert (diverge export reveal_js = true) as Hd1
    by (unfold export, reveal_js; by rewrite diverge_app).
  assert (diverge export chalkboard_plugin = true) as Hd2
    by (unfold export, chalkboard_plugin; by rewrite diverge_app).
  exists m1, m2. split; [|split; [|split; [done|]]].
  - by rewrite <- Hf.
  - rewrite <- Hf, <- Hf1; [done|by apply diverge_above|done].
  - intros q Hq. rewrite Hf2, Hf1, Hf; [done..| |]; by apply diverge_above.
Qed.

End RiseReveal.

Section Classic.
Variable h : host.

Definition rise_reveal_export : path :=
  removelast (root h) ++ ["rise-reveal"; "export"].

(** The trees that [install_rise_reveal] finds. *)
Definition vendored (n : node) : list string :=
  entries rise_reveal_export "reveal.js*" n.





End Classic.

(** Path by path: below [export] there is what the sources have, and
    nothing else. *)
Lemma copy_relative h w w' x q :
  RiseReveal.copy h w = (inr (), w') →
  node_at (export h ++ x :: q) (files w') =
    if decide (x = "reveal.js") then node_at (reveal_js h ++ q) (files w)
    else if decide (x = "reveal.js-chalkboard")
         then node_at (chalkboard_plugin h ++ q) (files w)
         else None.
Proof.
  intros (m1 & m2 & H1 & H2 & He & _)%copy_mirrors.
  rewrite !node_at_app, He, H1, H2. cbn [node_at].
  destruct (decide (x = "reveal.js")) as [->|Hx1].
  - by rewrite lookup_insert_ne, lookup_insert_eq.
  - destruct (decide (x = "reveal.js-chalkboard")) as [->|Hx2].
    + by rewrite lookup_insert_eq.
    + by rewrite !lookup_insert_ne, lookup_empty.
Qed.


End Copies.

(** ** Clean *)

Module Clean.
Import Text FS Tree Names Run Gate Trees Copies.
#[local] Open Scope script_scope.
















Section Scripts.
Variable h : host.









End Scripts.


End Clean.

(** ** Running a patch command again *)

Module Again.
Import Text FS Tree Step Names Run Gate Ops.
#[local] Open Scope script_scope.


Section Commands.
Variable h : host.

Lemma gate_again name f w w1 :
  RiseReveal.require_npm_install h name f w = (inr (), w1) →
  node_at (node_modules h) (files w1) = node_at (node_modules h) (files w) →
  ∀ w2, f w1 = (inr (), w2) →
        RiseReveal.require_npm_install h name f w1 = (inr (), w2).
Proof.
  intros [Hd _]%gate_ok Hsame w2 Hf. rewrite rise_reveal_gate.
  unfold is_dir in *. by rewrite Hsame, Hd.
Qed.

Lemma modules_apart t b :
  backup_pair h t b →
  diverge t (node_modules h) = true ∧ diverge b (node_modules h) = true.
Proof.
  destruct 1; split;
    unfold css, css_backup, notes_js, notes_js_backup, notes_html,
      notes_html_backup, chalkboard, chalkboard_backup, theme, theme_backup,
      theme_dir, node_modules;
    rewrite <- ?(assoc_L (++)), diverge_app; reflexivity.
Qed.

Lemma step_keeps_modules t b c w w' :
  backup_pair h t b → step_like t b c → c w = (inr (), w') →
  node_at (node_modules h) (files w') = node_at (node_modules h) (files w).
Proof.
  intros Hp Hc Hrun. destruct (modules_apart t b Hp) as [H1 H2].
  pose proof (step_frame _ _ _ Hc w (node_modules h) H1 H2) as Hf.
  by rewrite Hrun in Hf.
Qed.

Lemma css_twice w w1 :
  RiseReveal.patch_reveal_css h w = (inr (), w1) →
  ∃ w2, RiseReveal.patch_reveal_css h w1 = (inr (), w2) ∧ files w2 = files w1.
Proof.
  intros Hrun. destruct (css_ok h _ _ Hrun) as (c & Hb & Ht).
  rewrite patch_reveal_css_steps in Hrun.
  destruct (patch_step_again
              "patching export/reveal.js/css/reveal.css for RISE"
              (css h) (css_backup h) RiseReveal.comment_out w1 c Hb Ht)
    as (w2 & Hagain & Hfiles).
  exists w2. split; [|done]. rewrite patch_reveal_css_steps.
  eapply gate_again; [done| |done].
  pose proof (gate_ok h _ _ _ _ Hrun) as [_ Hstep].
  eapply step_keeps_modules; [|apply css_step_like|done]. constructor.
Qed.

Lemma notes_twice w w1 :
  RiseReveal.patch_notes h w = (inr (), w1) →
  ∃ w2, RiseReveal.patch_notes h w1 = (inr (), w2) ∧ files w2 = files w1.
Proof.
  intros Hrun.
  destruct (notes_ok h _ _ Hrun) as [(c & Hb & Ht) (c' & Hb' & Ht')].
  rewrite patch_notes_steps in Hrun.
  destruct (patch_step_again
              "patching export/reveal.js/plugin/notes/notes.js for RISE"
              (notes_js h) (notes_js_backup h) RiseReveal.loosen w1 c Hb Ht)
    as (wa & Hjs & Hfa).
  rewrite <- Hfa in Hb', Ht'.
  destruct (patch_step_again
              "patching export/reveal.js/plugin/notes/notes.html for RISE"
              (notes_html h) (notes_html_backup h) RiseReveal.inject wa c' Hb' Ht')
    as (w2 & Hhtml & Hfb).
  exists w2. split; [|congruence]. rewrite patch_notes_steps.
  eapply gate_again; [done| |].
  - pose proof (gate_ok h _ _ _ _ Hrun) as [_ Hsteps].
    apply bind_ok in Hsteps as ([] & wm & H1 & H2).
    etrans.
    + eapply step_keeps_modules; [|apply notes_html_step_like|done]. constructor.
    + eapply step_keeps_modules; [|apply notes_js_step_like|done]. constructor.
  - unfold bind. fold (notes_js_step h). unfold notes_js_step. by rewrite Hjs.
Qed.

Lemma themes_loop_again names w :
  (∀ x, x ∈ names →
        patched (theme h x) (theme_backup h x) RiseReveal.patch_theme (files w)) →
  ∃ w', for_each names (theme_step h) w = (inr (), w') ∧ files w' = files w.
Proof.
  revert w. induction names as [|x names IH]; intros w Hall; simpl.
  - by exists w.
  - destruct (Hall x) as (c & Hb & Ht); [by left|].
    destruct (patch_step_again
                ("patching theme " +:+
                 path_str ["export"; "reveal.js"; "css"; "theme"; x] +:+
                 " for RISE")
                (theme h x) (theme_backup h x) RiseReveal.patch_theme w c Hb Ht)
      as (w1 & Hx & Hf).
    destruct (IH w1) as (w' & Hrest & Hf').
    { intros y Hy. rewrite Hf. apply Hall. by right. }
    exists w'. split; [|congruence]. unfold bind.
    fold (theme_step h x) in Hx. by rewrite Hx.
Qed.

(** The loop over the themes touches the themes and their backups only. *)
Lemma themes_loop_frame names w q :
  (∀ x, x ∈ names → fnmatch "*.css" x = true) →
  (∀ x, x ∈ names → diverge (theme h x) q = true ∧
                    diverge (theme_backup h x) q = true) →
  node_at q (files (for_each names (theme_step h) w).2) = node_at q (files w).
Proof.
  intros Hnames Hq.
  apply (preserves_for_each (λ n, node_at q n = node_at q (files w))
           names (theme_step h)); [|done].
  intros x Hx w1 Hw1. rewrite <- Hw1.
  apply (step_frame _ _ _ (theme_step_like h x (Hnames x Hx))); by apply Hq.
Qed.

Lemma themes_twice w w1 :
  RiseReveal.patch_reveal_themes h w = (inr (), w1) →
  ∃ w2, RiseReveal.patch_reveal_themes h w1 = (inr (), w2) ∧
        files w2 = files w1.
Proof.
  intros Hrun. pose proof (themes_ok h _ _ Hrun) as Hall.
  rewrite patch_reveal_themes_steps in Hrun.
  pose proof (gate_ok h _ _ _ _ Hrun) as [_ Hloop].
  unfold themes_loop, bind, query in Hloop.
  assert (∀ q, (∀ x, x ∈ css_names h (files w) →
                     diverge (theme h x) q = true ∧
                     diverge (theme_backup h x) q = true) →
               node_at q (files w1) = node_at q (files w)) as Hframe.
  { intros q Hq.
    pose proof (themes_loop_frame (css_names h (files w)) w q
                  (css_names_match h (files w)) Hq) as Hf.
    by rewrite Hloop in Hf. }
  assert (∀ x, x ∈ css_names h (files w1) → x ∈ css_names h (files w)) as Hsub.
  { intros x Hx. apply css_names_elem in Hx as [Hm Hs].
    apply css_names_elem. split; [done|].
    destruct (decide (x ∈ css_names h (files w))) as [Hin|Hout].
    - by apply css_names_elem in Hin as [_ ?].
    - rewrite Hframe in Hs; [done|]. intros y Hy.
      pose proof (css_names_match h _ _ Hy) as Hmy.
      unfold theme, theme_backup. split; apply diverge_names.
      + by intros ->.
      + intros Heq. symmetry in Heq. by apply css_not_patched in Heq. }
  destruct (themes_loop_again (css_names h (files w1)) w1) as (w2 & Hagain & Hf).
  { intros x Hx. by apply Hall, Hsub. }
  exists w2. split; [|done]. rewrite patch_reveal_themes_steps.
  eapply gate_again; [done| |by unfold themes_loop, bind, query].
  apply Hframe. intros x Hx. apply modules_apart. constructor.
  by apply (css_names_match h (files w)).
Qed.

(** With the backup in place, [patch_chalkboard] does not read it: the run
    is the run of [git apply] on the files as they are. *)
Lemma chalkboard_again w d :
  is_dir (files w) (node_modules h) = true →
  node_at (chalkboard_backup h) (files w) = Some (File d) →
  RiseReveal.patch_chalkboard h w =
    check_output h (git_apply h)
      (World (files w)
         (stdout w ++
          ["patching file export/reveal.js-chalkboard/chalkboard.js for RISE"])
         (spawned w)).
Proof.
  intros Hd Hb. rewrite patch_chalkboard_steps, rise_reveal_gate, Hd.
  unfold chalkboard_step, bind, print, test, ret. simpl.
  unfold is_file. by rewrite Hb.
Qed.

End Commands.

(** The three scripted patch commands can be run again: a second run
    after a successful one succeeds and leaves every file as it is. *)
Lemma scripted_commands_idempotent (h : host) (w w1 : world) :
  (RiseReveal.patch_reveal_css h w = (inr (), w1) →
   ∃ w2, RiseReveal.patch_reveal_css h w1 = (inr (), w2) ∧ files w2 = files w1) ∧
  (RiseReveal.patch_notes h w = (inr (), w1) →
   ∃ w2, RiseReveal.patch_notes h w1 = (inr (), w2) ∧ files w2 = files w1) ∧
  (RiseReveal.patch_reveal_themes h w = (inr (), w1) →
   ∃ w2, RiseReveal.patch_reveal_themes h w1 = (inr (), w2) ∧
         files w2 = files w1).
Proof.
  split; [apply css_twice|]. split; [apply notes_twice|apply themes_twice].
Qed.


End Again.

(** * Further properties of the scripts *)

(** ** The rules as functions on text *)

Module Rules.
Import Text FS RiseReveal Lines Anchored Replace.

(** The phrase that marks the line above which [patch_notes] injects. *)
Definition marker : text := txt "Layout selector".

(** The five lines that [patch_notes] writes above a marked line, one per
    call of [file.write]. *)
Definition injected_lines : list text := [
  txt "#speaker-controls>.speaker-controls-notes .inner_cell>.ctb_hideshow, " ++ [LF];
  txt "#speaker-controls>.speaker-controls-notes .inner_cell>.input_area { " ++ [LF];
  txt "    display: none; " ++ [LF];
  txt "}" ++ [LF];
  [LF]
].

(** Text without line boundaries. *)
Definition plain (u : text) : Prop := Forall (λ c, linebreak c = false) u.

(** The line ends of [str.splitlines]. *)
Inductive line_end : text → Prop :=
| end_crlf c c' : is_cr c = true → is_lf c' = true → line_end [c; c']
| end_cr c : is_cr c = true → line_end [c]
| end_break c : is_cr c = false → linebreak c = true → line_end [c].

(** [r] can follow the line end [e] without becoming part of it: after a
    lone CR no LF comes first. *)
Definition follows (e r : text) : Prop :=
  ∀ c, e = [c] → is_cr c = true → ∀ c' r', r = c' :: r' → is_lf c' = false.

Lemma splitlines_end e r :
  line_end e → follows e r → splitlines (e ++ r) = e :: splitlines r.
Proof.
  intros He Hr. destruct He as [c c' Hc Hc'|c Hc|c Hc Hb]; simpl app.
  - by apply splitlines_step_crlf.
  - destruct r as [|c' r'].
    + by apply splitlines_step_cr_end.
    + apply splitlines_step_cr; [done|]. by eapply Hr.
  - by apply splitlines_step_break.
Qed.

Lemma splitlines_line u e r :
  plain u → line_end e → follows e r →
  splitlines (u ++ e ++ r) = (u ++ e) :: splitlines r.
Proof.
  intros Hu He Hr. rewrite splitlines_prefix by done.
  by rewrite splitlines_end.
Qed.

Lemma splitlines_plain u : plain u → u ≠ [] → splitlines u = [u].
Proof.
  intros Hu Hne. rewrite <- (app_nil_r u) at 1.
  rewrite splitlines_prefix by done. simpl. by destruct u.
Qed.

(** A text is one unfinished line, or a line with its end and the rest. *)
Lemma first_line t :
  plain t ∨
  ∃ u e r, t = u ++ e ++ r ∧ plain u ∧ line_end e ∧ follows e r.
Proof.
  induction t as [|c s IH]; [left; constructor|].
  destruct (linebreak c) eqn:Hb.
  - right. exists []. destruct (is_cr c) eqn:Hc.
    + destruct s as [|c' s'].
      * exists [c], []. split; [done|]. split; [constructor|].
        split; [by apply end_cr|]. by intros ? _ _ ? ? ?.
      * destruct (is_lf c') eqn:Hl.
        -- exists [c; c'], s'. split; [done|]. split; [constructor|].
           split; [by apply end_crlf|]. by intros ? ?.
        -- exists [c], (c' :: s'). split; [done|]. split; [constructor|].
           split; [by apply end_cr|]. intros ? _ _ ? ? [= <- <-]. done.
    + exists [c], s. split; [done|]. split; [constructor|].
      split; [by apply end_break|]. intros ? [= <-] ?. congruence.
  - destruct IH as [Hs|(u & e & r & -> & Hu & He & Hr)].
    + left. by constructor.
    + right. exists (c :: u), e, r. split; [done|]. split; [by constructor|done].
Qed.

Lemma line_end_nonempty e : line_end e → 0 < length e.
Proof. destruct 1; simpl; lia. Qed.

(** *** The injection of [patch_notes] *)

Definition injected (lines : list text) : list text :=
  flat_map (λ l, if contains marker l then injected_lines ++ [l] else [l]) lines.

Lemma write_injected_concat lines :
  write_injected lines = concat (injected lines).
Proof.
  induction lines as [|l ls IH]; [done|]. unfold injected in *.
  cbn [write_injected flat_map]. rewrite concat_app, IH.
  fold marker. destruct (contains marker l).
  - rewrite concat_app. cbn [concat]. rewrite app_nil_r.
    by rewrite <- !(assoc_L (++)).
  - cbn [concat]. by rewrite app_nil_r.
Qed.

Lemma splitlines_block r :
  splitlines (concat injected_lines ++ r) = injected_lines ++ splitlines r.
Proof.
  assert (Hlf : line_end [LF]) by (by apply end_break).
  assert (Hfollow : ∀ x, follows [LF] x).
  { intros x c [= <-] Hc. done. }
  unfold injected_lines. cbn [concat]. rewrite app_nil_r, <- !(assoc_L (++)).
  rewrite splitlines_line; [|by repeat constructor|done|done].
  rewrite splitlines_line; [|by repeat constructor|done|done].
  rewrite splitlines_line; [|by repeat constructor|done|done].
  rewrite splitlines_line; [|by repeat constructor|done|done].
  by rewrite (splitlines_end [LF] r).
Qed.

Lemma injected_head c s :
  ∃ w W, concat (injected (splitlines (c :: s))) = w :: W ∧
         (w = c ∨ w = "#"%char).
Proof.
  destruct (splitlines_head c s) as (l & ls & ->). unfold injected.
  cbn [flat_map]. destruct (contains marker (c :: l)); simpl; eauto.
Qed.

Lemma follows_injected e r :
  follows e r → follows e (concat (injected (splitlines r))).
Proof.
  intros Hr c -> Hc c' r' Heq. destruct r as [|a s]; [done|].
  destruct (injected_head a s) as (w & W & HW & Hw). rewrite HW in Heq.
  injection Heq as <- <-. destruct Hw as [->| ->]; [by eapply Hr|done].
Qed.

Lemma splitlines_injected_le n : ∀ t,
  length t ≤ n →
  splitlines (concat (injected (splitlines t))) = injected (splitlines t).
Proof.
  induction n as [|n IH]; intros t Hn.
  { destruct t; [done|simpl in Hn; lia]. }
  destruct (first_line t) as [Ht|(u & e & r & -> & Hu & He & Hr)].
  - destruct t as [|c s]; [done|].
    rewrite (splitlines_plain (c :: s)) by done. unfold injected.
    cbn [flat_map]. rewrite app_nil_r.
    destruct (contains marker (c :: s)).
    + rewrite concat_app. cbn [concat]. rewrite app_nil_r, splitlines_block.
      by rewrite splitlines_plain.
    + cbn [concat]. rewrite app_nil_r. by apply splitlines_plain.
  - rewrite splitlines_line by done. unfold injected at 1 2.
    cbn [flat_map]. fold (injected (splitlines r)).
    pose proof (line_end_nonempty e He) as Hlen.
    assert (splitlines (concat (injected (splitlines r))) =
            injected (splitlines r)) as Hrest.
    { apply IH. rewrite !length_app in Hn. lia. }
    assert (splitlines ((u ++ e) ++ concat (injected (splitlines r))) =
            (u ++ e) :: injected (splitlines r)) as Hline.
    { rewrite <- (assoc_L (++)), splitlines_line, Hrest; [done..|].
      by apply follows_injected. }
    destruct (contains marker (u ++ e)).
    + rewrite !concat_app. cbn [concat]. rewrite app_nil_r.
      rewrite <- (assoc_L (++) (concat injected_lines)), splitlines_block.
      rewrite Hline. by rewrite <- (assoc_L (++)).
    + cbn [concat app]. by rewrite Hline.
Qed.

Lemma splitlines_inject t : splitlines (inject t) = injected (splitlines t).
Proof.
  unfold inject. rewrite write_injected_concat.
  by apply (splitlines_injected_le (length t)).
Qed.

(** *** What the rules add *)

Definition marked (lines : list text) : list text :=
  filter (λ l, contains marker l = true) lines.

Lemma write_injected_length lines :
  length (write_injected lines) =
    length (concat lines) + length (marked lines) * length injected_css.
Proof.
  induction lines as [|l ls IH]; [done|]. unfold marked in *.
  cbn [write_injected concat]. rewrite filter_cons, !length_app, IH.
  fold marker. destruct (contains marker l).
  - rewrite decide_True by done. simpl length. lia.
  - rewrite decide_False by done. simpl length. lia.
Qed.

Lemma inject_length t :
  length (inject t) =
    length t + length (marked (splitlines t)) * length injected_css.
Proof. unfold inject. by rewrite write_injected_length, splitlines_concat. Qed.

Lemma marked_injected lines : marked (injected lines) = marked lines.
Proof.
  induction lines as [|l ls IH]; [done|]. unfold marked, injected in *.
  cbn [flat_map]. rewrite filter_app, IH, filter_cons.
  destruct (contains marker l) eqn:Hl.
  - rewrite decide_True by done. rewrite filter_app.
    rewrite (filter_cons _ l), decide_True by done. done.
  - rewrite decide_False by congruence.
    rewrite filter_cons, decide_False by congruence. done.
Qed.

Lemma marked_nil lines :
  marked lines = [] ↔ Forall (λ l, contains marker l = false) lines.
Proof.
  unfold marked. induction lines as [|l ls IH]; [done|].
  rewrite filter_cons, Forall_cons. destruct (contains marker l) eqn:Hl.
  - rewrite decide_True by done. split; [done|]. by intros [? _].
  - rewrite decide_False by congruence. rewrite IH. tauto.
Qed.

Lemma inject_fixed t :
  inject t = t ↔ Forall (λ l, contains marker l = false) (splitlines t).
Proof.
  rewrite <- marked_nil. split.
  - intros H. apply (f_equal length) in H. rewrite inject_length in H.
    assert (0 < length injected_css) as Hpos by (vm_compute; lia).
    apply length_zero_iff_nil. nia.
  - intros H. unfold inject.
    assert (∀ ls, marked ls = [] → write_injected ls = concat ls) as Hw.
    { intros ls. rewrite marked_nil.
      induction 1 as [|l ls' Hl Hls IH]; [done|].
      cbn [write_injected concat]. fold marker. by rewrite Hl, IH. }
    by rewrite Hw, splitlines_concat.
Qed.

Lemma comment_out_length t :
  length (comment_out t) =
    length t + (if decide (length (splitlines t) < 11) then 0 else 2).
Proof.
  assert (length t = length (concat (take 10 (splitlines t))) +
                     length (concat (drop 10 (splitlines t)))) as Ht.
  { by rewrite <- length_app, <- concat_app, take_drop, splitlines_concat. }
  rewrite comment_out_bytes, length_app, Ht.
  pose proof (length_drop (splitlines t) 10) as Hd.
  destruct (drop 10 (splitlines t)) as [|l ls]; simpl in Hd.
  - rewrite decide_True by lia. simpl. lia.
  - rewrite decide_False by lia. cbn [concat]. rewrite !length_app. simpl. lia.
Qed.

Lemma comment_out_fixed t : comment_out t = t ↔ length (splitlines t) < 11.
Proof.
  split.
  - intros H. apply (f_equal length) in H. rewrite comment_out_length in H.
    destruct (decide (length (splitlines t) < 11)); [done|lia].
  - intros H. rewrite comment_out_bytes.
    rewrite drop_ge, take_ge by lia. by rewrite app_nil_r, splitlines_concat.
Qed.

(** *** The replacements *)

Lemma replace_absent old new s :
  old ≠ [] → (∀ i, ¬ occurs_at old s i) → replace old new s = s.
Proof.
  intros Hne. remember (length s) as n eqn:Hn. revert s Hn.
  induction n as [n IH] using lt_wf_ind. intros s -> Hno.
  destruct (replace_cases old new s Hne)
    as [[-> ->]|[(r & -> & Hlt & ->)|(c & s' & -> & _ & ->)]]; [done| |].
  - destruct (Hno 0). apply starts_with_app.
  - f_equal. apply (IH (length s')); [simpl; lia|done|].
    intros i Hi. by apply (Hno (S i)).
Qed.

Definition tokens : list text :=
  [txt "src$="; txt "keyCode: 83"; txt "key: 'S'"].

Lemma loosen_no_token t tok i : tok ∈ tokens → ¬ occurs_at tok (loosen t) i.
Proof.
  unfold tokens, loosen. intros Htok Hi.
  apply elem_of_cons in Htok as [->|Htok].
  { pose proof (pair_creates_none _ _ key_pair (txt "src$=") _ _ eq_refl Hi)
      as Hi2.
    pose proof (pair_creates_none _ _ key_code_pair (txt "src$=") _ _ eq_refl Hi2)
      as Hi1.
    exact (pair_none_left _ _ src_pair _ _ Hi1). }
  apply elem_of_cons in Htok as [->|Htok].
  { pose proof (pair_creates_none _ _ key_pair (txt "keyCode: 83") _ _ eq_refl Hi)
      as Hi2.
    exact (pair_none_left _ _ key_code_pair _ _ Hi2). }
  apply list_elem_of_singleton in Htok as ->.
  exact (pair_none_left _ _ key_pair _ _ Hi).
Qed.

Lemma loosen_absent t :
  (∀ tok i, tok ∈ tokens → ¬ occurs_at tok t i) → loosen t = t.
Proof.
  intros Hno. unfold loosen.
  rewrite (replace_absent (txt "src$=")); [|done|].
  - rewrite (replace_absent (txt "keyCode: 83")); [|done|].
    + rewrite (replace_absent (txt "key: 'S'")); [done|done|].
      intros i. apply Hno. unfold tokens. by repeat constructor.
    + intros i. apply Hno. unfold tokens. by repeat constructor.
  - intros i. apply Hno. unfold tokens. by repeat constructor.
Qed.

Lemma loosen_fixed t :
  loosen t = t ↔ ∀ tok i, tok ∈ tokens → ¬ occurs_at tok t i.
Proof.
  split; [|apply loosen_absent].
  intros H tok i Htok. rewrite <- H. by apply loosen_no_token.
Qed.

Lemma loosen_twice t : loosen (loosen t) = loosen t.
Proof. apply loosen_absent. intros tok i. apply loosen_no_token. Qed.

(** *** The anchored replacement *)

Definition selector : text := txt "body {".

Lemma split_lf_app a b :
  split_lf (a ++ [LF] ++ b) = split_lf a ++ split_lf b.
Proof.
  induction a as [|c a IH]; [done|]. simpl app. cbn [split_lf].
  change (a ++ LF :: b) with (a ++ [LF] ++ b). rewrite IH.
  destruct (is_lf c); [done|].
  by destruct (split_lf_cons a) as (l & ls & ->).
Qed.

Lemma split_lf_join l ls :
  split_lf (join [LF] (l :: ls)) = flat_map split_lf (l :: ls).
Proof.
  revert l. induction ls as [|l' ls IH]; intros l.
  - simpl. by rewrite app_nil_r.
  - rewrite join_two, split_lf_app, IH. done.
Qed.

Lemma split_lf_one l : Forall (λ c, is_lf c = false) l → split_lf l = [l].
Proof.
  induction 1 as [|c l Hc Hl IH]; [done|]. cbn [split_lf]. by rewrite Hc, IH.
Qed.

(** The lines of a patched line. *)
Definition patched_lines (l : text) : list text :=
  if starts_with selector l then [
    txt "body.notebook_app.rise-enabled {";
    txt "    /* PATCHED by patch-reveal-themes.sh */";
    txt "    background-attachment: fixed !important;" ++ drop 6 l
  ] else [l].

Lemma split_lf_patch_line l :
  Forall (λ c, is_lf c = false) l →
  split_lf (patch_line selector replacement_text l) = patched_lines l.
Proof.
  intros Hl. unfold patch_line, patched_lines.
  destruct (starts_with selector l); [|by apply split_lf_one].
  unfold replacement_text. cbn [join]. rewrite <- !(assoc_L (++)).
  rewrite split_lf_app, split_lf_app.
  rewrite !split_lf_one; [done| | |]; try by repeat constructor.
  apply Forall_app. split; [by repeat constructor|by apply Forall_drop].
Qed.

Lemma patched_lines_clear l :
  Forall (λ l', starts_with selector l' = false) (patched_lines l).
Proof.
  unfold patched_lines. destruct (starts_with selector l) eqn:Hl.
  - by repeat constructor.
  - by repeat constructor.
Qed.

Lemma patch_theme_join t :
  patch_theme t =
    join [LF] (map (patch_line selector replacement_text) (split_lf t)).
Proof.
  unfold patch_theme. apply re_sub_multiline_lines; [done|by repeat constructor].
Qed.

Lemma split_lf_patch_theme t :
  split_lf (patch_theme t) = flat_map patched_lines (split_lf t).
Proof.
  rewrite patch_theme_join.
  assert (∀ xs, Forall (Forall (λ c, is_lf c = false)) xs →
    flat_map split_lf (map (patch_line selector replacement_text) xs) =
    flat_map patched_lines xs) as Hmap.
  { induction 1 as [|x xs Hx Hxs IH]; [done|].
    cbn [map flat_map]. by rewrite IH, split_lf_patch_line. }
  pose proof (split_lf_lines t) as Hlines.
  destruct (split_lf_cons t) as (l & ls & Hs). rewrite Hs in *.
  rewrite <- Hmap by done. cbn [map]. by rewrite split_lf_join.
Qed.

Lemma patch_theme_clear t :
  Forall (λ l, starts_with selector l = false) (split_lf (patch_theme t)).
Proof.
  rewrite split_lf_patch_theme. induction (split_lf t) as [|l ls IH]; [done|].
  cbn [flat_map]. apply Forall_app. split; [apply patched_lines_clear|done].
Qed.

Lemma patch_theme_absent t :
  Forall (λ l, starts_with selector l = false) (split_lf t) → patch_theme t = t.
Proof.
  intros H. rewrite patch_theme_join.
  assert (map (patch_line selector replacement_text) (split_lf t) = split_lf t)
    as ->; [|apply join_split_lf].
  induction H as [|l ls Hl Hls IH]; [done|].
  cbn [map]. rewrite IH. unfold patch_line. by rewrite Hl.
Qed.

Lemma patch_theme_fixed t :
  patch_theme t = t ↔
  Forall (λ l, starts_with selector l = false) (split_lf t).
Proof.
  split; [|apply patch_theme_absent].
  intros H. rewrite <- H. apply patch_theme_clear.
Qed.

Lemma patch_theme_twice t : patch_theme (patch_theme t) = patch_theme t.
Proof. apply patch_theme_absent, patch_theme_clear. Qed.

(** *** The rules that pile up *)

Lemma comment_out_twice t :
  comment_out (comment_out t) = comment_out t ↔ length (splitlines t) < 11.
Proof.
  rewrite comment_out_fixed, splitlines_comment_out, commented_length. done.
Qed.

Lemma inject_twice t :
  inject (inject t) = inject t ↔
  Forall (λ l, contains marker l = false) (splitlines t).
Proof.
  rewrite inject_fixed, splitlines_inject.
  by rewrite <- !marked_nil, marked_injected.
Qed.

(** *** The characters of the output *)

Lemma splitlines_chars (P : ascii → Prop) t :
  Forall P t → Forall (Forall P) (splitlines t).
Proof.
  intros H. rewrite <- (splitlines_concat t) in H.
  by apply Forall_concat in H.
Qed.

Lemma write_commented_chars (P : ascii → Prop) i lines :
  Forall P (txt "/*") → Forall (Forall P) lines →
  Forall P (write_commented i lines).
Proof.
  intros Htok Hlines. revert i.
  induction Hlines as [|l ls Hl Hls IH]; intros i; [done|].
  cbn [write_commented]. rewrite !Forall_app. split; [|split; [done|apply IH]].
  by destruct (Nat.eqb i 11).
Qed.

Lemma write_injected_chars (P : ascii → Prop) lines :
  Forall P injected_css → Forall (Forall P) lines →
  Forall P (write_injected lines).
Proof.
  intros Hcss Hlines.
  induction Hlines as [|l ls Hl Hls IH]; [done|].
  cbn [write_injected]. rewrite !Forall_app. split; [|split; done].
  by destruct (contains _ l).
Qed.

Lemma replace_chars (P : ascii → Prop) old new s :
  old ≠ [] → Forall P new → Forall P s → Forall P (replace old new s).
Proof.
  intros Hne Hnew. remember (length s) as n eqn:Hn. revert s Hn.
  induction n as [n IH] using lt_wf_ind. intros s -> Hs.
  destruct (replace_cases old new s Hne)
    as [[-> ->]|[(r & -> & Hlt & ->)|(c & s' & -> & _ & ->)]]; [done| |].
  - apply Forall_app in Hs as [_ Hr]. apply Forall_app. split; [done|].
    by apply (IH _ Hlt).
  - inversion Hs; subst. constructor; [done|].
    by apply (IH (length s')); [simpl; lia| |].
Qed.

Lemma re_sub_chars (P : ascii → Prop) pat repl s :
  Forall P repl → Forall P s → ∀ k bol, Forall P (re_sub_from pat repl k bol s).
Proof.
  intros Hrepl. induction 1 as [|c s Hc Hs IH]; intros k bol; [done|].
  cbn [re_sub_from]. destruct k as [|k]; [|apply IH].
  destruct (bol && starts_with pat (c :: s)).
  - apply Forall_app. split; [done|apply IH].
  - constructor; [done|apply IH].
Qed.

Definition no_cr (t : text) : Prop := Forall (λ c, is_cr c = false) t.

Lemma universal_newlines_no_cr t : no_cr (universal_newlines t).
Proof.
  unfold no_cr. remember (length t) as n eqn:Hn. revert t Hn.
  induction n as [n IH] using lt_wf_ind. intros [|c s] ->; [done|].
  cbn [universal_newlines]. destruct (is_cr c) eqn:Hc.
  - constructor; [done|]. destruct s as [|c' s']; [done|].
    destruct (is_lf c').
    + apply (IH (length s')); [simpl; lia|done].
    + apply (IH (length (c' :: s'))); [simpl; lia|done].
  - constructor; [done|]. apply (IH (length s)); [simpl; lia|done].
Qed.

(** No rule brings in a CR. *)
Lemma rules_no_cr t :
  no_cr t →
  no_cr (comment_out t) ∧ no_cr (loosen t) ∧ no_cr (inject t) ∧
  no_cr (patch_theme t).
Proof.
  intros Ht. unfold no_cr in *. repeat split.
  - apply write_commented_chars; [by repeat constructor|].
    by apply splitlines_chars.
  - unfold loosen. repeat apply replace_chars; try done; by repeat constructor.
  - apply write_injected_chars; [by repeat constructor|].
    by apply splitlines_chars.
  - apply re_sub_chars; [by repeat constructor|done].
Qed.

(** *** The four rules, as properties of the text functions *)

(** X1.  The injection of [patch_notes] on [notes.html], line by line (the
    lines of [str.splitlines], with their ends).  What the five writes put
    out are five lines; the lines of the output are the lines of the input,
    in their order, with these five before every line that contains
    [Layout selector] and nowhere else.  So the output has five more lines
    for every such line. *)
Theorem inject_lines (t : text) :
  concat injected_lines = injected_css ∧
  splitlines (inject t) =
    flat_map (λ l, if contains (txt "Layout selector") l
                   then injected_lines ++ [l] else [l])
             (splitlines t) ∧
  length (splitlines (inject t)) =
    length (splitlines t) +
    5 * length (filter (λ l, contains (txt "Layout selector") l = true)
                       (splitlines t)).
Proof.
  split; [reflexivity|]. rewrite splitlines_inject. split; [done|].
  unfold injected. fold marker.
  induction (splitlines t) as [|l ls IH]; [done|].
  cbn [flat_map]. rewrite length_app, IH, filter_cons.
  destruct (contains marker l).
  - rewrite decide_True by done. simpl. lia.
  - rewrite decide_False by done. simpl. lia.
Qed.

(** X2.  Each rule leaves a text as it is exactly when the text has nothing
    for it to act on: [comment_out] when there are fewer than eleven lines,
    the replacements of [notes.js] when none of the three tokens occurs,
    the injection when no line contains [Layout selector], and the
    replacement in the themes when no line begins with the selector. *)
Theorem rules_leave_other_text (t : text) :
  (comment_out t = t ↔ length (splitlines t) < 11) ∧
  (loosen t = t ↔
   ∀ tok i, tok ∈ [txt "src$="; txt "keyCode: 83"; txt "key: 'S'"] →
            ¬ occurs_at tok t i) ∧
  (inject t = t ↔
   Forall (λ l, contains (txt "Layout selector") l = false) (splitlines t)) ∧
  (patch_theme t = t ↔
   Forall (λ l, starts_with (txt "body {") l = false) (split_lf t)).
Proof.
  split; [apply comment_out_fixed|]. split; [apply loosen_fixed|].
  split; [apply inject_fixed|apply patch_theme_fixed].
Qed.

(** X3.  The replacements of [notes.js] and the replacement in the themes
    can be applied to their own output without changing it: the output
    has no token and no line that begins with the selector. *)
Theorem loosen_and_patch_theme_idempotent (t : text) :
  loosen (loosen t) = loosen t ∧
  patch_theme (patch_theme t) = patch_theme t ∧
  Forall (λ l, starts_with (txt "body {") l = false) (split_lf (patch_theme t)).
Proof.
  split; [apply loosen_twice|]. split; [apply patch_theme_twice|].
  apply patch_theme_clear.
Qed.

(** X4.  [comment_out] and the injection pile up when they are applied to
    their own output: a second application changes the text again, unless
    the first had nothing to act on.  After two applications the eleventh
    line begins with two comment tokens. *)
Theorem comment_out_and_inject_pile_up (t : text) :
  (comment_out (comment_out t) = comment_out t ↔ length (splitlines t) < 11) ∧
  (∀ l, splitlines t !! 10 = Some l →
        splitlines (comment_out (comment_out t)) !! 10 =
          Some (txt "/*" ++ txt "/*" ++ l)) ∧
  (inject (inject t) = inject t ↔
   Forall (λ l, contains (txt "Layout selector") l = false) (splitlines t)).
Proof.
  split; [apply comment_out_twice|]. split; [|apply inject_twice].
  intros l Hl. rewrite !splitlines_comment_out, !commented_lookup, Hl. done.
Qed.

End Rules.

(** ** The line ends of the targets *)

Module Endings.
Import Text FS Tree Step Names Run Gate Trees Ops Rules.


Lemma patched_no_cr t b T n :
  (∀ s, no_cr s → no_cr (T s)) →
  patched t b T n → ∃ d, node_at t n = Some (File d) ∧ no_cr d.
Proof.
  intros HT (c & _ & Ht). eexists. split; [exact Ht|].
  apply HT, universal_newlines_no_cr.
Qed.

(** X5.  After a successful run of [patch_reveal_css], [patch_notes] or
    [patch_reveal_themes], no target has a CR in it, whatever line ends the
    upstream file has: the backup is read with universal newlines, the
    rules bring in no CR, and the write translates nothing. *)
Theorem targets_have_no_cr (h : host) (w w' : world) :
  (RiseReveal.patch_reveal_css h w = (inr (), w') →
   ∃ d, node_at (css h) (files w') = Some (File d) ∧ no_cr d) ∧
  (RiseReveal.patch_notes h w = (inr (), w') →
   (∃ d, node_at (notes_js h) (files w') = Some (File d) ∧ no_cr d) ∧
   (∃ d, node_at (notes_html h) (files w') = Some (File d) ∧ no_cr d)) ∧
  (RiseReveal.patch_reveal_themes h w = (inr (), w') →
   ∀ x, x ∈ css_names h (files w) →
        ∃ d, node_at (theme h x) (files w') = Some (File d) ∧ no_cr d).
Proof.
  split; [|split].
  - intros Hrun%css_ok. eapply patched_no_cr; [|done].
    intros s Hs. by apply rules_no_cr.
  - intros [Hjs Hhtml]%notes_ok. split.
    + eapply patched_no_cr; [|done]. intros s Hs. by apply rules_no_cr.
    + eapply patched_no_cr; [|done]. intros s Hs. by apply rules_no_cr.
  - intros Hrun x Hx. pose proof (themes_ok h _ _ Hrun x Hx) as Hp.
    eapply patched_no_cr; [|done]. intros s Hs. by apply rules_no_cr.
Qed.

End Endings.

(** ** The command line *)

Module Dispatch.
Import Text FS Tree Names Run Gate.

(** [arg.replace('-', '_')] *)
Definition underscore (arg : string) : string :=
  string_of_list_ascii (replace (txt "-") (txt "_") (txt arg)).

(** The outcome of a function as the outcome of the script that calls it. *)
Definition called (f : M unit) : world → (fault + unit) * world :=
  λ w, match f w with
       | (inr _, w') => (inr (), w')
       | (inl e, w') => (inl (Raised e), w')
       end.

(** One run after the other, the second only when the first returns. *)
Definition and_then (r1 r2 : world → (fault + unit) * world)
  : world → (fault + unit) * world :=
  λ w, match r1 w with
       | (inr _, w1) => r2 w1
       | (inl e, w1) => (inl e, w1)
       end.

(** Replacing one character by another one, character by character. *)
Lemma replace_char a b s :
  replace [a] [b] s = map (λ c, if Ascii.eqb a c then b else c) s.
Proof.
  cbn [replace]. induction s as [|c s IH]; [done|].
  cbn [replace_from starts_with length map]. rewrite andb_true_r.
  change (1 - 1) with 0. rewrite IH. by destruct (Ascii.eqb a c).
Qed.

Lemma replace_char_back a b s :
  b ∉ s → replace [b] [a] (replace [a] [b] s) = s.
Proof.
  rewrite !replace_char. induction s as [|c s IH]; [done|].
  intros Hb. apply not_elem_of_cons in Hb as [Hc Hs]. cbn [map].
  rewrite IH by done. f_equal. destruct (Ascii.eqb_spec a c) as [->|Hac].
  - by rewrite Ascii.eqb_refl.
  - by destruct (Ascii.eqb_spec b c) as [->|_].
Qed.

Lemma for_args_app argv1 argv2 call w :
  for_args (argv1 ++ argv2) call w =
    and_then (for_args argv1 call) (for_args argv2 call) w.
Proof.
  unfold and_then. revert w. induction argv1 as [|a argv1 IH]; intros w; [done|].
  simpl. destruct (call a w) as [[e|[]] w1]; [done|]. apply IH.
Qed.

Lemma find_unbound {A} (table : list (string * A)) key :
  key ∉ map fst table →
  List.find (λ e, String.eqb (fst e) key) table = None.
Proof.
  induction table as [|[k v] table IH]; [done|]. cbn [map fst List.find].
  intros [Hk Hrest]%not_elem_of_cons.
  destruct (String.eqb_spec k key); [congruence|]. by apply IH.
Qed.

Lemma call_unbound (table : list (string * global)) key w :
  key ∉ map fst table →
  call_global table key w = (inl (Raised (KeyError key)), w).
Proof. intros H. unfold call_global. by rewrite find_unbound. Qed.

Section Scripts.
Variables (h : host) (names : list string).

(** The commands of the two scripts, under the names of their functions. *)
Definition rise_reveal_commands : list (string * M unit) := [
  ("copy", RiseReveal.copy h);
  ("patch_reveal_css", RiseReveal.patch_reveal_css h);
  ("patch_notes", RiseReveal.patch_notes h);
  ("patch_reveal_themes", RiseReveal.patch_reveal_themes h);
  ("patch_chalkboard", RiseReveal.patch_chalkboard h);
  ("build", RiseReveal.build h);
  ("patch", RiseReveal.patch h);
  ("clean", RiseReveal.clean h)
].

Definition classic_commands : list (string * M unit) := [
  ("clean", Classic.clean h);
  ("less", Classic.less h);
  ("watch_less", Classic.watch_less h);
  ("install_rise_reveal", Classic.install_rise_reveal h)
].

(** What both modules bind besides their commands, and the loop
    variable. *)
Definition rise_reveal_others : list string := [
  "functools"; "pathlib"; "re"; "shutil"; "subprocess"; "sys";
  "root"; "require_npm_install"; "arg"
].

Definition classic_others : list string := [
  "functools"; "pathlib"; "platform"; "shutil"; "subprocess"; "sys";
  "root"; "require_npm_install"; "arg"
].

Lemma rise_reveal_main_cons arg rest w :
  RiseReveal.main h names (arg :: rest) w =
    and_then (call_global (RiseReveal.globals h names) (underscore arg))
      (RiseReveal.main h names rest) w.
Proof.
  unfold RiseReveal.main, and_then. cbn [for_args]. fold (underscore arg).
  by destruct (call_global _ _ w) as [[e|[]] w1].
Qed.

Lemma classic_main_cons arg rest w :
  Classic.main h names (arg :: rest) w =
    and_then (call_global (Classic.globals h names) (underscore arg))
      (Classic.main h names rest) w.
Proof.
  unfold Classic.main, and_then. cbn [for_args]. fold (underscore arg).
  by destruct (call_global _ _ w) as [[e|[]] w1].
Qed.

Lemma rise_reveal_call :
  Forall (λ entry, ∀ w,
            call_global (RiseReveal.globals h names) entry.1 w =
              called entry.2 w)
         rise_reveal_commands.
Proof. unfold rise_reveal_commands. repeat constructor. Qed.

Lemma classic_call :
  Forall (λ entry, ∀ w,
            call_global (Classic.globals h names) entry.1 w = called entry.2 w)
         classic_commands.
Proof. unfold classic_commands. repeat constructor. Qed.

Lemma rise_reveal_uncallable :
  Forall (λ key, ∀ w,
            call_global (RiseReveal.globals h names) key w =
              (inl (TypeError key), w))
         rise_reveal_others.
Proof. unfold rise_reveal_others. repeat constructor. Qed.

Lemma classic_uncallable :
  Forall (λ key, ∀ w,
            call_global (Classic.globals h names) key w =
              (inl (TypeError key), w))
         classic_others.
Proof. unfold classic_others. repeat constructor. Qed.

Lemma find_interpreter_name (table : list (string * global)) names0 key :
  key ∉ map fst table → key ∈ names0 →
  List.find (λ e, String.eqb (fst e) key)
    (table ++ map (λ name, (name, NotCallable)) names0) =
    Some (key, NotCallable).
Proof.
  intros Hout Hin. induction table as [|[k v] table IH].
  - simpl. induction names0 as [|x xs IH]; [by apply elem_of_nil in Hin|].
    cbn [map List.find fst]. destruct (String.eqb_spec x key) as [->|Hne]; [done|].
    apply IH. apply elem_of_cons in Hin as [?|?]; [congruence|done].
  - cbn [map fst] in Hout. apply not_elem_of_cons in Hout as [Hk Hrest].
    cbn [app List.find fst]. destruct (String.eqb_spec k key); [congruence|].
    by apply IH.
Qed.

Lemma rise_reveal_keys :
  map fst (RiseReveal.globals h names) =
    ["arg"; "clean"; "patch"; "build"; "patch_chalkboard";
     "patch_reveal_themes"; "patch_notes"; "patch_reveal_css"; "copy";
     "require_npm_install"; "root"; "sys"; "subprocess"; "shutil"; "re";
     "pathlib"; "functools"] ++ names.
Proof.
  unfold RiseReveal.globals. rewrite map_app, map_map. cbn [map fst].
  by rewrite map_id.
Qed.

Lemma classic_keys :
  map fst (Classic.globals h names) =
    ["arg"; "install_rise_reveal"; "watch_less"; "less"; "clean";
     "require_npm_install"; "root"; "sys"; "subprocess"; "shutil"; "platform";
     "pathlib"; "functools"] ++ names.
Proof.
  unfold Classic.globals. rewrite map_app, map_map. cbn [map fst].
  by rewrite map_id.
Qed.

Ltac keys_apart :=
  rewrite ?not_elem_of_app, ?not_elem_of_cons in *;
  intuition (auto using not_elem_of_nil).

Lemma rise_reveal_unbound key w :
  key ∉ map fst rise_reveal_commands → key ∉ rise_reveal_others →
  key ∉ names →
  call_global (RiseReveal.globals h names) key w =
    (inl (Raised (KeyError key)), w).
Proof.
  intros H1 H2 H3. apply call_unbound. rewrite rise_reveal_keys.
  unfold rise_reveal_commands, rise_reveal_others in *. cbn [map fst] in H1.
  keys_apart.
Qed.

Lemma classic_unbound key w :
  key ∉ map fst classic_commands → key ∉ classic_others → key ∉ names →
  call_global (Classic.globals h names) key w =
    (inl (Raised (KeyError key)), w).
Proof.
  intros H1 H2 H3. apply call_unbound. rewrite classic_keys.
  unfold classic_commands, classic_others in *. cbn [map fst] in H1.
  keys_apart.
Qed.

Lemma rise_reveal_interpreter_name key w :
  key ∉ map fst rise_reveal_commands → key ∉ rise_reveal_others →
  key ∈ names →
  call_global (RiseReveal.globals h names) key w = (inl (TypeError key), w).
Proof.
  intros H1 H2 H3. unfold call_global, RiseReveal.globals.
  rewrite find_interpreter_name; [done| |done].
  unfold rise_reveal_commands, rise_reveal_others in *. cbn [map fst] in *.
  keys_apart.
Qed.

Lemma classic_interpreter_name key w :
  key ∉ map fst classic_commands → key ∉ classic_others → key ∈ names →
  call_global (Classic.globals h names) key w = (inl (TypeError key), w).
Proof.
  intros H1 H2 H3. unfold call_global, Classic.globals.
  rewrite find_interpreter_name; [done| |done].
  unfold classic_commands, classic_others in *. cbn [map fst] in *.
  keys_apart.
Qed.

Lemma rise_reveal_runs arg :
  Forall (λ entry, underscore arg = entry.1 →
                   ∀ w, RiseReveal.main h names [arg] w = called entry.2 w)
         rise_reveal_commands.
Proof.
  eapply Forall_impl; [apply rise_reveal_call|].
  intros entry Hcall Harg w. rewrite rise_reveal_main_cons. unfold and_then.
  rewrite Harg, Hcall. unfold called.
  by destruct (entry.2 w) as [[e|[]] w1].
Qed.

Lemma classic_runs arg :
  Forall (λ entry, underscore arg = entry.1 →
                   ∀ w, Classic.main h names [arg] w = called entry.2 w)
         classic_commands.
Proof.
  eapply Forall_impl; [apply classic_call|].
  intros entry Hcall Harg w. rewrite classic_main_cons. unfold and_then.
  rewrite Harg, Hcall. unfold called.
  by destruct (entry.2 w) as [[e|[]] w1].
Qed.

End Scripts.
(** X6.  The command line of both scripts.  The arguments are worked off
    in their order, and the first exception ends the run: a run on two
    lists of arguments is the run on the first and then, if that returns,
    the run on the second.  An argument that is the name of a command, with
    hyphens or with underscores, runs that command. *)
Theorem main_runs_commands_in_order (h : host) (names : list string) :
  (∀ argv1 argv2 w,
     RiseReveal.main h names (argv1 ++ argv2) w =
       and_then (RiseReveal.main h names argv1)
                (RiseReveal.main h names argv2) w) ∧
  (∀ argv1 argv2 w,
     Classic.main h names (argv1 ++ argv2) w =
       and_then (Classic.main h names argv1) (Classic.main h names argv2) w) ∧
  (∀ arg,
     Forall (λ entry, underscore arg = entry.1 →
                      ∀ w, RiseReveal.main h names [arg] w = called entry.2 w)
            (rise_reveal_commands h)) ∧
  (∀ arg,
     Forall (λ entry, underscore arg = entry.1 →
                      ∀ w, Classic.main h names [arg] w = called entry.2 w)
            (classic_commands h)).
Proof.
  split; [intros; apply for_args_app|]. split; [intros; apply for_args_app|].
  split; intros arg; [apply rise_reveal_runs|apply classic_runs].
Qed.

(** X7.  An argument that is not the name of a command ends the run at
    once, the world as it is and the arguments after it not looked at: with
    a [TypeError] when its name, hyphens turned into underscores, is bound
    in the module to something else (an import, [root], the decorator, the
    loop variable, a name of the interpreter), and with a [KeyError] of
    that name when nothing is bound to it. *)
Theorem main_rejects_other_names (h : host) (names : list string)
    (arg : string) (rest : list string) (w : world) :
  let key := underscore arg in
  (key ∉ map fst (rise_reveal_commands h) →
   RiseReveal.main h names (arg :: rest) w =
     if decide (key ∈ rise_reveal_others ++ names)
     then (inl (TypeError key), w)
     else (inl (Raised (KeyError key)), w)) ∧
  (key ∉ map fst (classic_commands h) →
   Classic.main h names (arg :: rest) w =
     if decide (key ∈ classic_others ++ names)
     then (inl (TypeError key), w)
     else (inl (Raised (KeyError key)), w)).
Proof.
  cbv zeta. split; intros Hcmd.
  - rewrite rise_reveal_main_cons. unfold and_then.
    destruct (decide (underscore arg ∈ rise_reveal_others ++ names))
      as [Hin|Hout].
    + destruct (decide (underscore arg ∈ rise_reveal_others)) as [Ho|Ho].
      * pose proof (rise_reveal_uncallable h names) as Hall.
        rewrite Forall_forall in Hall. by rewrite (Hall _ Ho).
      * apply elem_of_app in Hin as [?|Hn]; [done|].
        by rewrite rise_reveal_interpreter_name.
    + apply not_elem_of_app in Hout as [Ho Hn].
      by rewrite rise_reveal_unbound.
  - rewrite classic_main_cons. unfold and_then.
    destruct (decide (underscore arg ∈ classic_others ++ names)) as [Hin|Hout].
    + destruct (decide (underscore arg ∈ classic_others)) as [Ho|Ho].
      * pose proof (classic_uncallable h names) as Hall.
        rewrite Forall_forall in Hall. by rewrite (Hall _ Ho).
      * apply elem_of_app in Hin as [?|Hn]; [done|].
        by rewrite classic_interpreter_name.
    + apply not_elem_of_app in Hout as [Ho Hn].
      by rewrite classic_unbound.
Qed.

(** X8.  The two renamings undo each other: the gate turns the underscores
    of a function name into hyphens and the command line turns hyphens
    into underscores, so a name without hyphens comes back from both as it
    was, and an argument without underscores likewise.  The command that
    the message of the gate names is, on the command line, the function
    that the gate guards. *)
Theorem hyphens_and_underscores_round_trip (h : host) (names : list string)
    (name : string) :
  ("-"%char ∉ txt name → underscore (hyphenate name) = name) ∧
  ("_"%char ∉ txt name → hyphenate (underscore name) = name) ∧
  Forall (λ entry, ∀ w, RiseReveal.main h names [hyphenate entry.1] w =
                        called entry.2 w)
         (rise_reveal_commands h) ∧
  Forall (λ entry, ∀ w, Classic.main h names [hyphenate entry.1] w =
                        called entry.2 w)
         (classic_commands h).
Proof.
  split; [|split; [|split]].
  - intros Hn. unfold underscore, hyphenate.
    rewrite txt_of_string, (replace_char_back "_" "-") by done.
    apply string_of_txt.
  - intros Hn. unfold underscore, hyphenate.
    rewrite txt_of_string, (replace_char_back "-" "_") by done.
    apply string_of_txt.
  - rewrite Forall_forall. intros entry Hin w.
    pose proof (rise_reveal_runs h names (hyphenate entry.1)) as Hruns.
    rewrite Forall_forall in Hruns. apply (Hruns entry Hin).
    unfold rise_reveal_commands in Hin.
    repeat (apply elem_of_cons in Hin as [->|Hin]; [reflexivity|]).
    by apply elem_of_nil in Hin.
  - rewrite Forall_forall. intros entry Hin w.
    pose proof (classic_runs h names (hyphenate entry.1)) as Hruns.
    rewrite Forall_forall in Hruns. apply (Hruns entry Hin).
    unfold classic_commands in Hin.
    repeat (apply elem_of_cons in Hin as [->|Hin]; [reflexivity|]).
    by apply elem_of_nil in Hin.
Qed.

End Dispatch.

(** ** The compile step *)

Module Compile.
Import Text FS Tree Step Names Run Gate Trees Ops Copies Clean Again.
#[local] Open Scope script_scope.

Section Less.
Variable h : host.

(** The compiler that [less] runs. *)
Definition lessc : path :=
  root h ++ ["node_modules"; ".bin";
             if String.eqb (platform_system h) "Windows"
             then "lessc.cmd" else "lessc"].



End Less.


End Compile.

(** ** What [clean] removes *)

Module Removal.
Import Text FS Tree Step Names Run Gate Trees Ops Copies Clean Again.
#[local] Open Scope script_scope.

Lemma is_dir_parent n d x :
  is_dir n (d ++ [x]) = true →
  ∃ m mx, node_at d n = Some (Dir m) ∧ m !! x = Some (Dir mx).
Proof.
  unfold is_dir. destruct (node_at (d ++ [x]) n) as [[|mx]|] eqn:Hn; try done.
  intros _. apply node_at_parent in Hn as (m & Hd & Hx). eauto.
Qed.


Lemma rmtree_succeeds n d x :
  is_dir n (d ++ [x]) = true → ∃ n', rmtree (d ++ [x]) n = inr n'.
Proof.
  intros (m & mx & Hd & Hx)%is_dir_parent. unfold rmtree, at_path.
  edestruct (update_at_succeeds d x) as (n' & ->); [done| |by eauto].
  by rewrite Hx.
Qed.





(** *** What a removal leaves alone *)








(** *** The sweep of the classic [clean] *)

Section Sweep.
Variable d : path.

Let body : string → M unit := λ x, fs_call (rmtree (d ++ [x])).


End Sweep.



Section Scripts.
Variable h : host.





End Scripts.


End Removal.

(** ** Runs on files that are not as expected *)

Module Failures.
Import Text FS Tree Step Names Run Gate Trees Ops Copies Clean Again Removal.
#[local] Open Scope script_scope.


Lemma makedirs_succeeds d x n m :
  node_at d n = Some (Dir m) →
  (∀ c, m !! x ≠ Some (File c)) →
  ∃ n', makedirs (d ++ [x]) n = inr n'.
Proof.
  revert n. induction d as [|y d IH]; intros n Hn Hx.
  - simpl in Hn. simplify_eq. cbn [app makedirs].
    destruct (m !! x) as [[c|mx]|] eqn:Hm; simpl; eauto.
    by destruct (Hx c).
  - simpl in Hn. destruct n as [|m0]; [done|].
    destruct (m0 !! y) as [c|] eqn:Hy; [|done].
    destruct (IH c Hn Hx) as (c' & Hc).
    simpl app. cbn [makedirs]. rewrite Hy. simpl. rewrite Hc. eauto.
Qed.

Section RiseReveal.
Variable h : host.

Lemma root_dir n :
  is_dir n (node_modules h) = true → ∃ m, node_at (root h) n = Some (Dir m).
Proof. intros (m & mx & Hd & _)%is_dir_parent. eauto. Qed.

(** The first steps of [copy] succeed where [export] is no regular file,
    and leave an empty [export]. *)
Lemma copy_empties w :
  is_dir (files w) (node_modules h) = true →
  is_file (files w) (export h) = false →
  ∃ w1,
    (present <- test (λ n, is_dir n (export h)) ;;
     (if present then fs_call (rmtree (export h)) else ret ()) ;;
     fs_call (λ n, at_path (export h) (makedirs (export h) n))) w = (inr (), w1) ∧
    node_at (export h) (files w1) = Some (Dir ∅) ∧
    (∀ q, diverge (export h) q = true →
          node_at q (files w1) = node_at q (files w)) ∧
    stdout w1 = stdout w ∧ spawned w1 = spawned w.
Proof.
  intros Hnm Hfile. destruct (root_dir _ Hnm) as (m & Hroot).
  assert (∃ w1,
    (present <- test (λ n, is_dir n (export h)) ;;
     (if present then fs_call (rmtree (export h)) else ret ()) ;;
     fs_call (λ n, at_path (export h) (makedirs (export h) n))) w = (inr (), w1) ∧
    stdout w1 = stdout w ∧ spawned w1 = spawned w) as (w1 & Hrun & Hout).
  { unfold bind at 1, test. destruct (is_dir (files w) (export h)) eqn:Hd.
    - destruct (rmtree_succeeds _ _ _ Hd) as (n1 & Hrm).
      unfold bind, fs_call. unfold export in *. rewrite Hrm. simpl.
      pose proof Hrm as Hrm'. unfold rmtree, at_path in Hrm'.
      destruct (update_at _ _ (files w)) as [e|n1'] eqn:Hu; simplify_eq.
      destruct (update_at_parent _ _ _ _ _ Hu) as (m' & r & Hm' & Hr & Hn1).
      rewrite Hroot in Hm'. simplify_eq.
      destruct (m' !! "export") as [[|]|] eqn:Hx; simplify_eq.
      destruct (makedirs_succeeds (root h) "export" n1 _ Hn1) as (n2 & Hmk).
      { intros c. by rewrite lookup_partial_alter_eq. }
      rewrite Hmk. simpl. eauto.
    - unfold bind, ret, fs_call. unfold export in *.
      destruct (makedirs_succeeds (root h) "export" (files w) _ Hroot) as (n2 & Hmk).
      { intros c Hc. unfold is_file in Hfile. rewrite node_at_app, Hroot in Hfile.
        rewrite node_at_entry, Hc in Hfile. done. }
      rewrite Hmk. simpl. eauto. }
  exists w1. split; [done|].
  apply bind_ok in Hrun as (present & w0 & Htest & Hrest).
  destruct (export_emptied h _ _ _ _ Htest Hrest) as [He Hf].
  destruct Hout. by repeat split.
Qed.

Definition empty_export : M unit :=
  present <- test (λ n, is_dir n (export h)) ;;
  (if present then fs_call (rmtree (export h)) else ret ()) ;;
  fs_call (λ n, at_path (export h) (makedirs (export h) n)).

Lemma copy_steps w :
  is_dir (files w) (node_modules h) = true →
  RiseReveal.copy h w =
    (empty_export ;;
     fs_call (copytree (reveal_js h) (export h ++ ["reveal.js"])) ;;
     fs_call (copytree (chalkboard_plugin h)
                (export h ++ ["reveal.js-chalkboard"]))) w.
Proof.
  intros Hd. unfold RiseReveal.copy. rewrite rise_reveal_gate, Hd.
  change (joinpath (root h) "export") with (export h).
  change (joinpath (root h) "node_modules/reveal.js/") with (reveal_js h).
  change (joinpath (root h) "node_modules/reveal.js-plugins/chalkboard/")
    with (chalkboard_plugin h).
  replace (joinpath (root h) "export/reveal.js/")
    with (export h ++ ["reveal.js"])
    by (unfold export; by rewrite <- (assoc_L (++))).
  replace (joinpath (root h) "export/reveal.js-chalkboard/")
    with (export h ++ ["reveal.js-chalkboard"])
    by (unfold export; by rewrite <- (assoc_L (++))).
  unfold empty_export. rewrite bind_assoc. apply bind_ext. intros p w1.
  by rewrite bind_assoc.
Qed.


Lemma copytree_succeeds src d x n ms m :
  node_at src n = Some (Dir ms) → node_at d n = Some (Dir m) → m !! x = None →
  ∃ n', copytree src (d ++ [x]) n = inr n'.
Proof.
  intros Hs Hd Hx. unfold copytree, at_path.
  rewrite Hs, removelast_last, (makedirs_present _ _ _ Hd).
  edestruct (update_at_succeeds d x) as (n' & ->); [done| |by eauto].
  by rewrite Hx.
Qed.



Lemma copy_succeeds w m1 m2 :
  is_dir (files w) (node_modules h) = true →
  is_file (files w) (export h) = false →
  node_at (reveal_js h) (files w) = Some (Dir m1) →
  node_at (chalkboard_plugin h) (files w) = Some (Dir m2) →
  ∃ w', RiseReveal.copy h w = (inr (), w').
Proof.
  intros Hnm Hfile Hsrc1 Hsrc2.
  destruct (copy_empties w Hnm Hfile) as (w1 & Hrun & He & Hf & _).
  assert (diverge (export h) (reveal_js h) = true) as Hd1
    by (unfold export, reveal_js; by rewrite diverge_app).
  assert (diverge (export h) (chalkboard_plugin h) = true) as Hd2
    by (unfold export, chalkboard_plugin; by rewrite diverge_app).
  destruct (copytree_succeeds (reveal_js h) (export h) "reveal.js" (files w1)
              m1 ∅) as (n2 & Hc1); [by rewrite Hf|done|done|].
  destruct (copytree_into _ _ _ _ _ _ Hc1 He) as (m1' & Hs1 & _ & He1).
  pose proof (copytree_ok _ _ _ _ Hc1) as (_ & _ & _ & _ & Hf1).
  destruct (copytree_succeeds (chalkboard_plugin h) (export h)
              "reveal.js-chalkboard" n2 m2 (<["reveal.js":=Dir m1']> ∅))
    as (n3 & Hc2); [|exact He1| |].
  { rewrite Hf1, Hf; [done..|]. by apply diverge_above. }
  { by rewrite lookup_insert_ne, lookup_empty. }
  exists (set_files n3 (set_files n2 w1)). rewrite copy_steps by done.
  fold empty_export in Hrun. unfold bind at 1. rewrite Hrun.
  unfold bind, fs_call. rewrite Hc1. simpl. by rewrite Hc2.
Qed.

(** *** A patch step with and without its backup *)

#[local] Arguments write_bytes : simpl never.
#[local] Arguments copy_file : simpl never.
#[local] Arguments read_bytes : simpl never.
#[local] Arguments is_file : simpl never.
#[local] Arguments is_dir : simpl never.
#[local] Arguments node_at : simpl never.

















(** *** Nothing to do *)

Lemma themes_nothing w :
  is_dir (files w) (node_modules h) = true →
  is_dir (files w) (theme_dir h) = false →
  RiseReveal.patch_reveal_themes h w = (inr (), w).
Proof.
  intros Hnm Hd. rewrite patch_reveal_themes_steps, rise_reveal_gate, Hnm.
  unfold themes_loop, bind, query, css_names, entries. unfold is_dir in Hd.
  by destruct (node_at (theme_dir h) (files w)) as [[|]|].
Qed.

Lemma theme_stays_missing w x :
  fnmatch "*.css" x = true →
  node_at (theme h x) (files w) = None →
  let n' := files (RiseReveal.patch_reveal_themes h w).2 in
  node_at (theme h x) n' = None ∧
  node_at (theme_backup h x) n' = node_at (theme_backup h x) (files w).
Proof.
  intros Hx Hnone. cbv zeta. rewrite patch_reveal_themes_steps, rise_reveal_gate.
  destruct (is_dir (files w) (node_modules h)); [|done].
  unfold themes_loop, bind, query.
  assert (x ∉ css_names h (files w)) as Hout.
  { intros [_ [v Hv]]%css_names_elem. congruence. }
  rewrite !themes_loop_frame; [done|apply css_names_match| |apply css_names_match|].
  - intros y Hy. pose proof (css_names_match h _ _ Hy) as Hmy.
    unfold theme, theme_backup. split; apply diverge_names.
    + by apply css_not_patched.
    + intros ?%patched_inj. by subst.
  - intros y Hy. pose proof (css_names_match h _ _ Hy) as Hmy.
    unfold theme, theme_backup. split; apply diverge_names.
    + by intros ->.
    + intros Heq. symmetry in Heq. by apply css_not_patched in Heq.
Qed.

End RiseReveal.
Section Classic.
Variable h : host.

Lemma install_nothing w :
  is_dir (files w) (node_modules h) = true →
  vendored h (files w) = [] →
  Classic.install_rise_reveal h w = (inr (), w).
Proof.
  intros Hnm Hv. unfold Classic.install_rise_reveal.
  rewrite classic_gate, Hnm.
  change (joinpath (root h) "../rise-reveal/export/") with (rise_reveal_export h).
  unfold bind, query. rewrite glob_entries. fold (vendored h (files w)).
  by rewrite Hv.
Qed.

Lemma vendored_without_export n :
  is_dir n (rise_reveal_export h) = false → vendored h n = [].
Proof.
  unfold vendored, entries, is_dir.
  by destruct (node_at (rise_reveal_export h) n) as [[|]|].
Qed.

End Classic.




(** X15.  [patch_reveal_themes] works on the [*.css] files that exist.
    Without the theme directory it returns and the world is as before.  A
    theme that is missing stays missing, and its backup, if there is one,
    is not touched: unlike the other targets it is not written anew from
    the backup. *)
Theorem themes_only_existing (h : host) (w : world) :
  is_dir (files w) (node_modules h) = true →
  (is_dir (files w) (theme_dir h) = false →
   RiseReveal.patch_reveal_themes h w = (inr (), w)) ∧
  (∀ x, fnmatch "*.css" x = true →
        node_at (theme h x) (files w) = None →
        node_at (theme h x) (files (RiseReveal.patch_reveal_themes h w).2) =
          None ∧
        node_at (theme_backup h x)
          (files (RiseReveal.patch_reveal_themes h w).2) =
          node_at (theme_backup h x) (files w)).
Proof.
  intros Hnm. split.
  - by apply themes_nothing.
  - intros x Hx Hnone. by apply theme_stays_missing.
Qed.

(** X16.  [install_rise_reveal] copies what the glob finds, and the glob
    of a directory that does not exist finds nothing: with [node_modules]
    present and no [../rise-reveal/export], or with nothing in it that
    matches [reveal.js*], the function returns and the world is as
    before. *)
Theorem install_without_export_copies_nothing (h : host) (w : world) :
  is_dir (files w) (node_modules h) = true →
  (is_dir (files w) (rise_reveal_export h) = false →
   Classic.install_rise_reveal h w = (inr (), w)) ∧
  (vendored h (files w) = [] →
   Classic.install_rise_reveal h w = (inr (), w)).
Proof.
  intros Hnm. split.
  - intros Hd. apply install_nothing; [done|]. by apply vendored_without_export.
  - by apply install_nothing.
Qed.

(** X20.  The name of a theme's backup.  [with_suffix] with the suffix of
    the name followed by [.patched] appends [.patched] to the whole name,
    whatever dots the name has.  Such a name does not match [*.css], so
    that a later run takes no backup for a theme, and two themes never
    share a backup. *)
Theorem theme_backup_names (d : path) (x y : string) :
  (x ≠ "" →
   with_suffix (d ++ [x]) (suffix (d ++ [x]) +:+ ".patched") =
     Some (d ++ [x +:+ ".patched"])) ∧
  fnmatch "*.css" (x +:+ ".patched") = false ∧
  (x +:+ ".patched" = y +:+ ".patched" → x = y).
Proof.
  split; [apply with_suffix_patched|]. split; [|apply patched_inj].
  destruct (fnmatch "*.css" (x +:+ ".patched")) eqn:Hm; [|done].
  by destruct (css_not_patched _ x Hm).
Qed.



End Failures.

(** ** Building again *)

Module Rebuild.
Import Text FS Tree Step Names Run Gate Trees Ops Copies Clean Again.
Import Removal Failures.
#[local] Open Scope script_scope.


(** *** Commands whose outcome and files depend on the files alone *)

Definition files_only {A} (c : M A) : Prop :=
  ∀ w w', files w = files w' →
          (c w).1 = (c w').1 ∧ files (c w).2 = files (c w').2.

Lemma files_only_ext {A} (c c' : M A) :
  (∀ w, c w = c' w) → files_only c' → files_only c.
Proof. intros Heq Hc w w' Hw. rewrite !Heq. by apply Hc. Qed.

Lemma files_only_ret {A} (a : A) : files_only (ret a).
Proof. by intros w w' Hw. Qed.

Lemma files_only_raise {A} e : files_only (@raise A e).
Proof. by intros w w' Hw. Qed.

Lemma files_only_bind {A B} (c : M A) (k : A → M B) :
  files_only c → (∀ a, files_only (k a)) → files_only (bind c k).
Proof.
  intros Hc Hk w w' Hw. unfold bind. destruct (Hc w w' Hw) as [H1 H2].
  destruct (c w) as [[e|a] w1], (c w') as [[e'|a'] w1']; simpl in *;
    simplify_eq; [done|]. by apply Hk.
Qed.

Lemma files_only_test f : files_only (test f).
Proof. intros w w' Hw. unfold test. simpl. by rewrite Hw. Qed.

Lemma files_only_query {A} (f : node → A) : files_only (query f).
Proof. intros w w' Hw. unfold query. simpl. by rewrite Hw. Qed.

Lemma files_only_fs_call f : files_only (fs_call f).
Proof.
  intros w w' Hw. unfold fs_call. rewrite Hw.
  by destruct (f (files w')) as [[e p]|n].
Qed.

Lemma files_only_print s : files_only (print s).
Proof. by intros w w' Hw. Qed.

Lemma files_only_read_text p : files_only (read_text p).
Proof.
  intros w w' Hw. unfold read_text. rewrite Hw.
  by destruct (read_bytes p (files w')) as [[e q]|d].
Qed.

Lemma files_only_check_output h args : files_only (check_output h args).
Proof.
  intros w w' Hw. unfold check_output. rewrite Hw.
  by destruct (exec h args (files w')).
Qed.

Lemma files_only_for_each {A} (xs : list A) body :
  (∀ x, files_only (body x)) → files_only (for_each xs body).
Proof.
  intros Hb. induction xs as [|x xs IH]; [apply files_only_ret|].
  cbn [for_each]. by apply files_only_bind.
Qed.

Lemma files_only_patch_step msg t b T : files_only (patch_step msg t b T).
Proof.
  unfold patch_step.
  apply files_only_bind; [apply files_only_print|intros _].
  apply files_only_bind; [apply files_only_test|intros saved].
  apply files_only_bind.
  { destruct saved; [apply files_only_ret|apply files_only_fs_call]. }
  intros _. apply files_only_bind; [apply files_only_read_text|intros text].
  apply files_only_fs_call.
Qed.

(** *** Trees that agree at a path and apart from it *)

Lemma tree_ext p : ∀ n n' v,
  node_at p n = Some v → node_at p n' = Some v →
  (∀ q, diverge p q = true → node_at q n = node_at q n') →
  n = n'.
Proof.
  induction p as [|x p IH]; intros n n' v Hn Hn' Hq.
  - simpl in *. congruence.
  - simpl in Hn, Hn'. destruct n as [|m]; [done|]. destruct n' as [|m']; [done|].
    destruct (m !! x) as [c|] eqn:Hx; [|done].
    destruct (m' !! x) as [c'|] eqn:Hx'; [|done].
    f_equal. apply map_eq. intros y. destruct (decide (y = x)) as [->|Hy].
    + rewrite Hx, Hx'. f_equal. apply (IH c c' v Hn Hn').
      intros q Hd. specialize (Hq (x :: q)). simpl in Hq.
      rewrite String.eqb_refl, Hx, Hx' in Hq. by apply Hq.
    + specialize (Hq [y]). simpl in Hq.
      destruct (String.eqb_spec x y) as [->|_]; [done|].
      specialize (Hq eq_refl).
      by destruct (m !! y), (m' !! y).
Qed.

Lemma diverge_extend d r q : diverge d q = true → diverge (d ++ r) q = true.
Proof.
  intros H. rewrite diverge_sym. apply diverge_below. by rewrite diverge_sym.
Qed.

Section Build.
Variable h : host.
Hypothesis git : git_scope h.

Lemma files_only_gate name f :
  files_only f → files_only (RiseReveal.require_npm_install h name f).
Proof.
  intros Hf. unfold RiseReveal.require_npm_install.
  apply files_only_bind; [apply files_only_test|].
  intros [|]; [done|apply files_only_raise].
Qed.

Lemma files_only_patch : files_only (RiseReveal.patch h).
Proof.
  unfold RiseReveal.patch. apply files_only_gate.
  apply files_only_bind; [|intros _].
  { eapply files_only_ext; [apply patch_reveal_css_steps|].
    apply files_only_gate, files_only_patch_step. }
  apply files_only_bind; [|intros _].
  { eapply files_only_ext; [apply patch_notes_steps|].
    apply files_only_gate, files_only_bind; [apply files_only_patch_step|].
    intros _. apply files_only_patch_step. }
  apply files_only_bind; [|intros _].
  { eapply files_only_ext; [apply patch_reveal_themes_steps|].
    apply files_only_gate. unfold themes_loop.
    apply files_only_bind; [apply files_only_query|intros names].
    apply files_only_for_each. intros x. apply files_only_patch_step. }
  eapply files_only_ext; [apply patch_chalkboard_steps|].
  apply files_only_gate. unfold chalkboard_step.
  apply files_only_bind; [apply files_only_print|intros _].
  apply files_only_bind; [apply files_only_test|intros saved].
  apply files_only_bind.
  { destruct saved; [apply files_only_ret|apply files_only_fs_call]. }
  intros _. apply files_only_check_output.
Qed.

Lemma pair_below_export t b :
  backup_pair h t b → ∃ r r', t = export h ++ r ∧ b = export h ++ r'.
Proof.
  destruct 1;
    unfold css, css_backup, notes_js, notes_js_backup, notes_html,
      notes_html_backup, chalkboard, chalkboard_backup, theme, theme_backup,
      theme_dir, export;
    eexists _, _; split; rewrite <- ?(assoc_L (++)); reflexivity.
Qed.

(** The patch commands change nothing apart from [export]. *)
Lemma patch_outside_export cmd w q :
  diverge (export h) q = true →
  node_at q (files (run_command h cmd w).2) = node_at q (files w).
Proof.
  intros Hq.
  apply (stable_command h (λ n, node_at q n = node_at q (files w)) cmd git);
    [|done].
  intros t b c Hp Hc w1 Hw1.
  destruct (pair_below_export t b Hp) as (r & r' & -> & ->).
  rewrite <- Hw1. apply (step_frame _ _ _ Hc); by apply diverge_extend.
Qed.

Lemma build_steps w :
  RiseReveal.build h w =
    RiseReveal.require_npm_install h "build"
      (RiseReveal.copy h ;; RiseReveal.patch h) w.
Proof. done. Qed.

Lemma below_not_file n d x r :
  is_Some (node_at (d ++ x :: r) n) → is_file n d = false.
Proof.
  rewrite node_at_app. unfold is_file.
  destruct (node_at d n) as [[c|m]|]; try done. by intros [? ?].
Qed.

Lemma patch_keeps_css_backup w w' :
  RiseReveal.patch h w = (inr (), w') →
  is_Some (node_at (css_backup h) (files w')).
Proof.
  unfold RiseReveal.patch. intros [_ Hrun]%gate_ok.
  apply bind_ok in Hrun as ([] & w1 & H1 & Hrun).
  apply bind_ok in Hrun as ([] & w2 & H2 & Hrun).
  apply bind_ok in Hrun as ([] & w3 & H3 & H4).
  destruct (css_ok h _ _ H1) as (c & Hb & _).
  pose proof (kept h _ _ PatchNotes w1 c git (pair_css h) Hb) as Hk2.
  simpl in Hk2. rewrite H2 in Hk2.
  pose proof (kept h _ _ PatchRevealThemes w2 c git (pair_css h) Hk2) as Hk3.
  simpl in Hk3. rewrite H3 in Hk3.
  pose proof (kept h _ _ PatchChalkboard w3 c git (pair_css h) Hk3) as Hk4.
  simpl in Hk4. rewrite H4 in Hk4. by exists (File c).
Qed.

(** X17.  [build] can be run again.  With [git apply] changing nothing but
    its target, a second [build] after a successful one succeeds and leaves
    every file as the first has left it: [copy] starts every build from
    what [node_modules] ships, so that [patch], [patch_chalkboard]
    included, works on fresh files. *)
Theorem build_is_repeatable w w1 :
  RiseReveal.build h w = (inr (), w1) →
  ∃ w2, RiseReveal.build h w1 = (inr (), w2) ∧ files w2 = files w1.
Proof.
  rewrite build_steps. intros [Hnm Hrun]%gate_ok.
  apply bind_ok in Hrun as ([] & wc & Hcopy & Hpatch).
  destruct (copy_mirrors h _ _ Hcopy) as (m1 & m2 & Hs1 & Hs2 & He & Hfc).
  assert (∀ q, diverge (export h) q = true →
               node_at q (files w1) = node_at q (files wc)) as Hfp.
  { intros q Hq. pose proof (patch_outside_export PatchAll wc q Hq) as Hf.
    simpl in Hf. by rewrite Hpatch in Hf. }
  assert (diverge (export h) (node_modules h) = true) as Hd0
    by (unfold export, node_modules; by rewrite diverge_app).
  assert (diverge (export h) (reveal_js h) = true) as Hd1
    by (unfold export, reveal_js; by rewrite diverge_app).
  assert (diverge (export h) (chalkboard_plugin h) = true) as Hd2
    by (unfold export, chalkboard_plugin; by rewrite diverge_app).
  assert (is_dir (files w1) (node_modules h) = true) as Hnm1.
  { unfold is_dir in *. by rewrite Hfp, Hfc. }
  assert (is_file (files w1) (export h) = false) as Hfile1.
  { apply (below_not_file _ _ "reveal.js" ["css"; "reveal.css.upstream"]).
    pose proof (patch_keeps_css_backup _ _ Hpatch) as Hb.
    unfold css_backup in Hb. unfold export. by rewrite <- (assoc_L (++)). }
  destruct (copy_succeeds h w1 m1 m2) as (wc' & Hcopy'); [done|done| | |].
  { by rewrite Hfp, Hfc. }
  { by rewrite Hfp, Hfc. }
  destruct (copy_mirrors h _ _ Hcopy') as (m1' & m2' & Hs1' & Hs2' & He' & Hfc').
  rewrite Hfp, Hfc, Hs1 in Hs1' by done. injection Hs1' as <-.
  rewrite Hfp, Hfc, Hs2 in Hs2' by done. injection Hs2' as <-.
  assert (files wc' = files wc) as Hsame.
  { eapply (tree_ext (export h)); [exact He'|exact He|].
    intros q Hq. by rewrite Hfc', Hfp. }
  destruct (files_only_patch wc' wc Hsame) as [Hres Hfiles].
  rewrite Hpatch in Hres, Hfiles. simpl in Hres, Hfiles.
  exists (RiseReveal.patch h wc').2. split; [|done].
  rewrite build_steps, rise_reveal_gate, Hnm1. unfold bind. rewrite Hcopy'.
  destruct (RiseReveal.patch h wc') as [[e|[]] w2]; simpl in *; by simplify_eq.
Qed.

(** What [node_modules] ships for a path below [export]. *)
Definition shipped (p : path) (n : node) : option node :=
  match relative_to p (export h) with
  | Some (x :: q) =>
      if decide (x = "reveal.js") then node_at (reveal_js h ++ q) n
      else if decide (x = "reveal.js-chalkboard")
           then node_at (chalkboard_plugin h ++ q) n
           else None
  | _ => None
  end.

Lemma copy_shipped w wc x q :
  RiseReveal.copy h w = (inr (), wc) →
  node_at (export h ++ x :: q) (files wc) = shipped (export h ++ x :: q) (files w).
Proof.
  intros Hcopy. unfold shipped. rewrite relative_to_root.
  by apply copy_relative.
Qed.

Lemma pair_in_export t b :
  backup_pair h t b →
  ∃ x q x' q', t = export h ++ x :: q ∧ b = export h ++ x' :: q'.
Proof.
  destruct 1;
    unfold css, css_backup, notes_js, notes_js_backup, notes_html,
      notes_html_backup, chalkboard, chalkboard_backup, theme, theme_backup,
      theme_dir, export;
    eexists _, _, _, _; split; rewrite <- ?(assoc_L (++)); reflexivity.
Qed.

(** X18.  After a successful [build], with [git apply] changing nothing but
    its target, the backup of a target holds what [node_modules] ships for
    the target, byte for byte, provided [node_modules] ships a regular file
    for the target and nothing under the name of the backup. *)
Theorem build_backups_hold_shipped_files w w1 t b d :
  RiseReveal.build h w = (inr (), w1) →
  backup_pair h t b →
  shipped b (files w) = None → shipped t (files w) = Some (File d) →
  node_at b (files w1) = Some (File d).
Proof.
  rewrite build_steps. intros [Hnm Hrun]%gate_ok Hp Hb Ht.
  apply bind_ok in Hrun as ([] & wc & Hcopy & Hpatch).
  destruct (pair_in_export t b Hp) as (x & q & x' & q' & -> & ->).
  rewrite <- (copy_shipped w wc) in Hb, Ht by done.
  destruct (backup_made h PatchAll _ _ wc w1 git (owner_all h _ _ Hp) Hb)
    as (d' & Hd'); [by rewrite Ht|done|].
  assert (pristine (files wc) (export h ++ x :: q) (export h ++ x' :: q')
            (files wc)) as Hpr0 by (by left).
  pose proof (kept_pristine h _ _ _ PatchAll wc git Hp Hpr0) as Hpr.
  simpl in Hpr. rewrite Hpatch in Hpr.
  destruct Hpr as [[? _]|(d2 & ? & ?)]; simpl in *; congruence.
Qed.

End Build.

(** X19.  The patch commands stay inside [export].  With [git apply]
    changing nothing but its target, a patch command, whether it succeeds
    or fails, changes nothing apart from the targets and their backups, and
    so nothing apart from [export]: not [node_modules], not the patch
    file. *)
Theorem patch_stays_in_export (h : host) (cmd : patch_command) (w : world)
    (q : path) :
  git_scope h →
  ((∀ t b, backup_pair h t b →
           diverge t q = true ∧ diverge b q = true) →
   node_at q (files (run_command h cmd w).2) = node_at q (files w)) ∧
  (diverge (export h) q = true →
   node_at q (files (run_command h cmd w).2) = node_at q (files w)) ∧
  node_at (node_modules h) (files (run_command h cmd w).2) =
    node_at (node_modules h) (files w) ∧
  node_at (root h ++ ["chalkboard.js.patch"]) (files (run_command h cmd w).2) =
    node_at (root h ++ ["chalkboard.js.patch"]) (files w).
Proof.
  intros Hgit. split; [|split; [|split]].
  - intros Hq.
    apply (stable_command h (λ n, node_at q n = node_at q (files w)) cmd Hgit);
      [|done].
    intros t b c Hp Hc w1 Hw1. rewrite <- Hw1.
    destruct (Hq t b Hp) as [H1 H2]. by apply (step_frame _ _ _ Hc).
  - by apply patch_outside_export.
  - apply patch_outside_export; [done|].
    unfold export, node_modules. by rewrite diverge_app.
  - apply patch_outside_export; [done|].
    unfold export. by rewrite diverge_app.
Qed.

(** *** Copying again *)

(** X23.  [copy] can be run again: a second [copy] after a successful one
    succeeds and leaves every file as the first has left it. *)
Theorem copy_is_repeatable (h : host) (w w1 : world) :
  RiseReveal.copy h w = (inr (), w1) →
  ∃ w2, RiseReveal.copy h w1 = (inr (), w2) ∧ files w2 = files w1.
Proof.
  intros Hcopy.
  destruct (copy_mirrors h _ _ Hcopy) as (m1 & m2 & Hs1 & Hs2 & He & Hf).
  assert (is_dir (files w) (node_modules h) = true) as Hnm.
  { unfold RiseReveal.copy in Hcopy. rewrite rise_reveal_gate in Hcopy.
    by destruct (is_dir (files w) (node_modules h)). }
  assert (diverge (export h) (node_modules h) = true) as Hd0
    by (unfold export, node_modules; by rewrite diverge_app).
  assert (diverge (export h) (reveal_js h) = true) as Hd1
    by (unfold export, reveal_js; by rewrite diverge_app).
  assert (diverge (export h) (chalkboard_plugin h) = true) as Hd2
    by (unfold export, chalkboard_plugin; by rewrite diverge_app).
  destruct (copy_succeeds h w1 m1 m2) as (w2 & Hcopy').
  { unfold is_dir in *. by rewrite Hf. }
  { unfold is_file. by rewrite He. }
  { by rewrite Hf. }
  { by rewrite Hf. }
  exists w2. split; [done|].
  destruct (copy_mirrors h _ _ Hcopy') as (m1' & m2' & Hs1' & Hs2' & He' & Hf').
  rewrite Hf, Hs1 in Hs1' by done. injection Hs1' as <-.
  rewrite Hf, Hs2 in Hs2' by done. injection Hs2' as <-.
  by eapply (tree_ext (export h)).
Qed.


End Rebuild.

(** ** Concrete runs *)

Module Examples.
Import Text FS Tree Step Names Run Gate Ops Trees Copies Clean Again.
Import Rules Endings Dispatch Compile Removal Failures Rebuild.

Definition dir (entries : list (string * node)) : node :=
  Dir (list_to_map entries).

Definition file (s : string) : node := File (txt s).

Definition nl : string := String LF "".
Definition crlf : string := String CR (String LF "").

(** Modelled from the spec: [git apply] is an external program and the
    patch file [chalkboard.js.patch] is not among the sources.  The spec has
    the command modify the target file by applying a textual diff.  This
    stand-in reads a unified diff of one hunk that spans the whole target:
    the lines that begin with [-] or a space are the old text, those that
    begin with [+] or a space the new one, and the header lines are passed
    over.  It writes the new text when the target is the old text, and
    fails otherwise, as [git apply] does when a hunk does not apply. *)
Definition header (line : text) : bool :=
  starts_with (txt "---") line || starts_with (txt "+++") line ||
  starts_with (txt "@@") line.

Fixpoint hunk_side (sign : ascii) (lines : list text) : text :=
  match lines with
  | [] => []
  | line :: rest =>
      (if header line then []
       else match line with
            | c :: body =>
                if Ascii.eqb c sign || Ascii.eqb c " " then body else []
            | [] => []
            end) ++ hunk_side sign rest
  end.

Definition one_hunk_git (r : path) (args : list string) (n : node)
  : option node :=
  match args with
  | "git" :: "apply" :: _ =>
      let target := r ++ ["export"; "reveal.js-chalkboard"; "chalkboard.js"] in
      match read_bytes (r ++ ["chalkboard.js.patch"]) n, read_bytes target n with
      | inr patch, inr old =>
          if decide (old = hunk_side "-" (splitlines patch)) then
            match write_bytes target (hunk_side "+" (splitlines patch)) n with
            | inr n' => Some n'
            | inl _ => None
            end
          else None
      | _, _ => None
      end
  | _ => None
  end.

(** A host for rise-reveal, with the stand-in for [git]. *)
Definition rise_reveal_host : host :=
  Host ["rise-reveal"] "Linux" (one_hunk_git ["rise-reveal"]).

(** A Windows host for the classic script, without external programs. *)
Definition windows_host : host := Host ["classic"] "Windows" (λ _ _, None).

Definition linux_host : host := Host ["classic"] "Linux" (λ _ _, None).

Definition crlf_css : string := "html {" +:+ crlf +:+ "}" +:+ crlf.

(** An [export] as [copy] leaves it, with a [reveal.css] whose lines end in
    CR LF, and the patch for the chalkboard. *)
Definition exported : node :=
  dir [("rise-reveal", dir [
    ("node_modules", dir []);
    ("chalkboard.js.patch",
     file ("--- a/chalkboard.js" +:+ nl +:+
           "+++ b/chalkboard.js" +:+ nl +:+
           "@@ -1 +1 @@" +:+ nl +:+
           "-var key = 67;" +:+ nl +:+
           "+var key = 66;" +:+ nl));
    ("export", dir [
      ("reveal.js", dir [
        ("css", dir [
          ("reveal.css", file crlf_css);
          ("theme", dir [("sky.css", file ("body {" +:+ nl +:+ "}" +:+ nl))])]);
        ("plugin", dir [
          ("notes", dir [
            ("notes.js", file "keyCode: 83");
            ("notes.html", file ("/* Layout selector */" +:+ nl))])])]);
      ("reveal.js-chalkboard", dir [
        ("chalkboard.js", file ("var key = 67;" +:+ nl))])])])].

Definition exported_world : world := World exported [] [].

(** A classic tree in which [rise/static/reveal.js] exists already. *)
Definition installed : node :=
  dir [
    ("rise-reveal", dir [
      ("export", dir [
        ("reveal.js", dir [("reveal.js", file "upstream")])])]);
    ("classic", dir [
      ("node_modules", dir []);
      ("rise", dir [
        ("static", dir [
          ("reveal.js", dir [("old.txt", file "old")])])])])].

Definition installed_world : world := World installed [] [].

Lemma one_hunk_git_scope : git_scope rise_reveal_host.
Proof.
  intros n n' q Hexec Hq. unfold rise_reveal_host, git_apply in Hexec.
  cbn [exec one_hunk_git root] in Hexec.
  destruct (read_bytes _ n) as [?|patch]; [done|].
  destruct (read_bytes _ n) as [?|old]; [done|].
  destruct (decide _); [|done].
  destruct (write_bytes _ _ n) as [?|n1] eqn:Hw; simplify_eq.
  by apply (write_bytes_ok _ _ _ _ Hw).
Qed.

(** C1 at a failing input.  With a patch that applies to the target, the
    first run of [patch_chalkboard] succeeds; the second run, on the files
    the first has left, ends with the error of [git apply]: the target is
    already patched and is not restored from the backup. *)
Theorem patch_chalkboard_second_run_fails :
  (RiseReveal.patch_chalkboard rise_reveal_host exported_world).1 = inr () ∧
  (RiseReveal.patch_chalkboard rise_reveal_host
     (RiseReveal.patch_chalkboard rise_reveal_host exported_world).2).1 =
    inl (CalledProcessError (git_apply rise_reveal_host)).
Proof. split; vm_compute; reflexivity. Qed.




Lemma watch_less_unbound_local_witness :
  is_dir (files installed_world) (node_modules windows_host) = true ∧
  Classic.watch_less windows_host installed_world =
    (inl (UnboundLocalError "lessc"), installed_world).
Proof.
  split; [reflexivity|].
  apply (watch_less_unbound_local windows_host installed_world); reflexivity.
Defined.

(** A tree before [copy]: the two sources, and an [export] left from an
    earlier run. *)
Definition vendor : node :=
  dir [("rise-reveal", dir [
    ("node_modules", dir [
      ("reveal.js", dir [("css", dir [("reveal.css", file "html {}")])]);
      ("reveal.js-plugins", dir [
        ("chalkboard", dir [("chalkboard.js", file "var key = 67;")])])]);
    ("export", dir [("stale.txt", file "stale")])])].

Definition vendor_world : world := World vendor [] [].




(** What CPython binds in the namespace of a script before it runs it. *)
Definition cpython_names : list string := [
  "__name__"; "__doc__"; "__package__"; "__loader__"; "__spec__";
  "__annotations__"; "__builtins__"; "__file__"; "__cached__"
].

(** The files before the first [build]: what [npm install] has left, and
    the patch for the chalkboard. *)
Definition fresh : node :=
  dir [("rise-reveal", dir [
    ("node_modules", dir [
      ("reveal.js", dir [
        ("css", dir [
          ("reveal.css", file crlf_css);
          ("theme", dir [("sky.css", file ("body {" +:+ nl +:+ "}" +:+ nl))])]);
        ("plugin", dir [
          ("notes", dir [
            ("notes.js", file "keyCode: 83");
            ("notes.html", file ("/* Layout selector */" +:+ nl))])])]);
      ("reveal.js-plugins", dir [
        ("chalkboard", dir [
          ("chalkboard.js", file ("var key = 67;" +:+ nl))])])]);
    ("chalkboard.js.patch",
     file ("--- a/chalkboard.js" +:+ nl +:+
           "+++ b/chalkboard.js" +:+ nl +:+
           "@@ -1 +1 @@" +:+ nl +:+
           "-var key = 67;" +:+ nl +:+
           "+var key = 66;" +:+ nl))])].

Definition fresh_world : world := World fresh [] [].





(** A classic tree on its own, with a regular file under [rise/static]
    whose name matches [reveal.js*]. *)
Definition classic_alone : node :=
  dir [("classic", dir [
    ("node_modules", dir []);
    ("rise", dir [
      ("static", dir [
        ("main.css", file "");
        ("reveal.js.map", file "{}")])])])].

Definition classic_alone_world : world := World classic_alone [] [].

Lemma targets_have_no_cr_witness :
  ∃ d, node_at (css rise_reveal_host)
         (files (RiseReveal.patch_reveal_css rise_reveal_host exported_world).2)
       = Some (File d) ∧ no_cr d.
Proof.
  apply (proj1 (targets_have_no_cr rise_reveal_host exported_world
                  (RiseReveal.patch_reveal_css rise_reveal_host exported_world).2)).
  vm_compute. reflexivity.
Defined.

Lemma main_rejects_other_names_witness :
  RiseReveal.main rise_reveal_host cpython_names ["frobnicate"; "clean"]
    exported_world =
    (inl (Raised (KeyError "frobnicate")), exported_world).
Proof.
  apply (proj1 (main_rejects_other_names rise_reveal_host cpython_names
                  "frobnicate" ["clean"] exported_world)).
  vm_compute. intros Hin.
  repeat (apply elem_of_cons in Hin as [Hin|Hin]; [discriminate Hin|]).
  by apply elem_of_nil in Hin.
Defined.

Lemma hyphens_and_underscores_round_trip_witness :
  underscore (hyphenate "patch_reveal_css") = "patch_reveal_css".
Proof.
  apply (proj1 (hyphens_and_underscores_round_trip rise_reveal_host
                  cpython_names "patch_reveal_css")).
  vm_compute. intros Hin.
  repeat (apply elem_of_cons in Hin as [Hin|Hin]; [discriminate Hin|]).
  by apply elem_of_nil in Hin.
Defined.






Lemma themes_only_existing_witness :
  is_dir (files vendor_world) (node_modules rise_reveal_host) = true ∧
  RiseReveal.patch_reveal_themes rise_reveal_host vendor_world =
    (inr (), vendor_world).
Proof.
  split; [reflexivity|].
  exact (proj1 (themes_only_existing rise_reveal_host vendor_world eq_refl)
           eq_refl).
Defined.

Lemma install_without_export_copies_nothing_witness :
  is_dir (files classic_alone_world) (node_modules linux_host) = true ∧
  Classic.install_rise_reveal linux_host classic_alone_world =
    (inr (), classic_alone_world).
Proof.
  split; [reflexivity|].
  exact (proj1 (install_without_export_copies_nothing linux_host
                  classic_alone_world eq_refl) eq_refl).
Defined.

Lemma build_is_repeatable_witness :
  let w1 := (RiseReveal.build rise_reveal_host fresh_world).2 in
  git_scope rise_reveal_host ∧
  RiseReveal.build rise_reveal_host fresh_world = (inr (), w1) ∧
  ∃ w2, RiseReveal.build rise_reveal_host w1 = (inr (), w2) ∧
        files w2 = files w1.
Proof.
  cbv zeta.
  assert (RiseReveal.build rise_reveal_host fresh_world =
          (inr (), (RiseReveal.build rise_reveal_host fresh_world).2)) as Hrun
    by (vm_compute; reflexivity).
  split; [exact one_hunk_git_scope|]. split; [exact Hrun|].
  exact (build_is_repeatable rise_reveal_host one_hunk_git_scope fresh_world _
           Hrun).
Defined.

Lemma build_backups_hold_shipped_files_witness :
  let w1 := (RiseReveal.build rise_reveal_host fresh_world).2 in
  RiseReveal.build rise_reveal_host fresh_world = (inr (), w1) ∧
  shipped rise_reveal_host (css_backup rise_reveal_host) (files fresh_world) =
    None ∧
  shipped rise_reveal_host (css rise_reveal_host) (files fresh_world) =
    Some (file crlf_css) ∧
  node_at (css_backup rise_reveal_host) (files w1) = Some (file crlf_css).
Proof.
  cbv zeta.
  assert (RiseReveal.build rise_reveal_host fresh_world =
          (inr (), (RiseReveal.build rise_reveal_host fresh_world).2)) as Hrun
    by (vm_compute; reflexivity).
  assert (shipped rise_reveal_host (css_backup rise_reveal_host)
            (files fresh_world) = None) as Hb by (vm_compute; reflexivity).
  assert (shipped rise_reveal_host (css rise_reveal_host) (files fresh_world) =
            Some (file crlf_css)) as Ht by (vm_compute; reflexivity).
  split; [exact Hrun|]. split; [exact Hb|]. split; [exact Ht|].
  exact (build_backups_hold_shipped_files rise_reveal_host one_hunk_git_scope
           fresh_world _ _ _ _ Hrun (pair_css rise_reveal_host) Hb Ht).
Defined.

Lemma patch_stays_in_export_witness :
  git_scope rise_reveal_host ∧
  node_at (root rise_reveal_host ++ ["chalkboard.js.patch"])
    (files (run_command rise_reveal_host PatchAll exported_world).2) =
  node_at (root rise_reveal_host ++ ["chalkboard.js.patch"])
    (files exported_world).
Proof.
  split; [exact one_hunk_git_scope|].
  apply (patch_stays_in_export rise_reveal_host PatchAll exported_world []
           one_hunk_git_scope).
Defined.

Lemma theme_backup_names_witness :
  with_suffix ["theme"; "sky.min.css"]
    (suffix ["theme"; "sky.min.css"] +:+ ".patched") =
    Some ["theme"; "sky.min.css.patched"].
Proof.
  apply (proj1 (theme_backup_names ["theme"] "sky.min.css" "")). discriminate.
Defined.



Lemma copy_is_repeatable_witness :
  let w1 := (RiseReveal.copy rise_reveal_host vendor_world).2 in
  RiseReveal.copy rise_reveal_host vendor_world = (inr (), w1) ∧
  ∃ w2, RiseReveal.copy rise_reveal_host w1 = (inr (), w2) ∧
        files w2 = files w1.
Proof.
  cbv zeta.
  assert (RiseReveal.copy rise_reveal_host vendor_world =
          (inr (), (RiseReveal.copy rise_reveal_host vendor_world).2)) as Hrun
    by (vm_compute; reflexivity).
  split; [exact Hrun|].
  exact (copy_is_repeatable rise_reveal_host vendor_world _ Hrun).
Defined.



End Examples.
